(** * CuraEngine polygon kernel: containment, filtering and repair routines

    A shallow embedding of the routines of [utils/polygons.cpp] and of the
    smoothing action of [utils/actions/smooth.h], together with the
    properties established for them.

    Conventions.
    - [coord_t], [int64_t] and [int] values are integers of [Z].  Signed
      overflow is undefined behaviour in C++, so the embedding describes the
      executions in which no signed operation overflows; where a product of
      two [int] values meets 64-bit coordinates (the tolerance of [remove])
      the overflow is written out with [int_mul].
    - [size_t] values are integers of [Z] in the range [0 .. 2^64 - 1]; where
      the source relies on unsigned wrap-around it is written out with
      [size_t_wrap].
    - [double] values that are only compared or passed on are rationals of
      [Q]; the arithmetic of [smooth.h] is kept behind an interface.
    - Positions that stay inside their container are naturals of [nat].
    - Reading outside a container ([back()] of an empty vector, an index past
      the end) is undefined behaviour; routines that can do so return an
      [option] and yield [None] in that case.
    - Calls into the clipping library are nodes of a call tree ([clip]), so
      that both the answer and the calls made can be stated.
    - A routine that assigns a temporary to a [Polygons] object enters
      [Polygons::operator=(Polygons&&)]; it takes fuel and answers with an
      [outcome]. *)

From Stdlib Require Import ZArith QArith Qabs Lia Bool.
From stdpp Require Import base option list gmap.

Local Open Scope Z_scope.

(** ** Geometry primitives *)

Record Point2LL : Type := mkPoint { X : Z; Y : Z }.

Abbreviation Polygon := (list Point2LL).
Abbreviation Polygons := (list (list Point2LL)).

#[global] Instance Point2LL_eq_dec : EqDecision Point2LL.
Proof. solve_decision. Defined.

Definition point_to_pair (p : Point2LL) : Z * Z := (X p, Y p).
Definition pair_to_point (q : Z * Z) : Point2LL := mkPoint q.1 q.2.

#[global] Instance Point2LL_countable : Countable Point2LL.
Proof.
  apply (inj_countable' point_to_pair pair_to_point).
  intros [x y]; reflexivity.
Defined.

(** Modelled from the spec: the point operators of the missing point header
    ("supports addition, scaling, dot/cross product, Euclidean length");
    [operator+] on points. *)
Definition padd (a b : Point2LL) : Point2LL := mkPoint (X a + X b) (Y a + Y b).

(** Modelled from the spec: [operator-] on points (missing point header). *)
Definition psub (a b : Point2LL) : Point2LL := mkPoint (X a - X b) (Y a - Y b).

(** Modelled from the spec: the dot product [dot] (missing point header). *)
Definition dot (a b : Point2LL) : Z := X a * X b + Y a * Y b.

(** Modelled from the spec: the squared Euclidean length [vSize2] (missing
    point header). *)
Definition vSize2 (a : Point2LL) : Z := X a * X a + Y a * Y a.

(** Modelled from the spec: the Euclidean length [vSize] as an integer
    (missing point header).  The spec does not fix the rounding; the integer
    square root is taken here, and the routines below take the length
    function as an argument so that results do not depend on this choice. *)
Definition vSize_floor (a : Point2LL) : Z := Z.sqrt (vSize2 a).

(** [size_t] is 64 bits wide. *)
Definition SIZE_MAX : Z := 2 ^ 64 - 1.
Definition size_t_wrap (z : Z) : Z := z mod 2 ^ 64.

(** Modelled from the spec: the sentinel index [NO_INDEX] ("no containing
    polygon"), declared in a missing header; the largest [size_t] value,
    which no position of a container can take. *)
Definition NO_INDEX : Z := SIZE_MAX.

Definition INT64_MAX : Z := 2 ^ 63 - 1.

(** [v.back()]: undefined on an empty vector. *)
Definition back {A} (v : list A) : option A := last v.

(** [v.size()] as a [size_t]. *)
Definition size_of {A} (v : list A) : Z := Z.of_nat (length v).

(** ** Calls into the clipping library *)

Inductive ClipType := ctIntersection | ctUnion | ctDifference | ctXor.
Inductive PolyFillType := pftEvenOdd | pftNonZero | pftPositive | pftNegative.
Inductive JoinType := jtSquare | jtRound | jtMiter.
Inductive EndType :=
  etClosedPolygon | etClosedLine | etOpenButt | etOpenSquare | etOpenRound.
Inductive ShapeType := Open | Closed | Filled.

(** The requests sent to ClipperLib, indexed by the type of the answer:
    [ClipperLib::PointInPolygon(p, path)];
    a [Clipper] loaded with subject and clip paths and executed;
    a [ClipperOffset(miter_limit, arc_tolerance)] loaded with paths and
    executed with a distance. *)
Inductive ClipperCall : Type -> Type :=
| PointInPolygon (p : Point2LL) (path : Polygon) : ClipperCall Z
| ClipperExecute (ct : ClipType) (subject clip : Polygons)
    (subj_fill clip_fill : PolyFillType) : ClipperCall Polygons
| ClipperOffsetExecute (paths : Polygons) (jt : JoinType) (et : EndType)
    (miter_limit arc_tolerance : Q) (delta : Z) : ClipperCall Polygons.

(** A computation that may call the clipping library before it returns. *)
Inductive clip (A : Type) : Type :=
| Ret (a : A)
| Call {B : Type} (c : ClipperCall B) (k : B -> clip A).
Arguments Ret {A} a.
Arguments Call {A B} c k.

(** An implementation of the library answers every request. *)
Definition clipper := forall B, ClipperCall B -> B.

Fixpoint run {A} (h : clipper) (m : clip A) : A :=
  match m with
  | Ret a => a
  | Call c k => run h (k (h _ c))
  end.

Inductive request : Type :=
| Request : forall B : Type, ClipperCall B -> request.
Arguments Request {B} c.

(** The requests made, in order, when the library behaves as [h]. *)
Fixpoint calls {A} (h : clipper) (m : clip A) : list request :=
  match m with
  | Ret _ => []
  | Call c k => Request c :: calls h (k (h _ c))
  end.

Fixpoint bind {A B} (m : clip A) (f : A -> clip B) : clip B :=
  match m with
  | Ret a => f a
  | Call c k => Call c (fun x => bind (k x) f)
  end.

(** ** Results of loops run with fuel and of routines that may read outside
       a container *)

Inductive outcome (A : Type) : Type :=
| Finished (a : A)
| UndefinedBehaviour
| OutOfFuel.
Arguments Finished {A} a.
Arguments UndefinedBehaviour {A}.
Arguments OutOfFuel {A}.

(** ** Move assignment: [Polygons::operator=(Polygons&&)] *)

(** Objects are told apart by their addresses; the heap gives the contours
    held by the [Polygons] object at an address. *)
Abbreviation address := positive.
Abbreviation heap := (gmap positive (list (list Point2LL))).

(** The body compares the two addresses and, when they differ, evaluates
    [*this = std::move(polygons)].  Both operands have type [Polygons],
    the right one is an rvalue: the assignment selected is this same
    operator, entered again with the same receiver and the same source. *)
Fixpoint move_assign (fuel : nat) (this polygons : address) (h : heap)
    : outcome heap :=
  match fuel with
  | O => OutOfFuel
  | S fuel' =>
      if bool_decide (this ≠ polygons)
      then move_assign fuel' this polygons h
      else Finished h
  end.

(** The same operator as a relation between the heap at the call and the
    heap at the return. *)
Inductive move_assign_returns (this polygons : address) : heap -> heap -> Prop :=
| move_assign_self (h : heap) :
    this = polygons -> move_assign_returns this polygons h h
| move_assign_again (h h' : heap) :
    this ≠ polygons ->
    move_assign_returns this polygons h h' ->
    move_assign_returns this polygons h h'.

(** [object = f(...)] where [f] returns a [Polygons] by value, and
    [object = { ... }]: the right operand is a temporary, an rvalue, so the
    assignment entered is [operator=(Polygons&&)].  The receiver, holding
    [target], and the temporary are two objects; the answer is what the
    receiver holds when the operator returns. *)
Definition receiver_address : address := 1%positive.
Definition temporary_address : address := 2%positive.

Definition assign_temporary (fuel : nat) (target temporary : Polygons)
    : outcome Polygons :=
  match move_assign fuel receiver_address temporary_address
          (<[temporary_address := temporary]>
             (<[receiver_address := target]> ∅)) with
  | Finished h' =>
      match h' !! receiver_address with
      | Some contents => Finished contents
      | None => UndefinedBehaviour
      end
  | UndefinedBehaviour => UndefinedBehaviour
  | OutOfFuel => OutOfFuel
  end.

(** ** Containment: [Polygons::inside] *)

(** The loop of [Polygons::inside] from the polygons not yet visited and the
    running [poly_count_inside].  C++ [%] truncates towards zero ([Z.rem]). *)
Fixpoint inside_loop (p : Point2LL) (border_result : bool)
    (polys : Polygons) (poly_count_inside : Z) : clip bool :=
  match polys with
  | [] => Ret (Z.rem poly_count_inside 2 =? 1)
  | poly :: rest =>
      Call (PointInPolygon p poly) (fun is_inside_this_poly =>
        if is_inside_this_poly =? -1
        then Ret border_result
        else inside_loop p border_result rest
               (poly_count_inside + is_inside_this_poly))
  end.

Definition inside (polys : Polygons) (p : Point2LL) (border_result : bool)
    : clip bool :=
  inside_loop p border_result polys 0.

(** ** Containment: [Polygons::findInside] *)

(** Modelled from the spec: [LinearAlg2D::pointLiesOnTheRightOfLine], declared
    in a missing header ("classify the query point as right-of / on / left-of
    each directed edge using a sign-of-area test"): 1 when the edge [p0 p1]
    crosses the scanline of [p] to the right of [p], 0 when [p] lies on the
    edge, -1 otherwise.  The routines below take the classifier as an
    argument; this instance serves to evaluate them. *)
Definition pointLiesOnTheRightOfLine (p p0 p1 : Point2LL) : Z :=
  if Z.max (X p0) (X p1) >=? X p then
    let pd_y := Y p1 - Y p0 in
    if pd_y <? 0 then
      if (Y p >=? Y p1) && (Y p <? Y p0) then
        let dx := (X p1 - X p0) * (Y p1 - Y p) - (X p1 - X p) * pd_y in
        if dx =? 0 then 0 else if dx >? 0 then 1 else -1
      else -1
    else if Y p >=? Y p0 then
      if Y p <? Y p1 then
        let dx := (X p1 - X p0) * (Y p - Y p0) - (X p - X p0) * pd_y in
        if dx =? 0 then 0 else if dx >? 0 then 1 else -1
      else if Y p =? Y p1 then
        if (X p =? X p1) || ((pd_y =? 0) && (Z.min (X p0) (X p1) <=? X p))
        then 0 else -1
      else -1
    else -1
  else -1.

Abbreviation classifier := (Point2LL -> Point2LL -> Point2LL -> Z).

(** The x-coordinate recorded for a right-of crossing of the edge [p0 p1].
    C++ [/] truncates towards zero ([Z.quot]). *)
Definition crossing_x (p p0 p1 : Point2LL) : Z :=
  if Y p1 =? Y p0 then X p0
  else X p0 + (X p1 - X p0) * (Y p - Y p0) ÷ (Y p1 - Y p0).

(** The inner loop over the vertices [p1] of one polygon, from the previous
    vertex [p0] and the entries [crossings[poly_idx]], [min_x[poly_idx]].
    [None] is the early [return poly_idx]. *)
Fixpoint scan_edges (comp : classifier) (p : Point2LL) (border_result : bool)
    (p0 : Point2LL) (pts : Polygon) (crossings min_x : Z) : option (Z * Z) :=
  match pts with
  | [] => Some (crossings, min_x)
  | p1 :: rest =>
      let c := comp p p0 p1 in
      if c =? 1 then
        let x := crossing_x p p0 p1 in
        scan_edges comp p border_result p1 rest (crossings + 1)
          (if x <? min_x then x else min_x)
      else if border_result && (c =? 0) then None
      else scan_edges comp p border_result p1 rest crossings min_x
  end.

(** What the first loop of [findInside] ends with. *)
Inductive fill_result :=
| Counted (stats : list (Z * Z))  (* [crossings] and [min_x], per polygon *)
| OnBorder (poly_idx : Z)          (* [return poly_idx] *)
| Undefined.                       (* [back()] of an empty polygon *)

Fixpoint fill_stats (comp : classifier) (p : Point2LL) (border_result : bool)
    (polys : Polygons) (poly_idx : Z) : fill_result :=
  match polys with
  | [] => Counted []
  | poly :: rest =>
      match back poly with
      | None => Undefined
      | Some p0 =>
          match scan_edges comp p border_result p0 poly 0 INT64_MAX with
          | None => OnBorder poly_idx
          | Some st =>
              match fill_stats comp p border_result rest (poly_idx + 1) with
              | Counted l => Counted (st :: l)
              | r => r
              end
          end
      end
  end.

(** The second loop of [findInside]: returns [ret] and [n_unevens]. *)
Fixpoint select_uneven (stats : list (Z * Z)) (array_idx : Z)
    (min_x_uneven ret n_unevens : Z) : Z * Z :=
  match stats with
  | [] => (ret, n_unevens)
  | (crossings, min_x) :: rest =>
      if Z.rem crossings 2 =? 1 then
        if min_x <? min_x_uneven
        then select_uneven rest (array_idx + 1) min_x array_idx (n_unevens + 1)
        else select_uneven rest (array_idx + 1) min_x_uneven ret (n_unevens + 1)
      else select_uneven rest (array_idx + 1) min_x_uneven ret n_unevens
  end.

(** [Polygons::findInside]; [return false] in a function returning [size_t]
    yields 0. *)
Definition findInside (comp : classifier) (polys : Polygons) (p : Point2LL)
    (border_result : bool) : option Z :=
  if size_of polys <? 1 then Some 0
  else
    match fill_stats comp p border_result polys 0 with
    | Undefined => None
    | OnBorder poly_idx => Some poly_idx
    | Counted stats =>
        let '(ret, n_unevens) := select_uneven stats 0 INT64_MAX NO_INDEX 0 in
        Some (if Z.rem n_unevens 2 =? 0 then NO_INDEX else ret)
    end.

(** ** Small-feature filtering: [Polygons::removeSmallAreaCircumference] *)

(** The loop body on one polygon, with [poly.area()] and [poly.length()]
    (per-polygon primitives defined outside these files) as arguments.
    The state is [new_polygon] and [outline_is_removed]. *)
Definition small_area_step (area : Polygon -> Q) (length : Polygon -> Z)
    (min_area_size : Q) (min_circumference_size : Z) (remove_holes : bool)
    (st : Polygons * bool) (poly : Polygon) : Polygons * bool :=
  let '(new_polygon, outline_is_removed) := st in
  let a := area poly in
  let circumference := length poly in
  let is_outline := Qle_bool 0 a in
  let big_enough :=
    (circumference >=? min_circumference_size)
    && Qle_bool min_area_size (Qabs a) in
  if is_outline then
    if big_enough then (new_polygon ++ [poly], false)
    else (new_polygon, true)
  else if outline_is_removed then (new_polygon, outline_is_removed)
  else if negb remove_holes || big_enough
       then (new_polygon ++ [poly], outline_is_removed)
       else (new_polygon, outline_is_removed).

Definition removeSmallAreaCircumference (area : Polygon -> Q)
    (length : Polygon -> Z) (polys : Polygons) (min_area_size : Q)
    (min_circumference_size : Z) (remove_holes : bool) : Polygons :=
  (foldl (small_area_step area length min_area_size min_circumference_size
            remove_holes) ([], false) polys).1.

(** ** Manifold repair: [Polygons::ensureManifold] *)

(** The body of the inner loop: [duplicate_locations] (a vector) and
    [poly_locations] (an unordered set) after visiting the vertex [p]. *)
Definition record_location (st : list Point2LL * gset Point2LL)
    (p : Point2LL) : list Point2LL * gset Point2LL :=
  let '(duplicate_locations, poly_locations) := st in
  ((if decide (p ∈ poly_locations)
    then duplicate_locations ++ [p] else duplicate_locations),
   {[p]} ∪ poly_locations).

(** The two nested loops; one set of locations serves all polygons. *)
Definition find_duplicate_locations (polys : Polygons)
    : list Point2LL * gset Point2LL :=
  foldl (fun st poly => foldl record_location st poly) ([], ∅) polys.

Definition duplicate_locations (polys : Polygons) : list Point2LL :=
  (find_duplicate_locations polys).1.

(** The contour pushed into [removal_dots] for the location [p]. *)
Definition removal_dot (p : Point2LL) : Polygon :=
  [ padd p (mkPoint 0 5); padd p (mkPoint 5 0);
    padd p (mkPoint 0 (-5)); padd p (mkPoint (-5) 0) ].

(** [Polygons::difference]; [Clipper::Execute] is called without fill types
    and uses its default, even-odd. *)
Definition difference (this other : Polygons) : clip Polygons :=
  Call (ClipperExecute ctDifference this other pftEvenOdd pftEvenOdd) Ret.

(** [Polygons::ensureManifold]: the set after the call.  The difference
    comes back as a temporary and is stored with
    [*this = difference(removal_dots)]. *)
Definition ensureManifold (fuel : nat) (polys : Polygons)
    : clip (outcome Polygons) :=
  let removal_dots := map removal_dot (duplicate_locations polys) in
  if negb (bool_decide (removal_dots = []))
  then bind (difference polys removal_dots)
         (fun result => Ret (assign_temporary fuel polys result))
  else Ret (Finished polys).

(** ** Cyclic matching: [Polygons::remove(to_be_removed, same_distance)] *)

(** The search for the vertex of [poly_rem] closest to [poly_keep[0]], from
    position [point_rem_idx] on; returns [closest_point_idx] and
    [smallestDist2] (which starts at -1). *)
Fixpoint closest_point (keep0 : Point2LL) (poly_rem : Polygon)
    (point_rem_idx closest_point_idx : nat) (smallestDist2 : Z) : nat * Z :=
  match poly_rem with
  | [] => (closest_point_idx, smallestDist2)
  | q :: rest =>
      let dist2 := vSize2 (psub q keep0) in
      if (dist2 <? smallestDist2) || (smallestDist2 <? 0)
      then closest_point keep0 rest (S point_rem_idx) point_rem_idx dist2
      else closest_point keep0 rest (S point_rem_idx) closest_point_idx
             smallestDist2
  end.

(** [same_distance] has type [int], 32 bits wide and signed. *)
Definition INT_MIN : Z := - 2 ^ 31.
Definition INT_MAX : Z := 2 ^ 31 - 1.

(** The product of two [int] values, computed in [int] before it is
    compared with a 64-bit squared distance; [None] is signed overflow,
    which is undefined behaviour. *)
Definition int_mul (a b : Z) : option Z :=
  if (INT_MIN <=? a * b) && (a * b <=? INT_MAX) then Some (a * b) else None.

(** The comparison of all points at the rotation [closest_point_idx], for
    the positions [point_idxs]; [Some false] is the [break].  The square of
    [same_distance] is computed anew at every position.  Both reads are in
    range when the two polygons have the same size; [None] is a read out of
    range or an overflow of the square. *)
Fixpoint same_points (poly_rem poly_keep : Polygon) (closest_point_idx : nat)
    (same_distance : Z) (point_idxs : list nat) : option bool :=
  match point_idxs with
  | [] => Some true
  | point_idx :: rest =>
      a ← poly_rem !! ((closest_point_idx + point_idx) mod length poly_rem)%nat;
      b ← poly_keep !! point_idx;
      square ← int_mul same_distance same_distance;
      if vSize2 (psub a b) >? square then Some false
      else same_points poly_rem poly_keep closest_point_idx same_distance
             rest
  end.

(** One polygon of [to_be_removed] against [poly_keep]: does it set
    [should_be_removed]?  A polygon of another size, or without points, is
    passed over before any square is computed. *)
Definition poly_rem_is_poly_keep (poly_keep poly_rem : Polygon)
    (keep0 : Point2LL) (same_distance : Z) : option bool :=
  if negb (length poly_rem =? length poly_keep)%nat
     || (length poly_rem =? 0)%nat
  then Some false
  else
    let '(closest_point_idx, smallestDist2) :=
      closest_point keep0 poly_rem 0 0 (-1) in
    square ← int_mul same_distance same_distance;
    if smallestDist2 >? square then Some false
    else same_points poly_rem poly_keep closest_point_idx same_distance
           (seq 0 (length poly_rem)).

(** The loop over [to_be_removed], left at the first match. *)
Fixpoint should_be_removed (poly_keep : Polygon) (keep0 : Point2LL)
    (to_be_removed : Polygons) (same_distance : Z) : option bool :=
  match to_be_removed with
  | [] => Some false
  | poly_rem :: rest =>
      matched ← poly_rem_is_poly_keep poly_keep poly_rem keep0 same_distance;
      if matched : bool then Some true
      else should_be_removed poly_keep keep0 rest same_distance
  end.

(** The value of [should_be_removed] for [poly_keep] at the end of the
    loop body: an empty polygon is not compared at all. *)
Definition is_excluded (poly_keep : Polygon) (to_be_removed : Polygons)
    (same_distance : Z) : option bool :=
  match poly_keep with
  | [] => Some false
  | keep0 :: _ => should_be_removed poly_keep keep0 to_be_removed same_distance
  end.

(** [Polygons::remove(const Polygons&, int)]; the polygons are visited from
    the first to the last. *)
Fixpoint Polygons_remove (polys to_be_removed : Polygons) (same_distance : Z)
    : option Polygons :=
  match polys with
  | [] => Some []
  | poly_keep :: rest =>
      excluded ← is_excluded poly_keep to_be_removed same_distance;
      result ← Polygons_remove rest to_be_removed same_distance;
      Some (if excluded : bool then result else poly_keep :: result)
  end.

(** ** Offsetting: [LinesSet<LineType>::offset] *)

(** [Polygons::unionPolygons(other, fill_type)]: both sets are subjects. *)
Definition unionPolygons (this other : Polygons) (fill_type : PolyFillType)
    : clip Polygons :=
  Call (ClipperExecute ctUnion (this ++ other) [] fill_type fill_type) Ret.

(** [offset] for the line type of shape [shape_type].  The union without
    arguments is declared in the missing header; [union_fill] stands for its
    default fill type.  For a filled shape the union comes back as a
    temporary and is stored with [temp = ...unionPolygons()] before the
    offset is computed from [temp]. *)
Definition offset (fuel : nat) (shape_type : ShapeType)
    (union_fill : PolyFillType) (paths : Polygons) (distance : Z)
    (joinType : JoinType) (miter_limit : Q) : clip (outcome Polygons) :=
  if distance =? 0 then Ret (Finished paths)
  else
    match shape_type with
    | Filled =>
        bind (unionPolygons paths [] union_fill) (fun united =>
          match assign_temporary fuel [] united with
          | Finished temp =>
              Call (ClipperOffsetExecute temp joinType etClosedPolygon
                      miter_limit 10 distance)
                (fun ret => Ret (Finished ret))
          | UndefinedBehaviour => Ret UndefinedBehaviour
          | OutOfFuel => Ret OutOfFuel
          end)
    | Closed =>
        Call (ClipperOffsetExecute paths joinType etClosedLine
                miter_limit 10 distance)
          (fun ret => Ret (Finished ret))
    | Open =>
        let end_type :=
          match joinType with jtMiter => etOpenSquare | _ => etOpenRound end in
        Call (ClipperOffsetExecute paths joinType end_type
                miter_limit 10 distance)
          (fun ret => Ret (Finished ret))
    end.

(** ** [Polygons::remove(size_t index)] *)

(** The last polygon takes the place of the removed one.  [POLY_ASSERT] is
    a macro of a missing header and is taken to be compiled out. *)
Definition Polygons_remove_at (polys : Polygons) (index : nat) : Polygons :=
  if (length polys =? 1)%nat then []
  else if (1 <? length polys)%nat then
    let moved :=
      if (index <? length polys - 1)%nat
      then match back polys with
           | Some b => <[index := b]> polys
           | None => polys
           end
      else polys in
    take (length polys - 1) moved
  else polys.

(** ** Degenerate vertices: [LinesSet::removeDegenerateVertsForEveryone] *)

Abbreviation length_fn := (Point2LL -> Z).

(** The lambda [isDegenerate], with [vSize] as an argument. *)
Definition isDegenerate (vSize : length_fn) (last now next : Point2LL)
    : bool :=
  let last_line := psub now last in
  let next_line := psub next now in
  dot last_line next_line =? -1 * vSize last_line * vSize next_line.

(** The [while] loop popping the back of [result].  Every round pops one
    vertex, so [length result] rounds of fuel are never used up. *)
Fixpoint pop_degenerate (vSize : length_fn) (next : Point2LL) (fuel : nat)
    (result : Polygon) : Polygon :=
  match fuel with
  | O => result
  | S fuel' =>
      if (1 <? length result)%nat then
        match result !! (length result - 2)%nat, back result with
        | Some before_back, Some result_back =>
            if isDegenerate vSize before_back result_back next
            then pop_degenerate vSize next fuel' (removelast result)
            else result
        | _, _ => result
        end
      else result
  end.

(** The main loop over the positions [idxs] of [poly]; the state is [result]
    and [isChanged].  [None] is a read outside [poly] or [result]. *)
Fixpoint verts_loop (vSize : length_fn) (poly : Polygon) (idxs : list nat)
    (result : Polygon) (isChanged : bool) : option (Polygon * bool) :=
  match idxs with
  | [] => Some (result, isChanged)
  | idx :: rest =>
      last ← (if (length result =? 0)%nat then back poly else back result);
      if (length poly <=? idx + 1)%nat && (length result =? 0)%nat
      then Some (result, isChanged)                              (* break *)
      else
        next ← (if (length poly <=? idx + 1)%nat
                then result !! 0%nat else poly !! (idx + 1)%nat);
        now ← poly !! idx;
        if isDegenerate vSize last now next
        then verts_loop vSize poly rest
               (pop_degenerate vSize next (length result) result) true
        else verts_loop vSize poly rest (result ++ [now]) isChanged
  end.

(** The vertices of [poly] at the positions [idxs], copied in order. *)
Definition copy_verts (poly : Polygon) (idxs : list nat) : option Polygon :=
  mapM (fun i => poly !! i) idxs.

(** The work on one polygon: [result] and [isChanged].  For polylines
    [end_vertex] is [poly.size() - 1] computed in [size_t]. *)
Definition removeDegenerateVerts (vSize : length_fn) (for_polyline : bool)
    (poly : Polygon) : option (Polygon * bool) :=
  let start_vertex := if for_polyline then 1%nat else 0%nat in
  let end_vertex :=
    Z.to_nat (if for_polyline then size_t_wrap (size_of poly - 1)
              else size_of poly) in
  before ← copy_verts poly (seq 0 start_vertex);
  '(result, isChanged) ←
     verts_loop vSize poly (seq start_vertex (end_vertex - start_vertex))
       before false;
  after ← copy_verts poly (seq end_vertex (length poly - end_vertex));
  Some (result ++ after, isChanged).

(** The loop over [poly_idx].  After a removal [poly_idx--] and the
    [poly_idx++] of the loop header are both computed in [size_t].  The call
    [remove(poly_idx)] is the removal by index given above. *)
Fixpoint everyone_loop (vSize : length_fn) (for_polyline : bool) (fuel : nat)
    (poly_idx : Z) (polys : Polygons) : outcome Polygons :=
  match fuel with
  | O => OutOfFuel
  | S fuel' =>
      if poly_idx <? size_of polys then
        match polys !! Z.to_nat poly_idx with
        | None => UndefinedBehaviour
        | Some poly =>
            match removeDegenerateVerts vSize for_polyline poly with
            | None => UndefinedBehaviour
            | Some (result, isChanged) =>
                if isChanged then
                  if for_polyline || (2 <? length result)%nat
                  then everyone_loop vSize for_polyline fuel'
                         (size_t_wrap (poly_idx + 1))
                         (<[Z.to_nat poly_idx := result]> polys)
                  else everyone_loop vSize for_polyline fuel'
                         (size_t_wrap (size_t_wrap (poly_idx - 1) + 1))
                         (Polygons_remove_at polys (Z.to_nat poly_idx))
                else everyone_loop vSize for_polyline fuel'
                       (size_t_wrap (poly_idx + 1)) polys
            end
        end
      else Finished polys
  end.

(** Every round either advances [poly_idx] or shrinks the set, so
    [length polys] rounds and the final test fit in the fuel given. *)
Definition removeDegenerateVertsForEveryone (vSize : length_fn)
    (shape_type : ShapeType) (polys : Polygons) : outcome Polygons :=
  let for_polyline :=
    match shape_type with Open => true | _ => false end in
  everyone_loop vSize for_polyline (S (length polys)) 0 polys.

(** Twice in a row. *)
Definition removeDegenerateVertsForEveryone_twice (vSize : length_fn)
    (shape_type : ShapeType) (polys : Polygons) : outcome Polygons :=
  match removeDegenerateVertsForEveryone vSize shape_type polys with
  | Finished polys' => removeDegenerateVertsForEveryone vSize shape_type polys'
  | o => o
  end.

(** ** Corner smoothing: [cura::actions::smooth_fn] *)

(** The floating-point operations the action uses, on [double]. *)
Record float_ops : Type := {
  double : Type;
  of_int : Z -> double;                 (* conversion from an integer *)
  to_int : double -> Z;                 (* conversion to an integer *)
  fadd : double -> double -> double;
  fsub : double -> double -> double;
  fmul : double -> double -> double;
  fdiv : double -> double -> double;
  flt : double -> double -> bool;       (* [<] *)
  feq : double -> double -> bool;       (* [==] *)
  hypot : double -> double -> double;   (* [std::hypot] *)
  acos : double -> double;              (* [std::acos] *)
  pi : double                           (* [std::numbers::pi] *)
}.

(** [dotProduct(p0, p1)]: of the two points as they are given. *)
Definition dotProduct (p0 p1 : Point2LL) : Z := X p0 * X p1 + Y p0 * Y p1.

(** [angleBetweenVectors]; its return type is that of [dotProduct], an
    integer, so the angle in degrees is converted on return. *)
Definition angleBetweenVectors (fl : float_ops) (vec0 vec1 : Point2LL) : Z :=
  let d := dotProduct vec0 vec1 in
  let vec0_mag := hypot fl (of_int fl (X vec0)) (of_int fl (Y vec0)) in
  let vec1_mag := hypot fl (of_int fl (X vec1)) (of_int fl (Y vec1)) in
  if feq fl vec0_mag (of_int fl 0) || feq fl vec1_mag (of_int fl 0) then 90
  else
    let cos_angle := fdiv fl (of_int fl d) (fmul fl vec0_mag vec1_mag) in
    let angle_rad := acos fl cos_angle in
    to_int fl (fdiv fl (fmul fl angle_rad (of_int fl 180)) (pi fl)).

Definition withinDeviation (fl : float_ops) (p0 p1 p2 p3 : Point2LL)
    (fluid_angle : double fl) : bool :=
  let ab := mkPoint (X p1 - X p0) (Y p1 - Y p0) in
  let bc := mkPoint (X p2 - X p1) (Y p2 - Y p1) in
  let cd := mkPoint (X p3 - X p2) (Y p3 - Y p2) in
  flt fl
    (of_int fl (Z.abs (angleBetweenVectors fl ab bc
                       - angleBetweenVectors fl ab cd)))
    fluid_angle.

(** [distance_squared] as the loop body computes it. *)
Definition distance_squared (p1 p2 : Point2LL) : Z := Z.abs (dotProduct p1 p2).

(** The condition of the [if] in the loop body: is the window acted upon? *)
Definition window_selected (fl : float_ops) (max_resolution : Z)
    (fluid_angle : double fl) (p0 p1 p2 p3 : Point2LL) : bool :=
  (distance_squared p1 p2 <? max_resolution * max_resolution)
  && negb (withinDeviation fl p0 p1 p2 p3 fluid_angle).

(** The points of the range and the set [to_remove]; the address of a point
    is its position in the range. *)
Record smooth_state : Type := {
  pts : Polygon;
  to_remove : gset nat
}.

(** The end point [q] moved along the outer segment from [from] to [to],
    of length [segment_distance]: [q -= shift] or [q += shift]. *)
Definition shifted (fl : float_ops) (smooth_distance : Z) (subtract : bool)
    (q from to : Point2LL) (segment_distance : double fl) : Point2LL :=
  let shift_distance := fmul fl segment_distance (of_int fl smooth_distance) in
  let shift_distance_x := fdiv fl (of_int fl (X to - X from)) shift_distance in
  let shift_distance_y := fdiv fl (of_int fl (Y to - Y from)) shift_distance in
  if subtract
  then mkPoint (to_int fl (fsub fl (of_int fl (X q)) shift_distance_x))
               (to_int fl (fsub fl (of_int fl (Y q)) shift_distance_y))
  else mkPoint (to_int fl (fadd fl (of_int fl (X q)) shift_distance_x))
               (to_int fl (fadd fl (of_int fl (Y q)) shift_distance_y)).

(** What the body does to one end point of the middle segment.  In
    [size - to_remove.size()] the signed [size] meets an unsigned operand,
    so the difference is computed in [size_t]. *)
Inductive endpoint_action :=
| Shift (q' : Point2LL)     (* the point is rewritten in place *)
| MarkForRemoval            (* its address is put into [to_remove] *)
| Leave.

Definition endpoint_decision (fl : float_ops) (smooth_distance size : Z)
    (subtract : bool) (q from to : Point2LL) (marked : gset nat)
    : endpoint_action :=
  let segment_distance :=
    hypot fl (of_int fl (X to - X from)) (of_int fl (Y to - Y from)) in
  let shift_smooth_distance := smooth_distance * 2 in
  if flt fl (of_int fl shift_smooth_distance) segment_distance
  then Shift (shifted fl smooth_distance subtract q from to segment_distance)
  else if size_t_wrap (size - Z.of_nat (base.size marked)) >? 2
       then MarkForRemoval
       else Leave.

Definition apply_action (i : nat) (a : endpoint_action) (st : smooth_state)
    : smooth_state :=
  match a with
  | Shift q' => {| pts := <[i := q']> (pts st); to_remove := to_remove st |}
  | MarkForRemoval =>
      {| pts := pts st; to_remove := {[i]} ∪ to_remove st |}
  | Leave => st
  end.

(** The loop body for the window starting at position [i] ([p0]); [p1],
    [p2] and [p3] are the next three points in memory.  [None] is a read
    past the end of the range. *)
Definition smooth_window (fl : float_ops) (max_resolution smooth_distance : Z)
    (fluid_angle : double fl) (size : Z) (i : nat) (st : smooth_state)
    : option smooth_state :=
  p1 ← pts st !! (i + 1)%nat;
  p2 ← pts st !! (i + 2)%nat;
  if distance_squared p1 p2 <? max_resolution * max_resolution then
    p0 ← pts st !! i;
    p3 ← pts st !! (i + 3)%nat;
    if negb (withinDeviation fl p0 p1 p2 p3 fluid_angle) then
      let st1 :=
        apply_action (i + 1)
          (endpoint_decision fl smooth_distance size true p1 p0 p1
             (to_remove st)) st in
      Some (apply_action (i + 2)
              (endpoint_decision fl smooth_distance size false p2 p2 p3
                 (to_remove st1)) st1)
    else Some st
  else Some st.

(** The loop over [windows]: the positions of the range followed by the
    first two again, without those marked so far (the filter of the view is
    evaluated when the loop reaches a position).  The loop is left when
    [p0 + 2] is the address of the front. *)
Fixpoint smooth_windows (fl : float_ops) (max_resolution smooth_distance : Z)
    (fluid_angle : double fl) (size : Z) (windows : list nat)
    (st : smooth_state) : option smooth_state :=
  match windows with
  | [] => Some st
  | i :: rest =>
      if decide (i ∈ to_remove st)
      then smooth_windows fl max_resolution smooth_distance fluid_angle size
             rest st
      else if (i + 2 =? 0)%nat then Some st
      else
        st' ← smooth_window fl max_resolution smooth_distance fluid_angle
                size i st;
        smooth_windows fl max_resolution smooth_distance fluid_angle size
          rest st'
  end.

(** [remove_if] at the end: the points whose address is in [to_remove]
    go, from position [i] on. *)
Fixpoint remove_marked (marked : gset nat) (i : nat) (points : Polygon)
    : Polygon :=
  match points with
  | [] => []
  | q :: rest =>
      if decide (i ∈ marked) then remove_marked marked (S i) rest
      else q :: remove_marked marked (S i) rest
  end.

Definition smooth (fl : float_ops) (rng : Polygon)
    (max_resolution smooth_distance : Z) (fluid_angle : double fl)
    : option Polygon :=
  if smooth_distance =? 0 then Some rng
  else
    let size := size_of rng - 1 in
    if size <? 3 then Some rng
    else
      let positions := seq 0 (length rng) in
      st ← smooth_windows fl max_resolution smooth_distance fluid_angle size
             (positions ++ take 2 positions)
             {| pts := rng; to_remove := ∅ |};
      Some (remove_marked (to_remove st) 0 (pts st)).

(** ** Notions used to state the properties *)

(** The directed edges [(p0, p1)] visited by the edge loops: from the
    previous vertex [p0] through the vertices [pts]. *)
Fixpoint edges_from (p0 : Point2LL) (pts : Polygon)
    : list (Point2LL * Point2LL) :=
  match pts with
  | [] => []
  | p1 :: rest => (p0, p1) :: edges_from p1 rest
  end.

(** The edges of a closed polygon, the closing edge first. *)
Definition polygon_edges (poly : Polygon) : list (Point2LL * Point2LL) :=
  match back poly with
  | Some p0 => edges_from p0 poly
  | None => []
  end.

(** The edges classified as crossed to the right of [p]. *)
Definition right_crossings (comp : classifier) (p : Point2LL) (poly : Polygon)
    : list (Point2LL * Point2LL) :=
  filter (fun e => comp p e.1 e.2 = 1) (polygon_edges poly).

(** The crossing count of a polygon. *)
Definition crossing_count (comp : classifier) (p : Point2LL) (poly : Polygon)
    : Z :=
  Z.of_nat (length (right_crossings comp p poly)).

(** The recorded minimum x: the least [crossing_x] over the right-of
    crossings, and [INT64_MAX] when there is none. *)
Definition recorded_min_x (comp : classifier) (p : Point2LL) (poly : Polygon)
    : Z :=
  foldr Z.min INT64_MAX
    (map (fun e => crossing_x p e.1 e.2) (right_crossings comp p poly)).

(** [p] lies exactly on an edge of the polygon. *)
Definition on_border (comp : classifier) (p : Point2LL) (poly : Polygon)
    : Prop :=
  exists e, e ∈ polygon_edges poly /\ comp p e.1 e.2 = 0.

(** The polygon has an odd crossing count. *)
Definition odd_crossings (comp : classifier) (p : Point2LL) (poly : Polygon)
    : Prop :=
  Z.odd (crossing_count comp p poly) = true.

#[global] Instance odd_crossings_dec comp p poly :
  Decision (odd_crossings comp p poly).
Proof. unfold odd_crossings. apply _. Defined.

(** The number of polygons of the set with an odd crossing count. *)
Definition count_odd (comp : classifier) (p : Point2LL) (polys : Polygons)
    : nat :=
  length (filter (odd_crossings comp p) polys).

(** Position [i] holds the innermost enclosing contour: an odd crossing
    count, the smallest recorded minimum x among the polygons with an odd
    count, and the first position with that minimum. *)
Definition innermost (comp : classifier) (p : Point2LL) (polys : Polygons)
    (i : nat) : Prop :=
  exists poly,
    polys !! i = Some poly /\ odd_crossings comp p poly /\
    forall j poly', polys !! j = Some poly' -> odd_crossings comp p poly' ->
      recorded_min_x comp p poly <= recorded_min_x comp p poly' /\
      ((j < i)%nat -> recorded_min_x comp p poly < recorded_min_x comp p poly').

(** The answer of the library to [PointInPolygon]. *)
Definition point_in_polygon (h : clipper) (p : Point2LL) (poly : Polygon) : Z :=
  h Z (PointInPolygon p poly).

(** The sum of the per-polygon answers. *)
Definition inside_sum (h : clipper) (p : Point2LL) (polys : Polygons) : Z :=
  foldr Z.add 0 (map (point_in_polygon h p) polys).

(** A stand-in for the clipping library, used to evaluate the routines on
    examples: a point is reported on the border of a path when it is one of
    its vertices and outside otherwise; boolean operations and offsets hand
    back their subject paths. *)
Definition stub_clipper : clipper :=
  fun B c =>
    match c in ClipperCall T return T with
    | PointInPolygon p path => if bool_decide (p ∈ path) then -1 else 0
    | ClipperExecute _ subject _ _ _ => subject
    | ClipperOffsetExecute paths _ _ _ _ _ => paths
    end.

(** An outline has a non-negative area, a hole a negative one. *)
Definition is_outline (area : Polygon -> Q) (poly : Polygon) : Prop :=
  (0 <= area poly)%Q.

Definition is_hole (area : Polygon -> Q) (poly : Polygon) : Prop :=
  (area poly < 0)%Q.

(** The polygon meets both the circumference and the area threshold. *)
Definition meets_thresholds (area : Polygon -> Q) (length : Polygon -> Z)
    (min_area_size : Q) (min_circumference_size : Z) (poly : Polygon) : Prop :=
  min_circumference_size <= length poly
  /\ (min_area_size <= Qabs (area poly))%Q.

(** Modelled from the spec: [Polygon::area()], one of the per-polygon
    primitives defined outside these files ("signed area encodes
    orientation: positive area = outer contour, counter-clockwise; negative
    area = hole"); the shoelace sum over the closed contour, halved.  The
    routines take the area as an argument; this instance serves to evaluate
    them. *)
Definition polygon_area (poly : Polygon) : Q :=
  inject_Z
    (foldr Z.add 0
       (map (fun e => X e.1 * Y e.2 - X e.2 * Y e.1) (polygon_edges poly)))
  / 2.

(** Modelled from the spec: [Polygon::length()], the circumference of the
    closed contour, from the same primitives; the sum of the edge lengths. *)
Definition polygon_length (poly : Polygon) : Z :=
  foldr Z.add 0 (map (fun e => vSize_floor (psub e.2 e.1)) (polygon_edges poly)).

(** The location [p] is a vertex of two distinct contours of the set. *)
Definition shared_by_two_contours (polys : Polygons) (p : Point2LL) : Prop :=
  exists i j poly_i poly_j,
    i <> j /\ polys !! i = Some poly_i /\ polys !! j = Some poly_j
    /\ p ∈ poly_i /\ p ∈ poly_j.

(** The number of times [p] occurs among all the vertices of the set. *)
Definition occurrences (polys : Polygons) (p : Point2LL) : nat :=
  count_occ Point2LL_eq_dec (concat polys) p.

(** A contour that passes twice through the location (0, 0). *)
Definition pinched_contour : Polygons :=
  [[mkPoint 0 0; mkPoint 10 0; mkPoint 0 0; mkPoint 0 10]].

(** Position [c] holds the vertex of [poly_rem] closest to [keep0], the
    first one among equally close vertices. *)
Definition closest_vertex (poly_rem : Polygon) (keep0 : Point2LL) (c : nat)
    : Prop :=
  exists a,
    poly_rem !! c = Some a /\
    forall j b, poly_rem !! j = Some b ->
      vSize2 (psub a keep0) <= vSize2 (psub b keep0)
      /\ ((j < c)%nat -> vSize2 (psub a keep0) < vSize2 (psub b keep0)).

(** [poly_rem] has as many vertices as [poly_keep] and, rotated so that its
    vertex closest to the first vertex of [poly_keep] comes first, lies
    within [tolerance] of [poly_keep] vertex by vertex (squared distances
    against the squared tolerance); the closest vertex itself is within
    [tolerance]. *)
Definition aligned_within (tolerance : Z) (poly_keep poly_rem : Polygon)
    : Prop :=
  exists keep0 c,
    poly_keep !! 0%nat = Some keep0
    /\ length poly_rem = length poly_keep
    /\ closest_vertex poly_rem keep0 c
    /\ (forall a, poly_rem !! c = Some a ->
          vSize2 (psub a keep0) <= tolerance * tolerance)
    /\ forall i a b,
         poly_rem !! ((c + i) mod length poly_rem)%nat = Some a ->
         poly_keep !! i = Some b ->
         vSize2 (psub a b) <= tolerance * tolerance.

(** What the loops have recorded once the vertices [visited] are behind
    them: every vertex seen, and one duplicate for each occurrence of a
    location after its first. *)
Definition locations_recorded (st : list Point2LL * gset Point2LL)
    (visited : list Point2LL) : Prop :=
  (forall p, p ∈ st.2 <-> p ∈ visited)
  /\ forall p, count_occ Point2LL_eq_dec st.1 p
               = pred (count_occ Point2LL_eq_dec visited p).

(** What the closest-point search holds after the vertices [pre]: nothing
    yet, or the position and squared distance of the closest of them. *)
Definition best_so_far (keep0 : Point2LL) (pre : Polygon) (c : nat) (s : Z)
    : Prop :=
  (pre = [] /\ s = -1)
  \/ (closest_vertex pre keep0 c
      /\ exists a, pre !! c = Some a /\ s = vSize2 (psub a keep0)).

(** A closed contour with a spike at its last vertex: the contour runs from
    (-5, 0) out to (10, 0) and straight back through (0, 0) to (-3, 0). *)
Definition spike_contour : Polygons :=
  [[ mkPoint 0 0; mkPoint (-3) 0; mkPoint (-3) 7; mkPoint (-5) 7;
     mkPoint (-5) 0; mkPoint 10 0 ]].

(** The length function gives the exact length of axis-parallel vectors. *)
Definition exact_on_axes (vSize : length_fn) : Prop :=
  (forall k, vSize (mkPoint k 0) = Z.abs k)
  /\ (forall k, vSize (mkPoint 0 k) = Z.abs k).

(** A length function that computes on axis-parallel vectors and defers to
    [vSize] on the others. *)
Definition axes_first (vSize : length_fn) : length_fn :=
  fun v =>
    if Y v =? 0 then Z.abs (X v)
    else if X v =? 0 then Z.abs (Y v)
    else vSize v.

(** A stand-in for the floating-point arithmetic, used to evaluate the
    smoothing action on examples: exact rationals for the four operations
    and the comparisons, conversion to an integer by truncation, [hypot]
    rounded down to six decimal places, and an inverse cosine rounded down
    to a whole number of degrees. *)
Definition Q_to_int (q : Q) : Z := Z.quot (Qnum q) (Z.pos (Qden q)).

(** The cosines of 0, 1, ..., 180 degrees, in units of [10^-9]. *)
Definition cosine_table : list Z :=
  [
    1000000000; 999847695; 999390827; 998629535; 997564050; 996194698;
    994521895; 992546152; 990268069; 987688341; 984807753; 981627183;
    978147601; 974370065; 970295726; 965925826; 961261696; 956304756;
    951056516; 945518576; 939692621; 933580426; 927183855; 920504853;
    913545458; 906307787; 898794046; 891006524; 882947593; 874619707;
    866025404; 857167301; 848048096; 838670568; 829037573; 819152044;
    809016994; 798635510; 788010754; 777145961; 766044443; 754709580;
    743144825; 731353702; 719339800; 707106781; 694658370; 681998360;
    669130606; 656059029; 642787610; 629320391; 615661475; 601815023;
    587785252; 573576436; 559192903; 544639035; 529919264; 515038075;
    500000000; 484809620; 469471563; 453990500; 438371147; 422618262;
    406736643; 390731128; 374606593; 358367950; 342020143; 325568154;
    309016994; 292371705; 275637356; 258819045; 241921896; 224951054;
    207911691; 190808995; 173648178; 156434465; 139173101; 121869343;
    104528463; 87155743; 69756474; 52335956; 34899497; 17452406;
    0; (-17452406); (-34899497); (-52335956); (-69756474); (-87155743);
    (-104528463); (-121869343); (-139173101); (-156434465); (-173648178); (-190808995);
    (-207911691); (-224951054); (-241921896); (-258819045); (-275637356); (-292371705);
    (-309016994); (-325568154); (-342020143); (-358367950); (-374606593); (-390731128);
    (-406736643); (-422618262); (-438371147); (-453990500); (-469471563); (-484809620);
    (-500000000); (-515038075); (-529919264); (-544639035); (-559192903); (-573576436);
    (-587785252); (-601815023); (-615661475); (-629320391); (-642787610); (-656059029);
    (-669130606); (-681998360); (-694658370); (-707106781); (-719339800); (-731353702);
    (-743144825); (-754709580); (-766044443); (-777145961); (-788010754); (-798635510);
    (-809016994); (-819152044); (-829037573); (-838670568); (-848048096); (-857167301);
    (-866025404); (-874619707); (-882947593); (-891006524); (-898794046); (-906307787);
    (-913545458); (-920504853); (-927183855); (-933580426); (-939692621); (-945518576);
    (-951056516); (-956304756); (-961261696); (-965925826); (-970295726); (-974370065);
    (-978147601); (-981627183); (-984807753); (-987688341); (-990268069); (-992546152);
    (-994521895); (-996194698); (-997564050); (-998629535); (-999390827); (-999847695);
    (-1000000000)
  ].

(** The largest whole number of degrees whose cosine is not below [x];
    0 for an [x] above 1. *)
Definition acos_degrees (x : Q) : Z :=
  Z.max 0
    (Z.of_nat
       (length
          (List.filter (fun c => Qle_bool x (c # 1000000000)) cosine_table))
     - 1).

Definition rational_floats : float_ops := {|
  double := Q;
  of_int := inject_Z;
  to_int := Q_to_int;
  fadd := Qplus;
  fsub := Qminus;
  fmul := Qmult;
  fdiv := Qdiv;
  flt := fun a b => negb (Qle_bool b a);
  feq := Qeq_bool;
  hypot := fun a b =>
    (Z.sqrt (Q_to_int ((a * a + b * b) * inject_Z (10 ^ 12))%Q)
       # 1000000)%Q;
  acos := fun x => (inject_Z (acos_degrees x) * (355 # 113) / 180)%Q;
  pi := (355 # 113)%Q
|}.

(** The condition the specification gives for acting upon a window: the
    middle segment has a squared length below [max_resolution] squared and
    the deviation of the angles is not below [fluid_angle]. *)
Definition short_middle_and_deviating (fl : float_ops) (max_resolution : Z)
    (fluid_angle : double fl) (p0 p1 p2 p3 : Point2LL) : Prop :=
  vSize2 (psub p2 p1) < max_resolution * max_resolution
  /\ withinDeviation fl p0 p1 p2 p3 fluid_angle = false.

(** The statistics the first loop of [findInside] gathers for a polygon. *)
Definition polygon_stats (comp : classifier) (p : Point2LL) (poly : Polygon)
    : Z * Z :=
  (crossing_count comp p poly, recorded_min_x comp p poly).

(** The entry [(crossings, min_x)] counts as uneven in the second loop. *)
Definition uneven (st : Z * Z) : Prop := Z.rem st.1 2 = 1.

#[global] Instance uneven_dec st : Decision (uneven st).
Proof. unfold uneven. apply _. Defined.

(** All coordinates of the point are at most [2^30] in absolute value. *)
Definition small_point (q : Point2LL) : Prop :=
  Z.abs (X q) <= 2 ^ 30 /\ Z.abs (Y q) <= 2 ^ 30.

(** No three consecutive vertices of the sequence make the middle one
    degenerate. *)
Definition no_degenerate_triple (vSize : length_fn) (l : Polygon) : Prop :=
  forall i a b c,
    l !! i = Some a -> l !! (i + 1)%nat = Some b -> l !! (i + 2)%nat = Some c ->
    isDegenerate vSize a b c = false.

(** What the loop over [poly_idx] leaves in the place of an open polyline:
    [result] when [isChanged] is set, the polyline itself otherwise. *)
Definition tidy_polyline (vSize : length_fn) (poly : Polygon)
    : option Polygon :=
  match removeDegenerateVerts vSize true poly with
  | Some (result, true) => Some result
  | Some (_, false) => Some poly
  | None => None
  end.

(** The sizes of the set and of its members fit in a [size_t]. *)
Definition representable (polys : Polygons) : Prop :=
  size_of polys < 2 ^ 64 /\ Forall (fun poly => size_of poly < 2 ^ 64) polys.

(** * Further routines of [utils/polygons.cpp] *)

(** ** The nesting tree of the clipping library *)

(** A [ClipperLib::PolyNode]: its contour and its child nodes.  The root of
    a [PolyTree] carries no contour of its own; the routines below never
    read it. *)
#[warnings="-register-all"]
Inductive PolyNode : Type :=
| mkPolyNode (contour : Polygon) (childs : list PolyNode).

Definition Contour (node : PolyNode) : Polygon :=
  match node with mkPolyNode contour _ => contour end.

Definition Childs (node : PolyNode) : list PolyNode :=
  match node with mkPolyNode _ childs => childs end.

(** Induction over a tree when the property is known for all children. *)
Fixpoint PolyNode_induction (P : PolyNode -> Prop)
    (step : forall contour childs,
        Forall P childs -> P (mkPolyNode contour childs))
    (node : PolyNode) : P node :=
  match node with
  | mkPolyNode contour childs =>
      step contour childs
        ((fix all (l : list PolyNode) : Forall P l :=
            match l with
            | [] => @List.Forall_nil _ P
            | child :: rest =>
                @List.Forall_cons _ P child rest
                  (PolyNode_induction P step child) (all rest)
            end) childs)
  end.

(** A [PolygonsPart]: an outline followed by its holes. *)
Abbreviation PolygonsPart := (list (list Point2LL)).

(** [Polygons::splitIntoParts_processPolyTreeNode]: [ret] is the vector of
    parts passed by reference.  The inner loop, over the children of
    [child]: the contour joins the part and the walk goes on below. *)
Definition splitIntoParts_hole
    (walk : PolyNode -> list PolygonsPart -> list PolygonsPart)
    (st : PolygonsPart * list PolygonsPart) (hole : PolyNode)
    : PolygonsPart * list PolygonsPart :=
  (st.1 ++ [Contour hole], walk hole st.2).

(** The outer loop body: a part is opened with the contour of [child] and
    pushed after the inner loop. *)
Definition splitIntoParts_child
    (walk : PolyNode -> list PolygonsPart -> list PolygonsPart)
    (ret : list PolygonsPart) (child : PolyNode) : list PolygonsPart :=
  let '(part, ret') :=
    foldl (splitIntoParts_hole walk) ([Contour child], ret) (Childs child) in
  ret' ++ [part].

Fixpoint splitIntoParts_processPolyTreeNode (node : PolyNode)
    (ret : list PolygonsPart) : list PolygonsPart :=
  foldl (splitIntoParts_child splitIntoParts_processPolyTreeNode) ret
    (Childs node).

(** [Polygons::sortByNesting_processPolyTreeNode]: [ret] holds one set of
    contours per nesting depth and is grown on demand. *)
Definition sortByNesting_child
    (walk : PolyNode -> nat -> list Polygons -> list Polygons)
    (nesting_idx : nat) (ret : list Polygons) (child : PolyNode)
    : list Polygons :=
  let resized :=
    if (length ret <=? nesting_idx)%nat
    then ret ++ replicate (nesting_idx + 1 - length ret) []
    else ret in
  walk child (nesting_idx + 1)%nat
    (alter (fun layer => layer ++ [Contour child]) nesting_idx resized).

Fixpoint sortByNesting_processPolyTreeNode (node : PolyNode)
    (nesting_idx : nat) (ret : list Polygons) : list Polygons :=
  foldl (sortByNesting_child sortByNesting_processPolyTreeNode nesting_idx)
    ret (Childs node).

(** [Polygons::removeEmptyHoles_processPolyTreeNode]: the inner loop body,
    on a child [hole_node] of [child]. *)
Definition removeEmptyHoles_hole
    (walk : PolyNode -> bool -> Polygons -> Polygons) (remove_holes : bool)
    (ret : Polygons) (hole_node : PolyNode) : Polygons :=
  if Bool.eqb (0 <? length (Childs hole_node))%nat remove_holes
  then walk hole_node remove_holes (ret ++ [Contour hole_node])
  else ret.

Definition removeEmptyHoles_child
    (walk : PolyNode -> bool -> Polygons -> Polygons) (remove_holes : bool)
    (ret : Polygons) (child : PolyNode) : Polygons :=
  foldl (removeEmptyHoles_hole walk remove_holes)
    (if remove_holes then ret ++ [Contour child] else ret) (Childs child).

Fixpoint removeEmptyHoles_processPolyTreeNode (node : PolyNode)
    (remove_holes : bool) (ret : Polygons) : Polygons :=
  foldl (removeEmptyHoles_child removeEmptyHoles_processPolyTreeNode
           remove_holes) ret (Childs node).

(** ** The view of parts: [PartsView] *)

(** A [PartsView] is a vector of vectors of positions into a set of
    polygons, which it refers to ([polygons_]). *)
Abbreviation PartsView := (list (list nat)).

(** [Polygons::splitIntoPartsView_processPolyTreeNode]: the state is the
    view and the reordered set, both passed by reference.  The inner loop
    body, for the part at position [pos] of the view. *)
Definition splitIntoPartsView_hole
    (walk : PolyNode -> PartsView * Polygons -> PartsView * Polygons)
    (pos : nat) (st : PartsView * Polygons) (hole : PolyNode)
    : PartsView * Polygons :=
  walk hole
    (alter (fun part => part ++ [length st.2]) pos st.1,
     st.2 ++ [Contour hole]).

(** The outer loop body: [pos] is [partsView.size() - 1] after the
    [emplace_back()]. *)
Definition splitIntoPartsView_child
    (walk : PolyNode -> PartsView * Polygons -> PartsView * Polygons)
    (st : PartsView * Polygons) (child : PolyNode) : PartsView * Polygons :=
  let pos := length st.1 in
  foldl (splitIntoPartsView_hole walk pos)
    (st.1 ++ [[length st.2]], st.2 ++ [Contour child]) (Childs child).

Fixpoint splitIntoPartsView_processPolyTreeNode (node : PolyNode)
    (st : PartsView * Polygons) : PartsView * Polygons :=
  foldl (splitIntoPartsView_child splitIntoPartsView_processPolyTreeNode) st
    (Childs node).

(** [PartsView::getPartContaining]: the part found, or [NO_INDEX], and the
    value written through [boundary_poly_idx] when a part is found. *)
Fixpoint getPartContaining_from (partsView : PartsView) (part_idx_now : nat)
    (poly_idx : nat) : Z * option nat :=
  match partsView with
  | [] => (NO_INDEX, None)
  | partView :: rest =>
      if (length partView =? 0)%nat
      then getPartContaining_from rest (S part_idx_now) poly_idx
      else if bool_decide (poly_idx ∈ partView)
           then (Z.of_nat part_idx_now, head partView)
           else getPartContaining_from rest (S part_idx_now) poly_idx
  end.

Definition getPartContaining (partsView : PartsView) (poly_idx : nat)
    : Z * option nat :=
  getPartContaining_from partsView 0 poly_idx.

(** [PartsView::assemblePart]; [None] is a read outside the view or outside
    the set of polygons. *)
Definition assemblePart (partsView : PartsView) (polygons_ : Polygons)
    (part_idx : Z) : option PolygonsPart :=
  if negb (part_idx =? NO_INDEX) then
    part ← partsView !! Z.to_nat part_idx;
    mapM (fun poly_idx_ff => polygons_ !! poly_idx_ff) part
  else Some [].

(** [PartsView::assemblePartContaining]. *)
Definition assemblePartContaining (partsView : PartsView)
    (polygons_ : Polygons) (poly_idx : nat) : option PolygonsPart :=
  let part_idx := (getPartContaining partsView poly_idx).1 in
  if negb (part_idx =? NO_INDEX) then assemblePart partsView polygons_ part_idx
  else Some [].

(** ** Notions used to state the properties of the tree walks *)

(** The contours below a node, a node before its descendants and the
    children from the first to the last. *)
Fixpoint contours_below (node : PolyNode) : Polygons :=
  concat (map (fun child => Contour child :: contours_below child)
            (Childs node)).

(** The part opened for a node: its contour, then those of its children. *)
Definition part_of (child : PolyNode) : PolygonsPart :=
  Contour child :: map Contour (Childs child).

(** The parts below a node, the part of a node before the parts found
    below its children. *)
Fixpoint parts_pre (node : PolyNode) : list PolygonsPart :=
  concat (map (fun child =>
                 part_of child :: concat (map parts_pre (Childs child)))
            (Childs node)).

(** The parts below a node, the part of a node after the parts found below
    its children. *)
Fixpoint parts_post (node : PolyNode) : list PolygonsPart :=
  concat (map (fun child =>
                 concat (map parts_post (Childs child)) ++ [part_of child])
            (Childs node)).

(** The polygons that a part of a view stands for: those at its indices. *)
Definition assembles (polygons_ : Polygons) (partView : list nat)
    (part : PolygonsPart) : Prop :=
  Forall2 (fun poly_idx poly => polygons_ !! poly_idx = Some poly)
    partView part.

(** What one call of the walk does to the view and to the polygons. *)
Definition splitIntoPartsView_spec (node : PolyNode) : Prop :=
  forall (view : PartsView) (re : Polygons),
  exists new_parts,
    splitIntoPartsView_processPolyTreeNode node (view, re)
     = (view ++ new_parts, re ++ contours_below node)
    /\ concat new_parts ≡ₚ seq (length re) (length (contours_below node))
    /\ Forall2 (assembles (re ++ contours_below node)) new_parts
         (parts_pre node).

(** The contours found [depth] levels below the children of a node, in
    the order of the children. *)
Fixpoint level (depth : nat) (node : PolyNode) : Polygons :=
  match depth with
  | O => map Contour (Childs node)
  | S depth' => concat (map (level depth') (Childs node))
  end.

(** The number of levels below a node. *)
Fixpoint height (node : PolyNode) : nat :=
  max_list (map (fun child => S (height child)) (Childs node)).

(** The layer at an index of the result of [sortByNesting], empty where
    the result has no such layer. *)
Definition layer_at (ret : list Polygons) (nesting_idx : nat) : Polygons :=
  default [] (ret !! nesting_idx).

(** What one call of the walk of [sortByNesting] does to the layers. *)
Definition sortByNesting_spec (node : PolyNode) : Prop :=
  forall (nesting_idx : nat) (ret : list Polygons),
    length (sortByNesting_processPolyTreeNode node nesting_idx ret)
    = (length ret
       `max` (if (height node =? 0)%nat then 0 else nesting_idx + height node))%nat
    /\ forall i,
         layer_at (sortByNesting_processPolyTreeNode node nesting_idx ret) i
         = layer_at ret i
           ++ (if (nesting_idx <=? i)%nat then level (i - nesting_idx) node
               else []).

(** A small tree: an outline with a hole that holds an island, and a
    second outline. *)
Definition example_tree : PolyNode :=
  mkPolyNode []
    [ mkPolyNode [mkPoint 0 0; mkPoint 100 0; mkPoint 100 100; mkPoint 0 100]
        [ mkPolyNode [mkPoint 10 10; mkPoint 10 90; mkPoint 90 90; mkPoint 90 10]
            [ mkPolyNode [mkPoint 40 40; mkPoint 60 40; mkPoint 60 60] [] ] ];
      mkPolyNode [mkPoint 200 0; mkPoint 300 0; mkPoint 300 100] [] ].

(** The contours that [removeEmptyHoles] keeps below a node: every
    outline, and every hole that has something inside. *)
Fixpoint kept_contours (node : PolyNode) : Polygons :=
  concat (map (fun child =>
                 Contour child
                 :: concat (map (fun hole =>
                                   match Childs hole with
                                   | [] => []
                                   | _ :: _ => Contour hole :: kept_contours hole
                                   end) (Childs child)))
            (Childs node)).

(** The holes with nothing inside, at every depth below a node. *)
Fixpoint empty_holes (node : PolyNode) : Polygons :=
  concat (map (fun child =>
                 concat (map (fun hole =>
                                match Childs hole with
                                | [] => [Contour hole]
                                | _ :: _ => empty_holes hole
                                end) (Childs child)))
            (Childs node)).

(** The holes with nothing inside among the holes of the outlines
    directly below a node. *)
Definition outer_empty_holes (node : PolyNode) : Polygons :=
  concat (map (fun child =>
                 map Contour
                   (filter (fun hole => Childs hole = []) (Childs child)))
            (Childs node)).

(** ** Containment by crossing count: [Polygons::insideOld] *)

(** The inner loop over the vertices [p1] of one polygon, from the previous
    vertex [p0] and the running [crossings].  [None] is the early
    [return border_result]. *)
Fixpoint insideOld_edges (comp : classifier) (p : Point2LL) (p0 : Point2LL)
    (pts : Polygon) (crossings : Z) : option Z :=
  match pts with
  | [] => Some crossings
  | p1 :: rest =>
      let c := comp p p0 p1 in
      if c =? 1 then insideOld_edges comp p p1 rest (crossings + 1)
      else if c =? 0 then None
      else insideOld_edges comp p p1 rest crossings
  end.

(** The loop over the polygons; [None] is [back()] of an empty polygon. *)
Fixpoint insideOld_loop (comp : classifier) (p : Point2LL)
    (border_result : bool) (polys : Polygons) (crossings : Z) : option bool :=
  match polys with
  | [] => Some (Z.rem crossings 2 =? 1)
  | poly :: rest =>
      match back poly with
      | None => None
      | Some p0 =>
          match insideOld_edges comp p p0 poly crossings with
          | None => Some border_result
          | Some crossings' =>
              insideOld_loop comp p border_result rest crossings'
          end
      end
  end.

Definition insideOld (comp : classifier) (polys : Polygons) (p : Point2LL)
    (border_result : bool) : option bool :=
  if size_of polys <? 1 then Some false
  else insideOld_loop comp p border_result polys 0.

(** Three nested squares. *)
Definition nested_squares : Polygons :=
  [ [mkPoint 0 0; mkPoint 100 0; mkPoint 100 100; mkPoint 0 100];
    [mkPoint 10 10; mkPoint 90 10; mkPoint 90 90; mkPoint 10 90];
    [mkPoint 20 20; mkPoint 80 20; mkPoint 80 80; mkPoint 20 80] ].

(** ** [Polygons::removeColinearEdges] *)

(** The loop over [p].  [simplify] is what [Polygon::removeColinearEdges],
    a routine of a missing file, leaves in the place of a polygon.  After a
    removal [p--] and the [p++] of the loop header are both computed in
    [size_t]. *)
Fixpoint removeColinearEdges_loop (simplify : Polygon -> Polygon)
    (fuel : nat) (p : Z) (polys : Polygons) : outcome Polygons :=
  match fuel with
  | O => OutOfFuel
  | S fuel' =>
      if p <? size_of polys then
        match polys !! Z.to_nat p with
        | None => UndefinedBehaviour
        | Some poly =>
            let thiss := <[Z.to_nat p := simplify poly]> polys in
            if (length (simplify poly) <? 3)%nat
            then removeColinearEdges_loop simplify fuel'
                   (size_t_wrap (size_t_wrap (p - 1) + 1))
                   (Polygons_remove_at thiss (Z.to_nat p))
            else removeColinearEdges_loop simplify fuel'
                   (size_t_wrap (p + 1)) thiss
        end
      else Finished polys
  end.

(** Every round either advances [p] or shrinks the set, so [length polys]
    rounds and the final test fit in the fuel given. *)
Definition removeColinearEdges (simplify : Polygon -> Polygon)
    (polys : Polygons) : outcome Polygons :=
  removeColinearEdges_loop simplify (S (length polys)) 0 polys.

(** ** Small-area filtering in place: [Polygons::removeSmallAreas] *)

(** [std::abs(INT2MM2(ClipperLib::Area(poly))) < min_area_size], with the
    area of a polygon as an argument. *)
Definition area_is_small (area : Polygon -> Q) (min_area_size : Q)
    (poly : Polygon) : bool :=
  negb (Qle_bool min_area_size (Qabs (area poly))).

(** The loop of the branch [remove_holes]: [it] and [new_end] are
    positions in the vector.  A polygon below the threshold is overwritten
    by the polygon before [new_end]; what the move leaves in the place of
    that polygon is cut off by the final [resize].  Every round brings [it]
    and [new_end] closer by one. *)
Fixpoint removeSmallAreas_all (area : Polygon -> Q) (min_area_size : Q)
    (fuel : nat) (polys : Polygons) (it new_end : nat) : outcome Polygons :=
  match fuel with
  | O => OutOfFuel
  | S fuel' =>
      if (it <? new_end)%nat then
        match polys !! it with
        | None => UndefinedBehaviour
        | Some poly =>
            if area_is_small area min_area_size poly then
              match polys !! (new_end - 1)%nat with
              | None => UndefinedBehaviour
              | Some moved =>
                  removeSmallAreas_all area min_area_size fuel'
                    (<[it := moved]> polys) it (new_end - 1)
              end
            else removeSmallAreas_all area min_area_size fuel' polys
                   (S it) new_end
        end
      else Finished (take new_end polys)
  end.

(** The first loop of the other branch: small outlines are swapped behind
    [new_end], the positions of small holes are put into [small_holes].
    The result is the vector, [new_end] and [small_holes]. *)
Fixpoint removeSmallAreas_outlines (area : Polygon -> Q) (min_area_size : Q)
    (fuel : nat) (polys : Polygons) (it new_end : nat)
    (small_holes : list nat) : outcome (Polygons * nat * list nat) :=
  match fuel with
  | O => OutOfFuel
  | S fuel' =>
      if (it <? new_end)%nat then
        match polys !! it with
        | None => UndefinedBehaviour
        | Some poly =>
            if area_is_small area min_area_size poly then
              if Qle_bool 0 (area poly) then
                if (it <? new_end - 1)%nat then
                  match polys !! (new_end - 1)%nat with
                  | None => UndefinedBehaviour
                  | Some other =>
                      removeSmallAreas_outlines area min_area_size fuel'
                        (<[(new_end - 1)%nat := poly]> (<[it := other]> polys))
                        it (new_end - 1) small_holes
                  end
                else Finished (polys, (new_end - 1)%nat, small_holes)
              else removeSmallAreas_outlines area min_area_size fuel' polys
                     (S it) new_end (small_holes ++ [it])
            else removeSmallAreas_outlines area min_area_size fuel' polys
                   (S it) new_end small_holes
        end
      else Finished (polys, new_end, small_holes)
  end.

(** The loop over the removed outlines for one small hole: is the front
    of the hole inside one of them?  [poly_inside] is [Polygon::inside], a
    routine of a missing file; [None] is [front()] of an empty polygon. *)
Fixpoint hole_in_removed_outline (poly_inside : Polygon -> Point2LL -> bool)
    (hole : Polygon) (outlines : Polygons) : option bool :=
  match outlines with
  | [] => Some false
  | outline :: rest =>
      match head hole with
      | None => None
      | Some front =>
          if poly_inside outline front then Some true
          else hole_in_removed_outline poly_inside hole rest
      end
  end.

(** The second loop, on one small hole: the vector and [new_end]. *)
Definition removeSmallAreas_hole (poly_inside : Polygon -> Point2LL -> bool)
    (removed_outlines_start : nat) (st : outcome (Polygons * nat))
    (hole_idx : nat) : outcome (Polygons * nat) :=
  match st with
  | Finished (polys, new_end) =>
      match polys !! hole_idx with
      | None => UndefinedBehaviour
      | Some hole =>
          match hole_in_removed_outline poly_inside hole
                  (drop removed_outlines_start polys) with
          | None => UndefinedBehaviour
          | Some true =>
              match polys !! (new_end - 1)%nat with
              | None => UndefinedBehaviour
              | Some moved =>
                  Finished (<[hole_idx := moved]> polys, (new_end - 1)%nat)
              end
          | Some false => st
          end
      end
  | _ => st
  end.

(** [Polygons::removeSmallAreas]. *)
Definition removeSmallAreas (area : Polygon -> Q)
    (poly_inside : Polygon -> Point2LL -> bool) (polys : Polygons)
    (min_area_size : Q) (remove_holes : bool) : outcome Polygons :=
  if remove_holes then
    removeSmallAreas_all area min_area_size (S (length polys)) polys 0
      (length polys)
  else
    match removeSmallAreas_outlines area min_area_size (S (length polys))
            polys 0 (length polys) [] with
    | Finished (polys1, new_end, small_holes) =>
        match foldl (removeSmallAreas_hole poly_inside new_end)
                (Finished (polys1, new_end)) (rev small_holes) with
        | Finished (polys2, new_end') => Finished (take new_end' polys2)
        | UndefinedBehaviour => UndefinedBehaviour
        | OutOfFuel => OutOfFuel
        end
    | UndefinedBehaviour => UndefinedBehaviour
    | OutOfFuel => OutOfFuel
    end.

(** A small outline, a small hole. *)
Definition small_outline (area : Polygon -> Q) (min_area_size : Q)
    (poly : Polygon) : bool :=
  area_is_small area min_area_size poly && Qle_bool 0 (area poly).

Definition small_hole (area : Polygon -> Q) (min_area_size : Q)
    (poly : Polygon) : bool :=
  area_is_small area min_area_size poly && negb (Qle_bool 0 (area poly)).

(** The first point of the polygon is inside one of the outlines. *)
Definition front_inside (poly_inside : Polygon -> Point2LL -> bool)
    (outlines : Polygons) (poly : Polygon) : bool :=
  match head poly with
  | Some front => existsb (fun outline => poly_inside outline front) outlines
  | None => false
  end.

(** What [removeSmallAreas] keeps when holes are not removed for their
    size alone: everything but the small outlines and the small holes that
    begin inside a small outline. *)
Definition survives_small_areas (area : Polygon -> Q)
    (poly_inside : Polygon -> Point2LL -> bool) (min_area_size : Q)
    (polys : Polygons) (poly : Polygon) : bool :=
  negb (small_outline area min_area_size poly)
  && negb (small_hole area min_area_size poly
           && front_inside poly_inside
                (filter (fun o => small_outline area min_area_size o = true)
                   polys) poly).

(** The positions, counted from [start], of the members of a list that
    pass a test. *)
Fixpoint positions_where (test : Polygon -> bool) (start : nat)
    (l : Polygons) : list nat :=
  match l with
  | [] => []
  | poly :: rest =>
      (if test poly then [start] else [])
      ++ positions_where test (S start) rest
  end.

(** The positions are below a bound and go down along the list. *)
Fixpoint descending_below (bound : nat) (hs : list nat) : Prop :=
  match hs with
  | [] => True
  | h :: rest => (h < bound)%nat /\ descending_below h rest
  end.

(** ** Totals and bounds: [Polygons::length], [min] and [max] *)

(** The conversion of an integer to [int], 32 bits wide: the value of
    that type congruent to it modulo [2^32]. *)
Definition int_wrap (z : Z) : Z := (z + 2 ^ 31) mod 2 ^ 32 - 2 ^ 31.

(** [Polygons::length]: [std::accumulate] started from the literal [0]
    keeps its running total in an [int]; the lambda adds in [coord_t] and
    its result is converted back on every round.  [length] is
    [Polygon::length]. *)
Definition Polygons_length (length : Polygon -> Z) (polys : Polygons) : Z :=
  foldl (fun init polygon => int_wrap (init + length polygon)) 0 polys.

(** [Polygons::min] and [Polygons::max]; [POINT_MAX] and [POINT_MIN] are
    constants of a missing header. *)
Definition Polygons_min (POINT_MAX : Z) (polys : Polygons) : Point2LL :=
  foldl (fun ret polygon =>
           foldl (fun ret p => mkPoint (Z.min (X ret) (X p))
                                 (Z.min (Y ret) (Y p))) ret polygon)
    (mkPoint POINT_MAX POINT_MAX) polys.

Definition Polygons_max (POINT_MIN : Z) (polys : Polygons) : Point2LL :=
  foldl (fun ret polygon =>
           foldl (fun ret p => mkPoint (Z.max (X ret) (X p))
                                 (Z.max (Y ret) (Y p))) ret polygon)
    (mkPoint POINT_MIN POINT_MIN) polys.

(** ** The smoothing wrappers: [Polygons::smooth_outward] and
    [Polygons::smooth] *)

(** One round of [Polygons::smooth_outward]; [smooth_outward_poly] is what
    [Polygon::smooth_outward], a routine of a missing file, writes into
    the fresh polygon it is handed. *)
Definition smooth_outward_step (smooth_outward_poly : Polygon -> Polygon)
    (ret : Polygons) (poly : Polygon) : Polygons :=
  if (length poly <? 3)%nat then ret
  else if (length poly =? 3)%nat then ret ++ [poly]
  else
    let ret' := ret ++ [smooth_outward_poly poly] in
    match back ret' with
    | Some result =>
        if (length result <? 3)%nat then take (length ret' - 1) ret'
        else ret'
    | None => ret'
    end.

Definition smooth_outward (smooth_outward_poly : Polygon -> Polygon)
    (polys : Polygons) : Polygons :=
  foldl (smooth_outward_step smooth_outward_poly) [] polys.

(** One round of [Polygons::smooth]: here it is the smoothed polygon, not
    the set, that is resized to one less.  [None] is the exception of
    [resize] for a size of [SIZE_MAX], when the smoothed polygon is
    empty. *)
Definition smooth_step (smooth_poly : Polygon -> Polygon)
    (ret : option Polygons) (poly : Polygon) : option Polygons :=
  ret ← ret;
  if (length poly <? 3)%nat then Some ret
  else if (length poly =? 3)%nat then Some (ret ++ [poly])
  else
    let back := smooth_poly poly in
    if (length back <? 3)%nat then
      if (length back =? 0)%nat then None
      else Some (ret ++ [take (length back - 1) back])
    else Some (ret ++ [back]).

Definition Polygons_smooth (smooth_poly : Polygon -> Polygon)
    (polys : Polygons) : option Polygons :=
  foldl (smooth_step smooth_poly) (Some []) polys.

(** The test a polygon passes in [removeSmallAreaCircumference] when the
    outline before it was kept: an outline has to meet both thresholds, a
    hole has to do so only when holes are removed for their size. *)
Definition passes_thresholds (area : Polygon -> Q) (length : Polygon -> Z)
    (min_area_size : Q) (min_circumference_size : Z) (remove_holes : bool)
    (poly : Polygon) : bool :=
  let big_enough :=
    (length poly >=? min_circumference_size)
    && Qle_bool min_area_size (Qabs (area poly)) in
  if Qle_bool 0 (area poly) then big_enough
  else negb remove_holes || big_enough.

(** ** The convex hull: [Polygons::makeConvex] *)

From stdpp Require sorting.

(** The order of the comparison handed to [std::sort], made reflexive: by
    [X], then by [Y]. *)
Definition lex_le (a b : Point2LL) : Prop :=
  X a < X b \/ (X a = X b /\ Y a <= Y b).

#[global] Instance lex_le_dec (a b : Point2LL) : Decision (lex_le a b).
Proof. unfold lex_le. apply _. Defined.

(** The [while] loop popping the back of [convexified];
    [pointIsLeftOfLine] is a routine of a missing file.  Every round pops
    one point, so [length convexified] rounds of fuel are never used up.
    [None] is a read outside [convexified]. *)
Fixpoint convex_pop (pointIsLeftOfLine : Point2LL -> Point2LL -> Point2LL -> Z)
    (current : Point2LL) (fuel : nat) (convexified : Polygon)
    : option Polygon :=
  match fuel with
  | O => Some convexified
  | S fuel' =>
      if (2 <=? length convexified)%nat then
        convexified_back ← back convexified;
        before_back ← convexified !! (length convexified - 2)%nat;
        front ← head convexified;
        if (pointIsLeftOfLine convexified_back before_back current >=? 0)
           || (pointIsLeftOfLine convexified_back before_back front >? 0)
        then convex_pop pointIsLeftOfLine current fuel'
               (removelast convexified)
        else Some convexified
      else Some convexified
  end.

(** The loop over the windows of two consecutive points of [poly]. *)
Fixpoint convex_windows
    (pointIsLeftOfLine : Point2LL -> Point2LL -> Point2LL -> Z)
    (poly : Polygon) (convexified : Polygon) : option Polygon :=
  match poly with
  | current :: (after :: _) as rest =>
      convexified_back ← back convexified;
      convexified' ←
        (if pointIsLeftOfLine current convexified_back after <? 0
         then popped ← convex_pop pointIsLeftOfLine current
                         (length convexified) convexified;
              Some (popped ++ [current])
         else Some convexified);
      convex_windows pointIsLeftOfLine rest convexified'
  | _ => Some convexified
  end.

(** The lambda [make_sorted_poly_convex]; [poly[0]] of an empty vector is
    a read outside it. *)
Definition make_sorted_poly_convex
    (pointIsLeftOfLine : Point2LL -> Point2LL -> Point2LL -> Z)
    (poly : Polygon) (convexified : Polygon) : option Polygon :=
  first ← head poly;
  convex_windows pointIsLeftOfLine poly (convexified ++ [first]).

(** The polygon [convexified] at the end of [makeConvex], for a set that
    is not empty.  The comparison of [std::sort] is a strict total order on
    points, so the sorted vector is the one sorted arrangement of the
    points. *)
Definition makeConvex_convexified
    (pointIsLeftOfLine : Point2LL -> Point2LL -> Point2LL -> Z)
    (polys : Polygons) : option Polygon :=
  let points := sorting.merge_sort lex_le (concat polys) in
  convexified ← make_sorted_poly_convex pointIsLeftOfLine points [];
  make_sorted_poly_convex pointIsLeftOfLine (rev points) convexified.

(** [Polygons::makeConvex]: the set after the call.  The hull is stored
    with [*this = { convexified }], the assignment of a temporary. *)
Definition makeConvex (fuel : nat)
    (pointIsLeftOfLine : Point2LL -> Point2LL -> Point2LL -> Z)
    (polys : Polygons) : outcome Polygons :=
  if (length polys =? 0)%nat then Finished polys
  else
    match makeConvex_convexified pointIsLeftOfLine polys with
    | Some convexified => assign_temporary fuel polys [convexified]
    | None => UndefinedBehaviour
    end.

(** ** Containment in a part: [PolygonsPart::inside] *)

(** The loop over the holes, the polygons of the part after the first;
    [n] is taken as a position in the part.  [poly_inside] is
    [Polygon::inside], a routine of a missing file. *)
Fixpoint PolygonsPart_inside_holes
    (poly_inside : Polygon -> Point2LL -> bool -> bool) (p : Point2LL)
    (border_result : bool) (holes : Polygons) : bool :=
  match holes with
  | [] => true
  | hole :: rest =>
      if poly_inside hole p border_result then false
      else PolygonsPart_inside_holes poly_inside p border_result rest
  end.

Definition PolygonsPart_inside
    (poly_inside : Polygon -> Point2LL -> bool -> bool) (part : PolygonsPart)
    (p : Point2LL) (border_result : bool) : bool :=
  match part with
  | [] => false
  | outline :: holes =>
      if negb (poly_inside outline p border_result) then false
      else PolygonsPart_inside_holes poly_inside p border_result holes
  end.

(** * Properties *)

(** ** [Polygons::inside] *)

Lemma rem2_is_odd (s : Z) : 0 <= s -> (Z.rem s 2 =? 1) = Z.odd s.
Proof.
  intros Hs. rewrite Z.rem_mod_nonneg by lia. rewrite Zmod_odd.
  destruct (Z.odd s); reflexivity.
Qed.

Section Inside.
Variable h : clipper.
Variable p : Point2LL.
Variable border_result : bool.

Local Abbreviation query := (fun poly => Request (PointInPolygon p poly)).

Lemma inside_loop_no_border (polys : Polygons) (count : Z) :
  (forall poly, poly ∈ polys -> point_in_polygon h p poly <> -1) ->
  run h (inside_loop p border_result polys count)
    = (Z.rem (count + inside_sum h p polys) 2 =? 1)
  /\ calls h (inside_loop p border_result polys count) = map query polys.
Proof.
  revert count. induction polys as [|poly rest IH]; intros count Hno.
  - cbn. rewrite Z.add_0_r. split; reflexivity.
  - cbn [inside_loop run calls].
    assert (Hp : point_in_polygon h p poly <> -1)
      by (apply Hno; left).
    unfold point_in_polygon in Hp.
    destruct (Z.eqb_spec (h Z (PointInPolygon p poly)) (-1)) as [E|_];
      [contradiction|].
    destruct (IH (count + h Z (PointInPolygon p poly))) as [Hr Hc].
    { intros q Hq. apply Hno. right. exact Hq. }
    split.
    + rewrite Hr. unfold inside_sum. cbn [map foldr].
      unfold point_in_polygon at 2. f_equal. f_equal. lia.
    + cbn [map]. rewrite Hc. reflexivity.
Qed.

Lemma inside_loop_border (pre rest : Polygons) (poly : Polygon) (count : Z) :
  (forall q, q ∈ pre -> point_in_polygon h p q <> -1) ->
  point_in_polygon h p poly = -1 ->
  run h (inside_loop p border_result (pre ++ poly :: rest) count)
    = border_result
  /\ calls h (inside_loop p border_result (pre ++ poly :: rest) count)
     = map query (pre ++ [poly]).
Proof.
  revert count. induction pre as [|q pre IH]; intros count Hno Hb.
  - unfold point_in_polygon in Hb. cbn. rewrite Hb. cbn.
    split; reflexivity.
  - cbn [app inside_loop run calls].
    assert (Hq : point_in_polygon h p q <> -1) by (apply Hno; left).
    unfold point_in_polygon in Hq.
    destruct (Z.eqb_spec (h Z (PointInPolygon p q)) (-1)) as [E|_];
      [contradiction|].
    destruct (IH (count + h Z (PointInPolygon p q))) as [Hr Hc]; [|exact Hb|].
    { intros r Hr. apply Hno. right. exact Hr. }
    split; [exact Hr|]. cbn [map]. rewrite Hc. reflexivity.
Qed.

Lemma inside_sum_nonneg (polys : Polygons) :
  (forall poly, poly ∈ polys ->
     point_in_polygon h p poly = 0 \/ point_in_polygon h p poly = 1) ->
  0 <= inside_sum h p polys.
Proof.
  induction polys as [|poly rest IH]; intros Hv; unfold inside_sum; cbn.
  - lia.
  - assert (0 <= inside_sum h p rest)
      by (apply IH; intros q Hq; apply Hv; right; exact Hq).
    unfold inside_sum in *. destruct (Hv poly) as [E|E]; [left| |]; lia.
Qed.
End Inside.

(** C5.  When the library answers 0, 1 or -1 for every polygon:
    if no polygon reports the point on its border, [inside] is true exactly
    when the sum of the answers is odd, and every polygon is asked once, in
    order; if [poly] is the first polygon to report the point on its border,
    [inside] is [border_result] and the polygons after [poly] are not
    asked. *)
Theorem inside_even_odd (h : clipper) (polys : Polygons) (p : Point2LL)
    (border_result : bool) :
  (forall poly, poly ∈ polys ->
     point_in_polygon h p poly = -1 \/ point_in_polygon h p poly = 0
     \/ point_in_polygon h p poly = 1) ->
  ((forall poly, poly ∈ polys -> point_in_polygon h p poly <> -1) ->
   run h (inside polys p border_result) = Z.odd (inside_sum h p polys)
   /\ calls h (inside polys p border_result)
      = map (fun poly => Request (PointInPolygon p poly)) polys)
  /\ (forall pre poly rest,
        polys = pre ++ poly :: rest ->
        (forall q, q ∈ pre -> point_in_polygon h p q <> -1) ->
        point_in_polygon h p poly = -1 ->
        run h (inside polys p border_result) = border_result
        /\ calls h (inside polys p border_result)
           = map (fun poly => Request (PointInPolygon p poly)) (pre ++ [poly])).
Proof.
  intros Hrange. split.
  - intros Hno. unfold inside.
    destruct (inside_loop_no_border h p border_result polys 0 Hno) as [Hr Hc].
    split; [|exact Hc]. rewrite Hr. rewrite Z.add_0_l.
    apply rem2_is_odd. apply inside_sum_nonneg.
    intros poly Hin. destruct (Hrange poly Hin) as [E|E]; [|exact E].
    exfalso. exact (Hno poly Hin E).
  - intros pre poly rest -> Hno Hb. unfold inside.
    apply inside_loop_border; assumption.
Qed.

(** A triangle that does not have the query point among its vertices and
    one that does, for the stand-in library. *)
Lemma inside_even_odd_witness :
  (run stub_clipper
     (inside [[mkPoint 0 0; mkPoint 4 0; mkPoint 0 4]] (mkPoint 1 1) true)
   = Z.odd (inside_sum stub_clipper (mkPoint 1 1)
              [[mkPoint 0 0; mkPoint 4 0; mkPoint 0 4]]))
  /\ (run stub_clipper
        (inside [[mkPoint 0 0; mkPoint 4 0; mkPoint 0 4];
                 [mkPoint 1 1; mkPoint 4 0; mkPoint 0 4]; []]
           (mkPoint 1 1) true) = true).
Proof.
  split.
  - refine (proj1 (proj1 (inside_even_odd stub_clipper
             [[mkPoint 0 0; mkPoint 4 0; mkPoint 0 4]] (mkPoint 1 1) true _) _)).
    + intros poly Hin. apply list_elem_of_singleton in Hin. subst poly.
      right. left. vm_compute. reflexivity.
    + intros poly Hin. apply list_elem_of_singleton in Hin. subst poly.
      vm_compute. discriminate.
  - refine (proj1 (proj2 (inside_even_odd stub_clipper
             [[mkPoint 0 0; mkPoint 4 0; mkPoint 0 4];
              [mkPoint 1 1; mkPoint 4 0; mkPoint 0 4]; []] (mkPoint 1 1) true _)
             [[mkPoint 0 0; mkPoint 4 0; mkPoint 0 4]]
             [mkPoint 1 1; mkPoint 4 0; mkPoint 0 4] [[]] eq_refl _ _)).
    + intros poly Hin.
      apply elem_of_cons in Hin as [->|Hin];
        [right; left; vm_compute; reflexivity|].
      apply elem_of_cons in Hin as [->|Hin];
        [left; vm_compute; reflexivity|].
      apply list_elem_of_singleton in Hin as ->.
      right; left; vm_compute; reflexivity.
    + intros q Hin. apply list_elem_of_singleton in Hin. subst q.
      vm_compute. discriminate.
    + vm_compute. reflexivity.
Defined.

(** ** [LinesSet::offset] *)

(** C8.  Offsetting by a distance of zero returns and hands back the input
    paths, the same paths in the same order, for every line type, join type
    and miter limit, and makes no call into the clipping library. *)
Theorem offset_zero_is_identity (fuel : nat) (shape_type : ShapeType)
    (union_fill : PolyFillType) (paths : Polygons) (joinType : JoinType)
    (miter_limit : Q) :
  offset fuel shape_type union_fill paths 0 joinType miter_limit
  = Ret (Finished paths)
  /\ forall h : clipper,
       run h (offset fuel shape_type union_fill paths 0 joinType miter_limit)
       = Finished paths
       /\ calls h
            (offset fuel shape_type union_fill paths 0 joinType miter_limit)
          = [].
Proof.
  split; [reflexivity|]. intros h. split; reflexivity.
Qed.

(** A non-zero distance does go to the library. *)
Lemma offset_nonzero_calls (h : clipper) (fuel : nat) (shape_type : ShapeType)
    (union_fill : PolyFillType) (paths : Polygons) (distance : Z)
    (joinType : JoinType) (miter_limit : Q) :
  distance <> 0 ->
  calls h
    (offset fuel shape_type union_fill paths distance joinType miter_limit)
    <> [].
Proof.
  intros Hd. unfold offset.
  destruct (Z.eqb_spec distance 0) as [E|_]; [contradiction|].
  destruct shape_type; cbn; discriminate.
Qed.

(** ** [Polygons::findInside] on the empty set *)

Lemma NO_INDEX_not_zero : NO_INDEX <> 0.
Proof. vm_compute. discriminate. Qed.

(** C9.  On the empty set [findInside] returns 0, which is not the sentinel
    [NO_INDEX]; 0 is also what it returns for a set that is not empty when
    the query point lies on the first edge visited of its first polygon, so
    the two results cannot be told apart. *)
Theorem findInside_empty_is_zero (comp : classifier) (p : Point2LL)
    (border_result : bool) (p0 q : Point2LL) (tail : Polygon)
    (rest : Polygons) :
  back (q :: tail) = Some p0 ->
  comp p p0 q = 0 ->
  findInside comp [] p border_result = Some 0
  /\ Some 0 <> Some NO_INDEX
  /\ findInside comp ((q :: tail) :: rest) p true
     = findInside comp [] p border_result.
Proof.
  intros Hback Hcomp. split; [reflexivity|]. split.
  - intros E. apply NO_INDEX_not_zero. congruence.
  - assert (Hs : (size_of ((q :: tail) :: rest) <? 1) = false)
      by (apply Z.ltb_ge; unfold size_of; cbn [length]; lia).
    unfold findInside. rewrite Hs.
    cbn [fill_stats]. rewrite Hback. cbn [scan_edges]. rewrite Hcomp.
    reflexivity.
Qed.

Lemma findInside_empty_is_zero_witness :
  findInside pointLiesOnTheRightOfLine [] (mkPoint 0 0) false = Some 0
  /\ Some 0 <> Some NO_INDEX
  /\ findInside pointLiesOnTheRightOfLine
       [[mkPoint 0 0; mkPoint 100 0; mkPoint 100 100; mkPoint 0 100]]
       (mkPoint 0 0) true
     = findInside pointLiesOnTheRightOfLine [] (mkPoint 0 0) false.
Proof.
  apply (findInside_empty_is_zero pointLiesOnTheRightOfLine (mkPoint 0 0)
           false (mkPoint 0 100) (mkPoint 0 0)
           [mkPoint 100 0; mkPoint 100 100; mkPoint 0 100] []).
  - reflexivity.
  - vm_compute. reflexivity.
Defined.

(** C1, on the empty set.  No polygon of the empty set has an odd crossing
    count, so the number of such polygons is even; the result is
    nevertheless not the sentinel but 0, a valid position. *)
Theorem findInside_empty_not_sentinel (comp : classifier) (p : Point2LL)
    (border_result : bool) :
  Nat.even (count_odd comp p []) = true
  /\ findInside comp [] p border_result <> Some NO_INDEX.
Proof.
  split; [reflexivity|]. intros E. apply NO_INDEX_not_zero.
  change (findInside comp [] p border_result) with (Some 0) in E.
  congruence.
Qed.

(** ** [Polygons::operator=(Polygons&&)] *)

Lemma move_assign_runs_out (fuel : nat) (this polygons : address) (h : heap) :
  this <> polygons -> move_assign fuel this polygons h = OutOfFuel.
Proof.
  intros Hne. induction fuel as [|fuel IH]; [reflexivity|].
  cbn [move_assign]. rewrite bool_decide_true by exact Hne. exact IH.
Qed.

Lemma move_assign_returns_only_self (this polygons : address) (h h' : heap) :
  move_assign_returns this polygons h h' -> this = polygons.
Proof.
  induction 1 as [h E | h h' Hne _ IH]; [exact E | exact IH].
Qed.

(** The assignment of a temporary enters the operator with two distinct
    objects. *)
Lemma assign_temporary_runs_out (fuel : nat) (target temporary : Polygons) :
  assign_temporary fuel target temporary = OutOfFuel.
Proof.
  unfold assign_temporary.
  rewrite move_assign_runs_out by discriminate. reflexivity.
Qed.

(** C10.  For a source object distinct from the receiver the move
    assignment does not return: no amount of fuel yields a result, and no
    heap is related to the initial one by a returning call.  In particular
    the receiver never gets to hold the contours of the source. *)
Theorem move_assign_never_returns (this polygons : address) (h : heap) :
  this <> polygons ->
  (forall fuel, move_assign fuel this polygons h = OutOfFuel)
  /\ ~ exists h', move_assign_returns this polygons h h'.
Proof.
  intros Hne. split.
  - intros fuel. apply move_assign_runs_out. exact Hne.
  - intros [h' Hret]. apply Hne.
    exact (move_assign_returns_only_self _ _ _ _ Hret).
Qed.

Lemma move_assign_never_returns_witness :
  (forall fuel,
     move_assign fuel 1%positive 2%positive
       (<[2%positive := [[mkPoint 0 0; mkPoint 1 0; mkPoint 0 1]]]>
          (<[1%positive := []]> ∅))
     = OutOfFuel)
  /\ ~ exists h',
         move_assign_returns 1%positive 2%positive
           (<[2%positive := [[mkPoint 0 0; mkPoint 1 0; mkPoint 0 1]]]>
              (<[1%positive := []]> ∅)) h'.
Proof.
  apply (move_assign_never_returns 1%positive 2%positive). discriminate.
Defined.

(** Self-assignment does return, and leaves the heap as it is. *)
Lemma move_assign_self_returns (fuel : nat) (this : address) (h : heap) :
  move_assign (S fuel) this this h = Finished h.
Proof.
  cbn [move_assign]. rewrite bool_decide_false by (intros E; apply E; reflexivity).
  reflexivity.
Qed.

(** ** [Polygons::removeSmallAreaCircumference] *)

Section SmallAreaCircumference.
Variable area : Polygon -> Q.
Variable length : Polygon -> Z.
Variable min_area_size : Q.
Variable min_circumference_size : Z.
Variable remove_holes : bool.

Local Abbreviation step :=
  (small_area_step area length min_area_size min_circumference_size
     remove_holes).
Local Abbreviation filtered polys :=
  (removeSmallAreaCircumference area length polys min_area_size
     min_circumference_size remove_holes).

Lemma outline_test (poly : Polygon) :
  Qle_bool 0 (area poly) = true <-> is_outline area poly.
Proof. apply Qle_bool_iff. Qed.

Lemma hole_test (poly : Polygon) :
  is_hole area poly -> Qle_bool 0 (area poly) = false.
Proof.
  unfold is_hole. intros Hh. apply not_true_is_false. intros E.
  apply Qle_bool_iff in E. exact (Qlt_not_le _ _ Hh E).
Qed.

Lemma thresholds_test (poly : Polygon) :
  (length poly >=? min_circumference_size)
  && Qle_bool min_area_size (Qabs (area poly)) = true
  <-> meets_thresholds area length min_area_size min_circumference_size poly.
Proof.
  unfold meets_thresholds.
  rewrite andb_true_iff, Qle_bool_iff, Z.geb_le. reflexivity.
Qed.

Lemma step_kept_outline (acc : Polygons) (flag : bool) (poly : Polygon) :
  is_outline area poly ->
  meets_thresholds area length min_area_size min_circumference_size poly ->
  step (acc, flag) poly = (acc ++ [poly], false).
Proof.
  intros Ho Hm. apply outline_test in Ho. apply thresholds_test in Hm.
  unfold small_area_step. rewrite Ho, Hm. reflexivity.
Qed.

Lemma step_dropped_outline (acc : Polygons) (flag : bool) (poly : Polygon) :
  is_outline area poly ->
  ~ meets_thresholds area length min_area_size min_circumference_size poly ->
  step (acc, flag) poly = (acc, true).
Proof.
  intros Ho Hm. apply outline_test in Ho.
  rewrite <- thresholds_test in Hm. apply not_true_is_false in Hm.
  unfold small_area_step. rewrite Ho, Hm. reflexivity.
Qed.

Lemma step_orphan_hole (acc : Polygons) (poly : Polygon) :
  is_hole area poly -> step (acc, true) poly = (acc, true).
Proof.
  intros Hh. apply hole_test in Hh.
  unfold small_area_step. rewrite Hh. reflexivity.
Qed.

(** The polygons kept so far are only ever extended. *)
Lemma step_appends (acc : Polygons) (flag : bool) (poly : Polygon) :
  step (acc, flag) poly
  = (acc ++ (step ([], flag) poly).1, (step ([], flag) poly).2).
Proof.
  unfold small_area_step.
  destruct (Qle_bool 0 (area poly));
    destruct ((length poly >=? min_circumference_size)
              && Qle_bool min_area_size (Qabs (area poly)));
    destruct flag; destruct remove_holes; cbn;
    rewrite ?app_nil_r; reflexivity.
Qed.

Lemma foldl_step_appends (polys acc : Polygons) (flag : bool) :
  foldl step (acc, flag) polys
  = (acc ++ (foldl step ([], flag) polys).1,
     (foldl step ([], flag) polys).2).
Proof.
  revert acc flag. induction polys as [|poly rest IH]; intros acc flag.
  - cbn. rewrite app_nil_r. reflexivity.
  - cbn [foldl]. rewrite (step_appends acc flag poly).
    destruct (step ([], flag) poly) as [kept flag'] eqn:E. cbn [fst snd].
    rewrite (IH (acc ++ kept) flag'), (IH kept flag'). cbn [fst snd].
    rewrite app_assoc. reflexivity.
Qed.

Lemma foldl_step_orphan_holes (holes acc : Polygons) :
  Forall (is_hole area) holes -> foldl step (acc, true) holes = (acc, true).
Proof.
  induction 1 as [|poly rest Hh _ IH]; [reflexivity|].
  cbn [foldl]. rewrite step_orphan_hole by exact Hh. exact IH.
Qed.

(** An outline makes what follows independent of the flag it finds. *)
Lemma foldl_step_outline_first (poly : Polygon) (rest acc : Polygons)
    (flag : bool) :
  is_outline area poly ->
  foldl step (acc, flag) (poly :: rest)
  = foldl step (acc, false) (poly :: rest).
Proof.
  intros Ho. apply outline_test in Ho. cbn [foldl]. f_equal.
  unfold small_area_step. rewrite Ho. reflexivity.
Qed.

Lemma filtered_app (pre rest : Polygons) :
  filtered (pre ++ rest)
  = filtered pre
    ++ (foldl step ([], (foldl step ([], false) pre).2) rest).1.
Proof.
  unfold removeSmallAreaCircumference.
  rewrite foldl_app.
  destruct (foldl step ([], false) pre) as [kept flag]. cbn [fst snd].
  rewrite foldl_step_appends. reflexivity.
Qed.

Lemma filtered_kept_outline (pre rest : Polygons) (poly : Polygon) :
  is_outline area poly ->
  meets_thresholds area length min_area_size min_circumference_size poly ->
  filtered (pre ++ poly :: rest) = filtered pre ++ poly :: filtered rest.
Proof.
  intros Ho Hm. rewrite filtered_app. f_equal.
  cbn [foldl]. rewrite step_kept_outline by assumption.
  rewrite foldl_step_appends. reflexivity.
Qed.

Lemma filtered_dropped_outline (pre holes rest : Polygons) (poly : Polygon) :
  is_outline area poly ->
  ~ meets_thresholds area length min_area_size min_circumference_size poly ->
  Forall (is_hole area) holes ->
  (forall next, head rest = Some next -> is_outline area next) ->
  filtered (pre ++ poly :: holes ++ rest) = filtered pre ++ filtered rest.
Proof.
  intros Ho Hm Hholes Hnext. rewrite filtered_app. f_equal.
  cbn [foldl]. rewrite step_dropped_outline by assumption.
  rewrite foldl_app, foldl_step_orphan_holes by exact Hholes.
  destruct rest as [|next rest']; [reflexivity|].
  rewrite foldl_step_outline_first by (apply Hnext; reflexivity).
  reflexivity.
Qed.
End SmallAreaCircumference.

(** C2.  In the single pass of [removeSmallAreaCircumference]:
    an outline meeting both thresholds is appended to the result and leaves
    the parent-removed flag cleared; an outline failing a threshold is not
    appended and leaves the flag set; a hole met while the flag is set is
    not appended and leaves the flag set, whatever its area and
    circumference.  Hence a failing outline disappears together with all the
    holes that follow it up to the next outline, and with [remove_holes]
    false a failing outline followed by a hole leaves nothing. *)
Theorem removeSmallAreaCircumference_cascade (area : Polygon -> Q)
    (length : Polygon -> Z) (min_area_size : Q) (min_circumference_size : Z)
    (remove_holes : bool) (outline : Polygon) :
  is_outline area outline ->
  let step := small_area_step area length min_area_size
                min_circumference_size remove_holes in
  let filtered := fun polys remove_holes =>
    removeSmallAreaCircumference area length polys min_area_size
      min_circumference_size remove_holes in
  let meets := meets_thresholds area length min_area_size
                 min_circumference_size in
  (meets outline ->
   (forall acc flag, step (acc, flag) outline = (acc ++ [outline], false))
   /\ forall pre rest,
        filtered (pre ++ outline :: rest) remove_holes
        = filtered pre remove_holes ++ outline :: filtered rest remove_holes)
  /\ (~ meets outline ->
      (forall acc flag, step (acc, flag) outline = (acc, true))
      /\ (forall acc hole,
            is_hole area hole -> step (acc, true) hole = (acc, true))
      /\ (forall pre holes rest,
            Forall (is_hole area) holes ->
            (forall next, head rest = Some next -> is_outline area next) ->
            filtered (pre ++ outline :: holes ++ rest) remove_holes
            = filtered pre remove_holes ++ filtered rest remove_holes)
      /\ forall hole,
           is_hole area hole -> filtered [outline; hole] false = []).
Proof.
  intros Ho step filtered meets. split.
  - intros Hm. split.
    + intros acc flag. apply step_kept_outline; assumption.
    + intros pre rest. apply filtered_kept_outline; assumption.
  - intros Hm. split; [|split; [|split]].
    + intros acc flag. apply step_dropped_outline; assumption.
    + intros acc hole Hh. apply step_orphan_hole; assumption.
    + intros pre holes rest Hholes Hnext.
      apply filtered_dropped_outline; assumption.
    + intros hole Hh.
      apply (filtered_dropped_outline area length min_area_size
               min_circumference_size false [] [hole] [] outline Ho Hm).
      * constructor; [exact Hh | constructor].
      * intros next E. discriminate E.
Qed.

(** A unit square below an area threshold of 100 followed by a clockwise
    square of side 1000, and the same hole after a square that is kept. *)
Lemma removeSmallAreaCircumference_cascade_witness :
  removeSmallAreaCircumference polygon_area polygon_length
    [ [mkPoint 0 0; mkPoint 1 0; mkPoint 1 1; mkPoint 0 1];
      [mkPoint 0 0; mkPoint 0 1000; mkPoint 1000 1000; mkPoint 1000 0] ]
    100 0 false = []
  /\ removeSmallAreaCircumference polygon_area polygon_length
       ([] ++ [mkPoint 0 0; mkPoint 20 0; mkPoint 20 20; mkPoint 0 20]
           :: [[mkPoint 5 5; mkPoint 5 6; mkPoint 6 6; mkPoint 6 5]])
       100 0 false
     = removeSmallAreaCircumference polygon_area polygon_length [] 100 0 false
       ++ [mkPoint 0 0; mkPoint 20 0; mkPoint 20 20; mkPoint 0 20]
       :: removeSmallAreaCircumference polygon_area polygon_length
            [[mkPoint 5 5; mkPoint 5 6; mkPoint 6 6; mkPoint 6 5]] 100 0 false.
Proof.
  split.
  - refine (proj2 (proj2 (proj2 (proj2
      (removeSmallAreaCircumference_cascade polygon_area polygon_length
         100 0 false [mkPoint 0 0; mkPoint 1 0; mkPoint 1 1; mkPoint 0 1] _)
      _))) [mkPoint 0 0; mkPoint 0 1000; mkPoint 1000 1000; mkPoint 1000 0] _).
    + apply Qle_bool_iff. vm_compute. reflexivity.
    + intros [_ Harea]. apply Qle_bool_iff in Harea. vm_compute in Harea.
      discriminate Harea.
    + vm_compute. reflexivity.
  - refine (proj2 (proj1
      (removeSmallAreaCircumference_cascade polygon_area polygon_length
         100 0 false [mkPoint 0 0; mkPoint 20 0; mkPoint 20 20; mkPoint 0 20] _)
      _) [] [[mkPoint 5 5; mkPoint 5 6; mkPoint 6 6; mkPoint 6 5]]).
    + apply Qle_bool_iff. vm_compute. reflexivity.
    + split; [vm_compute; discriminate|].
      apply Qle_bool_iff. vm_compute. reflexivity.
Defined.

(** ** [Polygons::ensureManifold] *)

Lemma find_duplicate_locations_flat (polys : Polygons)
    (st : list Point2LL * gset Point2LL) :
  foldl (fun st poly => foldl record_location st poly) st polys
  = foldl record_location st (concat polys).
Proof.
  revert st. induction polys as [|poly rest IH]; intros st; [reflexivity|].
  cbn [foldl concat]. rewrite foldl_app. apply IH.
Qed.

Lemma record_location_recorded (st : list Point2LL * gset Point2LL)
    (visited : list Point2LL) (q : Point2LL) :
  locations_recorded st visited ->
  locations_recorded (record_location st q) (visited ++ [q]).
Proof.
  destruct st as [dups seen]. intros [Hseen Hdups]. cbn [fst snd] in *.
  unfold record_location. split; cbn [fst snd].
  - intros p. rewrite elem_of_union, elem_of_singleton, elem_of_app,
      list_elem_of_singleton, Hseen. tauto.
  - intros p. rewrite count_occ_app. cbn [count_occ].
    destruct (decide (q ∈ seen)) as [Hin|Hnin].
    + rewrite count_occ_app, Hdups. cbn [count_occ].
      apply Hseen, list_elem_of_In in Hin.
      destruct (Point2LL_eq_dec q p) as [->|Hne]; [|lia].
      apply (count_occ_In Point2LL_eq_dec) in Hin. lia.
    + rewrite Hdups.
      destruct (Point2LL_eq_dec q p) as [->|Hne]; [|lia].
      assert (Hz : count_occ Point2LL_eq_dec visited p = 0%nat).
      { apply count_occ_not_In. intros Hin. apply Hnin, Hseen.
        apply list_elem_of_In. exact Hin. }
      rewrite Hz. reflexivity.
Qed.

Lemma foldl_record_location_recorded (pts visited : list Point2LL)
    (st : list Point2LL * gset Point2LL) :
  locations_recorded st visited ->
  locations_recorded (foldl record_location st pts) (visited ++ pts).
Proof.
  revert st visited. induction pts as [|q rest IH]; intros st visited Hst.
  - rewrite app_nil_r. exact Hst.
  - cbn [foldl]. replace (visited ++ q :: rest) with ((visited ++ [q]) ++ rest)
      by (rewrite <- app_assoc; reflexivity).
    apply IH. apply record_location_recorded. exact Hst.
Qed.

Lemma duplicate_locations_count (polys : Polygons) (p : Point2LL) :
  count_occ Point2LL_eq_dec (duplicate_locations polys) p
  = pred (occurrences polys p).
Proof.
  unfold duplicate_locations, find_duplicate_locations, occurrences.
  rewrite find_duplicate_locations_flat.
  apply (foldl_record_location_recorded (concat polys) [] ([], ∅)).
  split; cbn [fst snd].
  - intros q. rewrite elem_of_empty, elem_of_nil. reflexivity.
  - intros q. reflexivity.
Qed.

Lemma duplicate_locations_elem (polys : Polygons) (p : Point2LL) :
  p ∈ duplicate_locations polys <-> (2 <= occurrences polys p)%nat.
Proof.
  rewrite list_elem_of_In, (count_occ_In Point2LL_eq_dec),
    duplicate_locations_count. lia.
Qed.

Lemma duplicate_locations_nil (polys : Polygons) :
  duplicate_locations polys = [] <-> NoDup (concat polys).
Proof.
  rewrite NoDup_ListNoDup, (NoDup_count_occ Point2LL_eq_dec). split.
  - intros E p. fold (occurrences polys p).
    pose proof (duplicate_locations_count polys p) as Hc.
    rewrite E in Hc. cbn in Hc. lia.
  - intros Hnd. destruct (duplicate_locations polys) as [|p dups] eqn:E;
      [reflexivity|]. exfalso.
    assert (Hin : p ∈ duplicate_locations polys) by (rewrite E; left).
    apply duplicate_locations_elem in Hin. specialize (Hnd p).
    unfold occurrences in Hin. lia.
Qed.

(** C3, as the code has it.  The locations found are those that occur more
    than once among all the vertices of the set, in whichever contours, one
    entry for each occurrence after the first; each gets a diamond of four
    vertices at distance 5 along the axes; when there is such a location the
    library is asked once, for the difference of the set with the diamonds;
    the set is handed back as it is, without a call to the library, exactly
    when its vertices are pairwise distinct. *)
Theorem ensureManifold_repeated_locations (polys : Polygons) :
  (forall p, count_occ Point2LL_eq_dec (duplicate_locations polys) p
             = pred (occurrences polys p))
  /\ (forall p, p ∈ duplicate_locations polys
                <-> (2 <= occurrences polys p)%nat)
  /\ (forall p, removal_dot p
                = [ mkPoint (X p) (Y p + 5); mkPoint (X p + 5) (Y p);
                    mkPoint (X p) (Y p - 5); mkPoint (X p - 5) (Y p) ])
  /\ (duplicate_locations polys <> [] ->
      forall fuel h,
        calls h (ensureManifold fuel polys)
        = [Request
             (ClipperExecute ctDifference polys
                (map removal_dot (duplicate_locations polys))
                pftEvenOdd pftEvenOdd)])
  /\ (forall fuel,
        ensureManifold fuel polys = Ret (Finished polys)
        <-> NoDup (concat polys))
  /\ (NoDup (concat polys) ->
      forall fuel h,
        run h (ensureManifold fuel polys) = Finished polys
        /\ calls h (ensureManifold fuel polys) = []).
Proof.
  split; [exact (duplicate_locations_count polys)|].
  split; [exact (duplicate_locations_elem polys)|].
  split.
  { intros [x y]. unfold removal_dot, padd. cbn [X Y].
    rewrite !Z.add_0_r. reflexivity. }
  split; [|split].
  - intros Hne fuel h. unfold ensureManifold.
    destruct (duplicate_locations polys) as [|p dups]; [contradiction|].
    reflexivity.
  - intros fuel. rewrite <- duplicate_locations_nil. unfold ensureManifold.
    destruct (duplicate_locations polys) as [|p dups]; cbn.
    + split; reflexivity.
    + split; discriminate.
  - intros Hnd fuel h. apply duplicate_locations_nil in Hnd.
    unfold ensureManifold. rewrite Hnd. split; reflexivity.
Qed.

(** A single contour that passes twice through one location: the location
    is found although no two contours share it, the library is asked for
    the difference with the diamond around it, and the set is not handed
    back as it is. *)
Lemma ensureManifold_single_contour_counterexample :
  mkPoint 0 0 ∈ duplicate_locations pinched_contour
  /\ ~ shared_by_two_contours pinched_contour (mkPoint 0 0)
  /\ (forall fuel h,
        calls h (ensureManifold fuel pinched_contour)
        = [Request
             (ClipperExecute ctDifference pinched_contour
                [[mkPoint 0 5; mkPoint 5 0; mkPoint 0 (-5); mkPoint (-5) 0]]
                pftEvenOdd pftEvenOdd)])
  /\ forall fuel,
       ensureManifold fuel pinched_contour <> Ret (Finished pinched_contour).
Proof.
  split; [|split; [|split]].
  - vm_compute. left.
  - intros (i & j & poly_i & poly_j & Hne & Hi & Hj & _).
    apply lookup_lt_Some in Hi, Hj. cbn in Hi, Hj. lia.
  - intros fuel h. vm_compute. reflexivity.
  - intros fuel. vm_compute. discriminate.
Qed.

(** ** [Polygons::remove(to_be_removed, same_distance)] *)

Lemma vSize2_nonneg (a : Point2LL) : 0 <= vSize2 a.
Proof. unfold vSize2. nia. Qed.

Lemma vSize2_psub_same (a : Point2LL) : vSize2 (psub a a) = 0.
Proof. unfold vSize2, psub. cbn [X Y]. nia. Qed.

Lemma vSize2_psub_zero (a b : Point2LL) : vSize2 (psub a b) <= 0 -> a = b.
Proof.
  destruct a as [xa ya], b as [xb yb]. unfold vSize2, psub. cbn [X Y].
  intros H.
  pose proof (Z.square_nonneg (xa - xb)) as Hx.
  pose proof (Z.square_nonneg (ya - yb)) as Hy.
  assert (Ex : (xa - xb) * (xa - xb) = 0) by lia.
  assert (Ey : (ya - yb) * (ya - yb) = 0) by lia.
  apply Z.mul_eq_0 in Ex, Ey.
  assert (xa = xb) by lia. assert (ya = yb) by lia. subst. reflexivity.
Qed.

Lemma closest_point_step (keep0 q : Point2LL) (pre : Polygon) (c : nat)
    (s : Z) :
  best_so_far keep0 pre c s ->
  let dist2 := vSize2 (psub q keep0) in
  best_so_far keep0 (pre ++ [q])
    (if (dist2 <? s) || (s <? 0) then length pre else c)
    (if (dist2 <? s) || (s <? 0) then dist2 else s).
Proof.
  intros [[-> ->] | [(a & Ha & Hmin) (a' & Ha' & ->)]] dist2.
  - rewrite orb_true_r. cbn [app length]. right. split.
    + exists q. split; [reflexivity|]. intros j b Hj.
      apply list_lookup_singleton_Some in Hj as [-> ->]. split; lia.
    + exists q. split; reflexivity.
  - assert (a' = a) by congruence. subst a'.
    pose proof (vSize2_nonneg (psub a keep0)) as Hnn.
    pose proof (lookup_lt_Some _ _ _ Ha) as Hc.
    replace (vSize2 (psub a keep0) <? 0) with false
      by (symmetry; apply Z.ltb_ge; exact Hnn).
    rewrite orb_false_r. right.
    destruct (Z.ltb_spec dist2 (vSize2 (psub a keep0))) as [Hlt|Hge].
    + split.
      * exists q. split; [apply list_lookup_middle; reflexivity|].
        intros j b Hj. apply lookup_snoc_Some in Hj as [[Hjlt Hj]|[-> <-]].
        -- destruct (Hmin j b Hj) as [Hle _]. fold dist2. split; lia.
        -- fold dist2. split; lia.
      * exists q. split; [apply list_lookup_middle; reflexivity|reflexivity].
    + split.
      * exists a. split; [apply lookup_app_l_Some; exact Ha|].
        intros j b Hj. apply lookup_snoc_Some in Hj as [[Hjlt Hj]|[-> <-]].
        -- exact (Hmin j b Hj).
        -- fold dist2. split; lia.
      * exists a. split; [apply lookup_app_l_Some; exact Ha|reflexivity].
Qed.

Lemma closest_point_best (keep0 : Point2LL) (l pre : Polygon) (c : nat)
    (s : Z) :
  best_so_far keep0 pre c s ->
  best_so_far keep0 (pre ++ l)
    (closest_point keep0 l (length pre) c s).1
    (closest_point keep0 l (length pre) c s).2.
Proof.
  revert pre c s. induction l as [|q rest IH]; intros pre c s Hbest.
  - rewrite app_nil_r. exact Hbest.
  - cbn [closest_point].
    pose proof (closest_point_step keep0 q pre c s Hbest) as Hstep.
    cbn zeta in Hstep.
    replace (pre ++ q :: rest) with ((pre ++ [q]) ++ rest)
      by (rewrite <- app_assoc; reflexivity).
    replace (S (length pre)) with (length (pre ++ [q]))
      by (rewrite length_app; cbn; lia).
    destruct ((vSize2 (psub q keep0) <? s) || (s <? 0));
      apply IH; exact Hstep.
Qed.

Lemma closest_point_spec (keep0 : Point2LL) (poly_rem : Polygon) :
  poly_rem <> [] ->
  closest_vertex poly_rem keep0 (closest_point keep0 poly_rem 0 0 (-1)).1
  /\ exists a,
       poly_rem !! (closest_point keep0 poly_rem 0 0 (-1)).1 = Some a
       /\ (closest_point keep0 poly_rem 0 0 (-1)).2 = vSize2 (psub a keep0).
Proof.
  intros Hne.
  destruct (closest_point_best keep0 poly_rem [] 0 (-1)) as [[E _]|H].
  - left. split; reflexivity.
  - contradiction.
  - exact H.
Qed.

Lemma closest_vertex_unique (poly_rem : Polygon) (keep0 : Point2LL)
    (c1 c2 : nat) :
  closest_vertex poly_rem keep0 c1 -> closest_vertex poly_rem keep0 c2 ->
  c1 = c2.
Proof.
  intros (a1 & Ha1 & H1) (a2 & Ha2 & H2).
  destruct (H1 c2 a2 Ha2) as [Hle1 Hlt1]. destruct (H2 c1 a1 Ha1) as [Hle2 Hlt2].
  destruct (Nat.lt_trichotomy c1 c2) as [Hlt|[E|Hgt]]; [|exact E|].
  - specialize (Hlt2 Hlt). lia.
  - specialize (Hlt1 Hgt). lia.
Qed.

(** The square of a tolerance of at most 46340 in absolute value fits an
    [int]; the square of any other tolerance does not. *)
Lemma int_mul_square (tol : Z) :
  -46340 <= tol <= 46340 -> int_mul tol tol = Some (tol * tol).
Proof.
  intros H. unfold int_mul, INT_MIN, INT_MAX.
  assert (Hsq : 0 <= tol * tol <= 46340 * 46340) by nia.
  destruct (Z.leb_spec (- 2 ^ 31) (tol * tol)) as [_|Hlo]; [|lia].
  destruct (Z.leb_spec (tol * tol) (2 ^ 31 - 1)) as [_|Hhi]; [|lia].
  reflexivity.
Qed.

Lemma int_mul_square_overflow (tol : Z) :
  46340 < tol \/ tol < -46340 -> int_mul tol tol = None.
Proof.
  intros H. unfold int_mul, INT_MIN, INT_MAX.
  assert (Hsq : 46341 * 46341 <= tol * tol) by nia.
  destruct (Z.leb_spec (tol * tol) (2 ^ 31 - 1)) as [Hhi|_]; [lia|].
  rewrite andb_false_r. reflexivity.
Qed.

Lemma same_points_spec (poly_rem poly_keep : Polygon) (c : nat) (tol : Z)
    (idxs : list nat) :
  int_mul tol tol = Some (tol * tol) ->
  length poly_rem = length poly_keep ->
  (forall i, i ∈ idxs -> (i < length poly_keep)%nat) ->
  exists matched,
    same_points poly_rem poly_keep c tol idxs = Some matched
    /\ (matched = true
        <-> forall i, i ∈ idxs ->
              exists a b,
                poly_rem !! ((c + i) mod length poly_rem)%nat = Some a
                /\ poly_keep !! i = Some b
                /\ vSize2 (psub a b) <= tol * tol).
Proof.
  intros Hmul Hlen.
  induction idxs as [|i rest IH]; intros Hrange; cbn [same_points].
  - exists true. split; [reflexivity|]. split; [|reflexivity].
    intros _ i Hi. inversion Hi.
  - assert (Hi : (i < length poly_keep)%nat) by (apply Hrange; left).
    destruct (lookup_lt_is_Some_2 poly_rem
                ((c + i) mod length poly_rem)%nat) as [a Ea].
    { apply Nat.mod_upper_bound. lia. }
    destruct (lookup_lt_is_Some_2 poly_keep i Hi) as [b Eb].
    rewrite Ea, Eb, Hmul. cbn [mbind option_bind].
    destruct (Z.gtb_spec (vSize2 (psub a b)) (tol * tol)) as [Hgt|Hle].
    + exists false. split; [reflexivity|]. split; [discriminate|].
      intros H. destruct (H i) as (a' & b' & Ha' & Hb' & Hd); [left|].
      rewrite Ea in Ha'. rewrite Eb in Hb'.
      assert (a' = a) by congruence. assert (b' = b) by congruence.
      subst. lia.
    + destruct IH as (matched & Hrun & Hmatched).
      { intros j Hj. apply Hrange. right. exact Hj. }
      exists matched. split; [exact Hrun|]. rewrite Hmatched. split.
      * intros H j Hj. apply elem_of_cons in Hj as [->|Hj]; [|exact (H j Hj)].
        exists a, b. repeat split; assumption.
      * intros H j Hj. apply H. right. exact Hj.
Qed.

Lemma poly_rem_is_poly_keep_spec (poly_keep poly_rem : Polygon)
    (keep0 : Point2LL) (tol : Z) :
  int_mul tol tol = Some (tol * tol) ->
  poly_keep !! 0%nat = Some keep0 ->
  exists matched,
    poly_rem_is_poly_keep poly_keep poly_rem keep0 tol = Some matched
    /\ (matched = true <-> aligned_within tol poly_keep poly_rem).
Proof.
  intros Hmul Hk0. pose proof (lookup_lt_Some _ _ _ Hk0) as Hklen.
  unfold poly_rem_is_poly_keep.
  destruct (Nat.eqb_spec (length poly_rem) (length poly_keep)) as [Hlen|Hlen];
    cbn [negb orb].
  2:{ exists false. split; [reflexivity|]. split; [discriminate|].
      intros (k & c & _ & E & _). contradiction. }
  destruct (Nat.eqb_spec (length poly_rem) 0) as [Hz|Hnz]; [lia|].
  assert (Hne : poly_rem <> []) by (intros ->; apply Hnz; reflexivity).
  destruct (closest_point_spec keep0 poly_rem Hne) as [Hclosest (a & Ha & Hs)].
  destruct (closest_point keep0 poly_rem 0 0 (-1)) as [c s]. cbn [fst snd] in *.
  subst s. rewrite Hmul. cbn [mbind option_bind].
  destruct (Z.gtb_spec (vSize2 (psub a keep0)) (tol * tol)) as [Hgt|Hle].
  - exists false. split; [reflexivity|]. split; [discriminate|].
    intros (k & c' & Hk & _ & Hc' & Hdist & _).
    assert (k = keep0) by congruence. subst k.
    assert (c' = c) by (eapply closest_vertex_unique; eassumption). subst c'.
    specialize (Hdist a Ha). lia.
  - destruct (same_points_spec poly_rem poly_keep c tol
                (seq 0 (length poly_rem)) Hmul Hlen)
      as (matched & Hrun & Hmatched).
    { intros i Hi. apply elem_of_seq in Hi. lia. }
    exists matched. split; [exact Hrun|]. rewrite Hmatched. split.
    + intros Hall. exists keep0, c. repeat split; try assumption.
      * intros a' Ha'. assert (a' = a) by congruence. subst. exact Hle.
      * intros i a' b' Ha' Hb'.
        destruct (Hall i) as (a'' & b'' & Ha'' & Hb'' & Hd).
        { apply elem_of_seq. apply lookup_lt_Some in Hb'. lia. }
        assert (a'' = a') by congruence. assert (b'' = b') by congruence.
        subst. exact Hd.
    + intros (k & c' & Hk & _ & Hc' & _ & Hpairs) i Hi.
      assert (k = keep0) by congruence. subst k.
      assert (c' = c) by (eapply closest_vertex_unique; eassumption). subst c'.
      apply elem_of_seq in Hi.
      destruct (lookup_lt_is_Some_2 poly_rem
                  ((c + i) mod length poly_rem)%nat) as [a' Ha'].
      { apply Nat.mod_upper_bound. exact Hnz. }
      destruct (lookup_lt_is_Some_2 poly_keep i) as [b' Hb']; [lia|].
      exists a', b'. repeat split; try assumption.
      exact (Hpairs i a' b' Ha' Hb').
Qed.

Lemma should_be_removed_spec (poly_keep : Polygon) (keep0 : Point2LL)
    (to_be_removed : Polygons) (tol : Z) :
  int_mul tol tol = Some (tol * tol) ->
  poly_keep !! 0%nat = Some keep0 ->
  exists excluded,
    should_be_removed poly_keep keep0 to_be_removed tol = Some excluded
    /\ (excluded = true
        <-> exists poly_rem,
              poly_rem ∈ to_be_removed
              /\ aligned_within tol poly_keep poly_rem).
Proof.
  intros Hmul Hk0.
  induction to_be_removed as [|r rest IH]; cbn [should_be_removed].
  - exists false. split; [reflexivity|]. split; [discriminate|].
    intros (r & Hin & _). inversion Hin.
  - destruct (poly_rem_is_poly_keep_spec poly_keep r keep0 tol Hmul Hk0)
      as (matched & -> & Hmatched).
    cbn [mbind option_bind]. destruct matched.
    + exists true. split; [reflexivity|]. split; [|reflexivity].
      intros _. exists r. split; [left|]. apply Hmatched. reflexivity.
    + destruct IH as (excluded & Hrun & Hexcluded).
      exists excluded. split; [exact Hrun|]. rewrite Hexcluded. split.
      * intros (r' & Hin & Hr'). exists r'. split; [right; exact Hin|exact Hr'].
      * intros (r' & Hin & Hr'). apply elem_of_cons in Hin as [->|Hin].
        -- apply Hmatched in Hr'. discriminate Hr'.
        -- exists r'. split; assumption.
Qed.

Lemma is_excluded_spec (poly_keep : Polygon) (to_be_removed : Polygons)
    (tol : Z) :
  int_mul tol tol = Some (tol * tol) ->
  exists excluded,
    is_excluded poly_keep to_be_removed tol = Some excluded
    /\ (excluded = true
        <-> exists poly_rem,
              poly_rem ∈ to_be_removed
              /\ aligned_within tol poly_keep poly_rem).
Proof.
  intros Hmul. destruct poly_keep as [|keep0 tail]; cbn [is_excluded].
  - exists false. split; [reflexivity|]. split; [discriminate|].
    intros (r & _ & (k & c & Hk & _)). discriminate Hk.
  - apply should_be_removed_spec; [exact Hmul|reflexivity].
Qed.

Lemma Polygons_remove_filter (polys to_be_removed : Polygons) (tol : Z) :
  int_mul tol tol = Some (tol * tol) ->
  Polygons_remove polys to_be_removed tol
  = Some (filter (fun poly_keep =>
                    is_excluded poly_keep to_be_removed tol = Some false)
            polys).
Proof.
  intros Hmul. induction polys as [|k rest IH]; [reflexivity|].
  cbn [Polygons_remove]. rewrite filter_cons, IH.
  destruct (is_excluded_spec k to_be_removed tol Hmul) as (excluded & -> & _).
  cbn [mbind option_bind]. destruct excluded.
  - rewrite decide_False by discriminate. reflexivity.
  - rewrite decide_True by reflexivity. reflexivity.
Qed.

(** Beyond that bound the square is not defined, and neither is the result
    once a polygon with vertices meets a polygon of the same size. *)
Lemma Polygons_remove_overflow (poly_keep poly_rem : Polygon)
    (polys to_be_removed : Polygons) (tol : Z) :
  46340 < tol \/ tol < -46340 ->
  poly_keep <> [] -> length poly_rem = length poly_keep ->
  Polygons_remove (poly_keep :: polys) (poly_rem :: to_be_removed) tol = None.
Proof.
  intros Htol Hne Hlen. apply int_mul_square_overflow in Htol.
  destruct poly_keep as [|keep0 tail]; [contradiction|].
  cbn [Polygons_remove is_excluded should_be_removed].
  unfold poly_rem_is_poly_keep.
  rewrite Hlen, Nat.eqb_refl. cbn [negb orb length Nat.eqb].
  destruct (closest_point keep0 poly_rem 0 0 (-1)) as [c s].
  rewrite Htol. reflexivity.
Qed.

Lemma aligned_within_self (tol : Z) (poly_keep : Polygon) :
  poly_keep <> [] -> aligned_within tol poly_keep poly_keep.
Proof.
  destruct poly_keep as [|keep0 tail]; [contradiction|]. intros _.
  exists keep0, 0%nat. split; [reflexivity|]. split; [reflexivity|].
  assert (Hsq : 0 <= tol * tol) by apply Z.square_nonneg.
  split; [|split].
  - exists keep0. split; [reflexivity|]. intros j b _.
    rewrite vSize2_psub_same. pose proof (vSize2_nonneg (psub b keep0)).
    split; lia.
  - intros a Ha. cbn in Ha. assert (a = keep0) by congruence. subst.
    rewrite vSize2_psub_same. exact Hsq.
  - intros i a b Ha Hb. pose proof (lookup_lt_Some _ _ _ Hb) as Hi.
    rewrite Nat.add_0_l, Nat.mod_small in Ha by exact Hi.
    assert (a = b) by congruence. subst.
    rewrite vSize2_psub_same. exact Hsq.
Qed.

Lemma rotate_nat_add_mod (c i n : nat) :
  n <> 0%nat -> rotate_nat_add c i n = ((c + i) mod n)%nat.
Proof.
  intros Hn. unfold rotate_nat_add.
  rewrite <- Nat2Z.inj_add, <- Nat2Z.inj_mod, Nat2Z.id. reflexivity.
Qed.

Lemma rotate_Permutation {A} (c : nat) (l : list A) : rotate c l ≡ₚ l.
Proof.
  unfold rotate. rewrite Permutation_app_comm, take_drop. reflexivity.
Qed.

Lemma count_occ_insert_other (l : Polygon) (i : nat) (v q : Point2LL) :
  l !! i = Some v -> q <> v ->
  count_occ Point2LL_eq_dec (<[i := q]> l) q
  = S (count_occ Point2LL_eq_dec l q).
Proof.
  revert i. induction l as [|x rest IH]; intros i Hi Hne; [discriminate Hi|].
  destruct i as [|i]; cbn in Hi.
  - assert (x = v) by congruence. subst x.
    change (<[0%nat := q]> (v :: rest)) with (q :: rest). cbn [count_occ].
    destruct (Point2LL_eq_dec q q) as [_|N]; [|contradiction].
    destruct (Point2LL_eq_dec v q) as [E|_]; [congruence|reflexivity].
  - change (<[S i := q]> (x :: rest)) with (x :: <[i := q]> rest).
    cbn [count_occ]. rewrite (IH i Hi Hne).
    destruct (Point2LL_eq_dec x q); reflexivity.
Qed.

(** With a tolerance of zero a match makes the kept polygon a rotation of
    the other one. *)
Lemma aligned_within_zero_rotation (poly_keep poly_rem : Polygon) :
  aligned_within 0 poly_keep poly_rem -> poly_keep ≡ₚ poly_rem.
Proof.
  intros (keep0 & c & Hk0 & Hlen & _ & _ & Hpairs).
  pose proof (lookup_lt_Some _ _ _ Hk0) as Hpos.
  assert (E : poly_keep = rotate c poly_rem).
  { apply list_eq. intros i.
    destruct (decide (i < length poly_keep)%nat) as [Hi|Hi].
    - rewrite lookup_rotate_r, rotate_nat_add_mod by lia.
      destruct (lookup_lt_is_Some_2 poly_keep i Hi) as [b Hb].
      destruct (lookup_lt_is_Some_2 poly_rem
                  ((c + i) mod length poly_rem)%nat) as [a Ha].
      { apply Nat.mod_upper_bound. lia. }
      rewrite Ha, Hb. f_equal. symmetry. apply vSize2_psub_zero.
      exact (Hpairs i a b Ha Hb).
    - rewrite !lookup_ge_None_2; [reflexivity| |]; rewrite ?length_rotate; lia. }
  rewrite E at 1. apply rotate_Permutation.
Qed.

Lemma aligned_within_mono (tol tol' : Z) (poly_keep poly_rem : Polygon) :
  tol * tol <= tol' * tol' ->
  aligned_within tol poly_keep poly_rem ->
  aligned_within tol' poly_keep poly_rem.
Proof.
  intros Hle (keep0 & c & Hk0 & Hlen & Hc & Hdist & Hpairs).
  exists keep0, c. repeat split; try assumption.
  - intros a Ha. specialize (Hdist a Ha). lia.
  - intros i a b Ha Hb. specialize (Hpairs i a b Ha Hb). lia.
Qed.

Lemma is_excluded_exact_duplicate (poly_keep : Polygon)
    (to_be_removed : Polygons) :
  poly_keep <> [] -> poly_keep ∈ to_be_removed ->
  is_excluded poly_keep to_be_removed 0 = Some true.
Proof.
  intros Hne Hin.
  destruct (is_excluded_spec poly_keep to_be_removed 0 eq_refl)
    as (excluded & -> & Hexcluded).
  f_equal. apply Hexcluded. exists poly_keep.
  split; [exact Hin|]. apply aligned_within_self. exact Hne.
Qed.

Lemma is_excluded_perturbed (poly_keep : Polygon) (i : nat)
    (v q : Point2LL) :
  poly_keep !! i = Some v -> q <> v ->
  is_excluded poly_keep [<[i := q]> poly_keep] 0 = Some false.
Proof.
  intros Hi Hne.
  destruct (is_excluded_spec poly_keep [<[i := q]> poly_keep] 0 eq_refl)
    as (excluded & -> & Hexcluded).
  f_equal. apply not_true_is_false. intros Hex.
  apply Hexcluded in Hex as (r & Hin & Hal).
  apply list_elem_of_singleton in Hin. subst r.
  apply aligned_within_zero_rotation in Hal.
  pose proof (proj1 (Permutation_count_occ Point2LL_eq_dec _ _) Hal q) as Hc.
  rewrite (count_occ_insert_other _ _ v q Hi Hne) in Hc. lia.
Qed.

(** C7.  For a tolerance whose square fits an [int], of at most 46340 in
    absolute value, [remove] returns and keeps, in order, the polygons that
    are not excluded; a kept polygon is excluded exactly when
    [to_be_removed] holds a polygon with the same number of vertices that,
    rotated so that its vertex closest to the first vertex of the kept
    polygon comes first, is within the tolerance vertex by vertex, the
    closest vertex included.  With a tolerance of zero a polygon with
    vertices that also occurs in [to_be_removed] is removed, and a polygon
    is kept when [to_be_removed] holds only a copy of it with one vertex
    moved.  For a larger tolerance the square of the tolerance, taken in
    [int], overflows as soon as a polygon with vertices is compared with one
    of the same size: with a tolerance of 65536 the result for a triangle
    and a copy of it with one vertex moved by one unit, which lies within
    the tolerance, is not defined. *)
Theorem Polygons_remove_aligned :
  (forall (polys to_be_removed : Polygons) (tolerance : Z),
     -46340 <= tolerance <= 46340 ->
     Polygons_remove polys to_be_removed tolerance
     = Some (filter (fun poly_keep =>
                       is_excluded poly_keep to_be_removed tolerance
                       = Some false) polys)
     /\ (forall poly_keep,
           exists excluded,
             is_excluded poly_keep to_be_removed tolerance = Some excluded
             /\ (excluded = true
                 <-> exists poly_rem,
                       poly_rem ∈ to_be_removed
                       /\ aligned_within tolerance poly_keep poly_rem))
     /\ exists result,
          Polygons_remove polys to_be_removed tolerance = Some result
          /\ forall poly_keep,
               poly_keep ∈ result
               <-> poly_keep ∈ polys
                   /\ ~ exists poly_rem,
                          poly_rem ∈ to_be_removed
                          /\ aligned_within tolerance poly_keep poly_rem)
  /\ (forall (polys to_be_removed : Polygons) (poly_keep : Polygon),
        poly_keep <> [] -> poly_keep ∈ to_be_removed ->
        exists result,
          Polygons_remove polys to_be_removed 0 = Some result
          /\ poly_keep ∉ result)
  /\ (forall (polys : Polygons) (poly_keep : Polygon) (i : nat)
        (v q : Point2LL),
        poly_keep ∈ polys -> poly_keep !! i = Some v -> q <> v ->
        exists result,
          Polygons_remove polys [<[i := q]> poly_keep] 0 = Some result
          /\ poly_keep ∈ result)
  /\ (forall (poly_keep poly_rem : Polygon) (polys to_be_removed : Polygons)
        (tolerance : Z),
        46340 < tolerance \/ tolerance < -46340 ->
        poly_keep <> [] -> length poly_rem = length poly_keep ->
        Polygons_remove (poly_keep :: polys) (poly_rem :: to_be_removed)
          tolerance = None)
  /\ (aligned_within 65536
        [mkPoint 0 0; mkPoint 10 0; mkPoint 0 10]
        [mkPoint 1 0; mkPoint 10 0; mkPoint 0 10]
      /\ Polygons_remove [[mkPoint 0 0; mkPoint 10 0; mkPoint 0 10]]
           [[mkPoint 1 0; mkPoint 10 0; mkPoint 0 10]] 1
         = Some []
      /\ Polygons_remove [[mkPoint 0 0; mkPoint 10 0; mkPoint 0 10]]
           [[mkPoint 1 0; mkPoint 10 0; mkPoint 0 10]] 65536
         = None).
Proof.
  split; [|split; [|split; [|split]]].
  - intros polys to_be_removed tolerance Htol.
    pose proof (int_mul_square tolerance Htol) as Hmul.
    split; [apply Polygons_remove_filter; exact Hmul|].
    split; [intros k; apply is_excluded_spec; exact Hmul|].
    eexists. split; [apply Polygons_remove_filter; exact Hmul|].
    intros k. rewrite list_elem_of_filter.
    destruct (is_excluded_spec k to_be_removed tolerance Hmul)
      as (excluded & -> & Hexcluded).
    rewrite <- Hexcluded. destruct excluded; split.
    + intros [E _]. discriminate E.
    + intros [_ N]. exfalso. apply N. reflexivity.
    + intros [_ Hin]. split; [exact Hin|discriminate].
    + intros [Hin _]. split; [reflexivity|exact Hin].
  - intros polys to_be_removed k Hne Hin. eexists.
    split; [apply Polygons_remove_filter; reflexivity|].
    rewrite list_elem_of_filter.
    rewrite is_excluded_exact_duplicate by assumption.
    intros [E _]. discriminate E.
  - intros polys k i v q Hin Hi Hne. eexists.
    split; [apply Polygons_remove_filter; reflexivity|].
    rewrite list_elem_of_filter.
    split; [|exact Hin]. exact (is_excluded_perturbed k i v q Hi Hne).
  - intros poly_keep poly_rem polys to_be_removed tolerance.
    apply Polygons_remove_overflow.
  - split; [|split; vm_compute; reflexivity].
    apply (aligned_within_mono 1); [lia|].
    destruct (is_excluded_spec [mkPoint 0 0; mkPoint 10 0; mkPoint 0 10]
                [[mkPoint 1 0; mkPoint 10 0; mkPoint 0 10]] 1 eq_refl)
      as (excluded & Hrun & Hexcluded).
    assert (E : excluded = true) by (vm_compute in Hrun; congruence).
    apply Hexcluded in E as (r & Hin & Hal).
    apply list_elem_of_singleton in Hin. subst r. exact Hal.
Qed.

(** ** [LinesSet::removeDegenerateVertsForEveryone] *)

(** The routine uses the length function through its values only. *)
Section LengthFunctions.
Variables vSize vSize' : length_fn.
Hypothesis same_lengths : forall v, vSize v = vSize' v.

Lemma isDegenerate_ext (last now next : Point2LL) :
  isDegenerate vSize last now next = isDegenerate vSize' last now next.
Proof. unfold isDegenerate. rewrite !same_lengths. reflexivity. Qed.

Lemma pop_degenerate_ext (next : Point2LL) (fuel : nat) (result : Polygon) :
  pop_degenerate vSize next fuel result
  = pop_degenerate vSize' next fuel result.
Proof.
  revert result. induction fuel as [|fuel IH]; intros result; [reflexivity|].
  cbn [pop_degenerate].
  destruct (1 <? length result)%nat; [|reflexivity].
  destruct (result !! (length result - 2)%nat) as [a|]; [|reflexivity].
  destruct (back result) as [b|]; [|reflexivity].
  rewrite isDegenerate_ext, IH. reflexivity.
Qed.

Lemma verts_loop_ext (poly : Polygon) (idxs : list nat) (result : Polygon)
    (isChanged : bool) :
  verts_loop vSize poly idxs result isChanged
  = verts_loop vSize' poly idxs result isChanged.
Proof.
  revert result isChanged.
  induction idxs as [|idx rest IH]; intros result isChanged; [reflexivity|].
  cbn [verts_loop].
  destruct (if (length result =? 0)%nat then back poly else back result)
    as [last|]; [|reflexivity].
  cbn [mbind option_bind].
  destruct ((length poly <=? idx + 1)%nat && (length result =? 0)%nat);
    [reflexivity|].
  destruct (if (length poly <=? idx + 1)%nat
            then result !! 0%nat else poly !! (idx + 1)%nat) as [next|];
    [|reflexivity].
  cbn [mbind option_bind].
  destruct (poly !! idx) as [now|]; [|reflexivity].
  cbn [mbind option_bind].
  rewrite isDegenerate_ext, pop_degenerate_ext, !IH. reflexivity.
Qed.

Lemma removeDegenerateVerts_ext (for_polyline : bool) (poly : Polygon) :
  removeDegenerateVerts vSize for_polyline poly
  = removeDegenerateVerts vSize' for_polyline poly.
Proof.
  unfold removeDegenerateVerts.
  destruct (copy_verts poly (seq 0 (if for_polyline then 1%nat else 0%nat)))
    as [before|]; [|reflexivity].
  cbn [mbind option_bind]. rewrite verts_loop_ext. reflexivity.
Qed.

Lemma everyone_loop_ext (for_polyline : bool) (fuel : nat) (poly_idx : Z)
    (polys : Polygons) :
  everyone_loop vSize for_polyline fuel poly_idx polys
  = everyone_loop vSize' for_polyline fuel poly_idx polys.
Proof.
  revert poly_idx polys.
  induction fuel as [|fuel IH]; intros poly_idx polys; [reflexivity|].
  cbn [everyone_loop].
  destruct (poly_idx <? size_of polys); [|reflexivity].
  destruct (polys !! Z.to_nat poly_idx) as [poly|]; [|reflexivity].
  rewrite removeDegenerateVerts_ext.
  destruct (removeDegenerateVerts vSize' for_polyline poly)
    as [[result isChanged]|]; [|reflexivity].
  rewrite !IH. reflexivity.
Qed.

Lemma removeDegenerateVertsForEveryone_ext (shape_type : ShapeType)
    (polys : Polygons) :
  removeDegenerateVertsForEveryone vSize shape_type polys
  = removeDegenerateVertsForEveryone vSize' shape_type polys.
Proof. unfold removeDegenerateVertsForEveryone. apply everyone_loop_ext. Qed.

Lemma removeDegenerateVertsForEveryone_twice_ext (shape_type : ShapeType)
    (polys : Polygons) :
  removeDegenerateVertsForEveryone_twice vSize shape_type polys
  = removeDegenerateVertsForEveryone_twice vSize' shape_type polys.
Proof.
  unfold removeDegenerateVertsForEveryone_twice.
  rewrite removeDegenerateVertsForEveryone_ext.
  destruct (removeDegenerateVertsForEveryone vSize' shape_type polys);
    try reflexivity.
  apply removeDegenerateVertsForEveryone_ext.
Qed.
End LengthFunctions.

Lemma vSize_floor_exact_on_axes : exact_on_axes vSize_floor.
Proof.
  split; intros k; unfold vSize_floor, vSize2; cbn [X Y];
    rewrite Z.mul_0_l, ?Z.add_0_r, ?Z.add_0_l;
    rewrite <- Z.abs_square; apply Z.sqrt_square; apply Z.abs_nonneg.
Qed.

Lemma axes_first_same (vSize : length_fn) :
  exact_on_axes vSize -> forall v, vSize v = axes_first vSize v.
Proof.
  intros [Hx Hy] [x y]. unfold axes_first. cbn [X Y].
  destruct (Z.eqb_spec y 0) as [->|_]; [apply Hx|].
  destruct (Z.eqb_spec x 0) as [->|_]; [apply Hy|reflexivity].
Qed.

(** C6, at a closed contour with a spike.  The first run drops the tip
    (10, 0) of the spike, the last vertex; the first vertex (0, 0) was
    compared with the tip before the tip went, and stays.  In the result it
    lies between (-5, 0) and (-3, 0), on a segment run back and forth, and
    the second run drops it: running twice is not the same as running
    once. *)
Theorem removeDegenerateVerts_not_idempotent (vSize : length_fn) :
  exact_on_axes vSize ->
  removeDegenerateVertsForEveryone vSize Closed spike_contour
  = Finished [[ mkPoint 0 0; mkPoint (-3) 0; mkPoint (-3) 7; mkPoint (-5) 7;
                mkPoint (-5) 0 ]]
  /\ removeDegenerateVertsForEveryone_twice vSize Closed spike_contour
     = Finished [[ mkPoint (-3) 0; mkPoint (-3) 7; mkPoint (-5) 7;
                   mkPoint (-5) 0 ]]
  /\ removeDegenerateVertsForEveryone_twice vSize Closed spike_contour
     <> removeDegenerateVertsForEveryone vSize Closed spike_contour.
Proof.
  intros Hexact. pose proof (axes_first_same vSize Hexact) as Hsame.
  rewrite (removeDegenerateVertsForEveryone_ext _ _ Hsame).
  rewrite (removeDegenerateVertsForEveryone_twice_ext _ _ Hsame).
  split; [vm_compute; reflexivity|].
  split; [vm_compute; reflexivity|].
  vm_compute. discriminate.
Qed.

Lemma removeDegenerateVerts_not_idempotent_witness :
  removeDegenerateVertsForEveryone vSize_floor Closed spike_contour
  = Finished [[ mkPoint 0 0; mkPoint (-3) 0; mkPoint (-3) 7; mkPoint (-5) 7;
                mkPoint (-5) 0 ]]
  /\ removeDegenerateVertsForEveryone_twice vSize_floor Closed spike_contour
     = Finished [[ mkPoint (-3) 0; mkPoint (-3) 7; mkPoint (-5) 7;
                   mkPoint (-5) 0 ]]
  /\ removeDegenerateVertsForEveryone_twice vSize_floor Closed spike_contour
     <> removeDegenerateVertsForEveryone vSize_floor Closed spike_contour.
Proof.
  apply (removeDegenerateVerts_not_idempotent vSize_floor).
  exact vSize_floor_exact_on_axes.
Defined.

(** ** The smoothing action *)

(** A window is left alone as soon as the first test fails, whatever the
    angles are. *)
Lemma window_not_selected (fl : float_ops) (max_resolution : Z)
    (fluid_angle : double fl) (p0 p1 p2 p3 : Point2LL) :
  max_resolution * max_resolution <= distance_squared p1 p2 ->
  window_selected fl max_resolution fluid_angle p0 p1 p2 p3 = false.
Proof.
  intros H. unfold window_selected.
  replace (distance_squared p1 p2 <? max_resolution * max_resolution)
    with false by (symmetry; apply Z.ltb_ge; exact H).
  reflexivity.
Qed.

Lemma smooth_window_selected (fl : float_ops)
    (max_resolution smooth_distance : Z) (fluid_angle : double fl) (size : Z)
    (i : nat) (st : smooth_state) (p0 p1 p2 p3 : Point2LL) :
  pts st !! i = Some p0 -> pts st !! (i + 1)%nat = Some p1 ->
  pts st !! (i + 2)%nat = Some p2 -> pts st !! (i + 3)%nat = Some p3 ->
  window_selected fl max_resolution fluid_angle p0 p1 p2 p3 = false ->
  smooth_window fl max_resolution smooth_distance fluid_angle size i st
  = Some st.
Proof.
  intros H0 H1 H2 H3 Hsel. unfold smooth_window, window_selected in *.
  rewrite H1, H2. cbn [mbind option_bind].
  destruct (distance_squared p1 p2 <? max_resolution * max_resolution);
    [|reflexivity].
  rewrite H0, H3. cbn [mbind option_bind]. cbn [andb] in Hsel.
  rewrite Hsel. reflexivity.
Qed.

(** C4.  The test that decides whether a window is acted upon compares with
    [max_resolution] squared the dot product of the two middle points, not
    the squared length of the segment between them.  A window whose middle
    segment from (100, 0) to (101, 0) has squared length 1, below
    [max_resolution] 10 squared, and whose outer segments from (0, 0) and to
    (101, 100) make a right angle, a deviation not below a [fluid_angle] of
    5 degrees, is not acted upon: the loop body leaves the range as it is,
    for every floating-point arithmetic, smoothing distance, angle, outer
    points and further points of the range.  A window whose middle segment
    from (5, 0) to (3, 1000) has squared length 1000004 passes the first
    test with [max_resolution] 10 and is acted upon whenever the angle test
    lets it: with the stand-in arithmetic the end point (5, 0) is rewritten
    to (4, 0). *)
Theorem smooth_window_tests_dot_product (fl : float_ops)
    (smooth_distance size : Z) (fluid_angle : double fl)
    (p0 p3 : Point2LL) (tail : Polygon) :
  (vSize2 (psub (mkPoint 101 0) (mkPoint 100 0)) = 1
   /\ 1 < 10 * 10
   /\ distance_squared (mkPoint 100 0) (mkPoint 101 0) = 10100
   /\ short_middle_and_deviating rational_floats 10 5%Q (mkPoint 0 0)
        (mkPoint 100 0) (mkPoint 101 0) (mkPoint 101 100)
   /\ window_selected fl 10 fluid_angle p0 (mkPoint 100 0) (mkPoint 101 0) p3
      = false
   /\ smooth_window fl 10 smooth_distance fluid_angle size 0
        {| pts := p0 :: mkPoint 100 0 :: mkPoint 101 0 :: p3 :: tail;
           to_remove := ∅ |}
      = Some {| pts := p0 :: mkPoint 100 0 :: mkPoint 101 0 :: p3 :: tail;
                to_remove := ∅ |})
  /\ (vSize2 (psub (mkPoint 3 1000) (mkPoint 5 0)) = 1000004
      /\ 10 * 10 <= 1000004
      /\ distance_squared (mkPoint 5 0) (mkPoint 3 1000) = 15
      /\ window_selected fl 10 fluid_angle p0 (mkPoint 5 0)
           (mkPoint 3 1000) p3
         = negb (withinDeviation fl p0 (mkPoint 5 0) (mkPoint 3 1000) p3
                   fluid_angle)
      /\ smooth_window rational_floats 10 5 5%Q 3 0
           {| pts := [ mkPoint (-995) 0; mkPoint 5 0; mkPoint 3 1000;
                       mkPoint 1003 1000 ];
              to_remove := ∅ |}
         = Some {| pts := [ mkPoint (-995) 0; mkPoint 4 0; mkPoint 3 1000;
                            mkPoint 1003 1000 ];
                   to_remove := ∅ |}).
Proof.
  assert (Hsel : window_selected fl 10 fluid_angle p0 (mkPoint 100 0)
                   (mkPoint 101 0) p3 = false)
    by (apply window_not_selected; vm_compute; discriminate).
  split.
  - split; [reflexivity|]. split; [lia|]. split; [reflexivity|].
    split; [split; vm_compute; reflexivity|].
    split; [exact Hsel|].
    apply (smooth_window_selected fl 10 smooth_distance fluid_angle size 0 _
             p0 (mkPoint 100 0) (mkPoint 101 0) p3);
      first [reflexivity | exact Hsel].
  - split; [reflexivity|]. split; [lia|]. split; [reflexivity|].
    split; [reflexivity|]. vm_compute. reflexivity.
Qed.

(** ** [Polygons::findInside] on sets that are not empty *)

Lemma foldr_min_init (x m : Z) (l : list Z) :
  foldr Z.min (Z.min x m) l = Z.min x (foldr Z.min m l).
Proof. induction l as [|y l IH]; cbn; [reflexivity|]. rewrite IH. lia. Qed.

Section FindInside.
Variable comp : classifier.
Variable p : Point2LL.

Local Abbreviation right_of := (fun e : Point2LL * Point2LL => comp p e.1 e.2 = 1).

(** The inner loop when it is not left early. *)
Lemma scan_edges_counts (border_result : bool) (pts : Polygon)
    (p0 : Point2LL) (crossings min_x : Z) :
  (border_result = true ->
   forall e, e ∈ edges_from p0 pts -> comp p e.1 e.2 <> 0) ->
  scan_edges comp p border_result p0 pts crossings min_x
  = Some (crossings + Z.of_nat (length (filter right_of (edges_from p0 pts))),
          foldr Z.min min_x
            (map (fun e => crossing_x p e.1 e.2)
               (filter right_of (edges_from p0 pts)))).
Proof.
  revert p0 crossings min_x.
  induction pts as [|p1 rest IH]; intros p0 crossings min_x Hnb.
  - cbn. rewrite Z.add_0_r. reflexivity.
  - cbn [scan_edges edges_from]. rewrite filter_cons. cbn [fst snd].
    destruct (Z.eqb_spec (comp p p0 p1) 1) as [E1|N1].
    + rewrite decide_True by exact E1. cbn [length map foldr].
      rewrite IH by (intros Hb e He; apply (Hnb Hb); right; exact He).
      f_equal. f_equal; [lia|].
      replace (if crossing_x p p0 p1 <? min_x then crossing_x p p0 p1
               else min_x) with (Z.min (crossing_x p p0 p1) min_x)
        by (destruct (Z.ltb_spec (crossing_x p p0 p1) min_x); lia).
      apply foldr_min_init.
    + rewrite decide_False by exact N1.
      destruct border_result; cbn [andb].
      * destruct (Z.eqb_spec (comp p p0 p1) 0) as [E0|_].
        { exfalso. apply (Hnb eq_refl (p0, p1)); [left|exact E0]. }
        apply IH. intros Hb e He. apply (Hnb Hb). right. exact He.
      * apply IH. intros Hb. discriminate Hb.
Qed.

(** The inner loop when the point lies on an edge. *)
Lemma scan_edges_border (pts : Polygon) (p0 : Point2LL)
    (crossings min_x : Z) :
  (exists e, e ∈ edges_from p0 pts /\ comp p e.1 e.2 = 0) ->
  scan_edges comp p true p0 pts crossings min_x = None.
Proof.
  revert p0 crossings min_x.
  induction pts as [|p1 rest IH]; intros p0 crossings min_x (e & He & E0).
  - inversion He.
  - cbn [scan_edges edges_from] in *.
    destruct (Z.eqb_spec (comp p p0 p1) 1) as [E1|N1].
    + apply IH. apply elem_of_cons in He as [->|He].
      * cbn in E0. congruence.
      * exists e. split; assumption.
    + cbn [andb]. destruct (Z.eqb_spec (comp p p0 p1) 0) as [_|N0];
        [reflexivity|].
      apply IH. apply elem_of_cons in He as [->|He].
      * cbn in E0. contradiction.
      * exists e. split; assumption.
Qed.

Lemma scan_polygon_counts (border_result : bool) (poly : Polygon)
    (p0 : Point2LL) :
  back poly = Some p0 ->
  (border_result = true -> ~ on_border comp p poly) ->
  scan_edges comp p border_result p0 poly 0 INT64_MAX
  = Some (polygon_stats comp p poly).
Proof.
  intros Hback Hnb. rewrite scan_edges_counts.
  - unfold polygon_stats, crossing_count, recorded_min_x, right_crossings,
      polygon_edges. rewrite Hback. rewrite Z.add_0_l. reflexivity.
  - intros Hb e He E0. apply (Hnb Hb). exists e.
    unfold polygon_edges. rewrite Hback. split; assumption.
Qed.

Lemma back_nonempty (poly : Polygon) : poly <> [] -> is_Some (back poly).
Proof.
  intros Hne. unfold back. destruct (last poly) eqn:E; [eexists; reflexivity|].
  apply last_None in E. contradiction.
Qed.

Lemma fill_stats_counts (border_result : bool) (polys : Polygons)
    (poly_idx : Z) :
  Forall (fun poly => poly <> []) polys ->
  (border_result = true -> Forall (fun poly => ~ on_border comp p poly) polys) ->
  fill_stats comp p border_result polys poly_idx
  = Counted (map (polygon_stats comp p) polys).
Proof.
  revert poly_idx.
  induction polys as [|poly rest IH]; intros poly_idx Hne Hnb; [reflexivity|].
  apply Forall_cons in Hne as [Hpoly Hrest].
  cbn [fill_stats map]. destruct (back_nonempty poly Hpoly) as [p0 Hback].
  rewrite Hback. rewrite (scan_polygon_counts border_result poly p0 Hback).
  - rewrite IH; [reflexivity|exact Hrest|].
    intros Hb. specialize (Hnb Hb). apply Forall_cons in Hnb as [_ H]. exact H.
  - intros Hb. specialize (Hnb Hb). apply Forall_cons in Hnb as [H _]. exact H.
Qed.

Lemma fill_stats_border (pre rest : Polygons) (poly : Polygon)
    (poly_idx : Z) :
  Forall (fun poly => poly <> []) pre ->
  Forall (fun poly => ~ on_border comp p poly) pre ->
  on_border comp p poly ->
  fill_stats comp p true (pre ++ poly :: rest) poly_idx
  = OnBorder (poly_idx + Z.of_nat (length pre)).
Proof.
  revert poly_idx.
  induction pre as [|q pre IH]; intros poly_idx Hne Hnb Hb.
  - cbn [app fill_stats length]. rewrite Z.add_0_r.
    destruct Hb as (e & He & E0). unfold polygon_edges in He.
    destruct (back poly) as [p0|]; [|inversion He].
    rewrite scan_edges_border; [reflexivity|]. exists e. split; assumption.
  - apply Forall_cons in Hne as [Hq Hne]. apply Forall_cons in Hnb as [Hqb Hnb].
    cbn [app fill_stats]. destruct (back_nonempty q Hq) as [p0 Hback].
    rewrite Hback.
    rewrite (scan_polygon_counts true q p0 Hback) by (intros _; exact Hqb).
    rewrite (IH (poly_idx + 1) Hne Hnb Hb). f_equal. cbn [length]. lia.
Qed.

(** The second loop: the number of uneven entries, and the position of the
    first entry with the least [min_x] below the starting value, if any. *)
Lemma select_uneven_spec (stats : list (Z * Z)) (array_idx : Z)
    (min_x_uneven ret n_unevens : Z) :
  exists ret',
    select_uneven stats array_idx min_x_uneven ret n_unevens
    = (ret', n_unevens + Z.of_nat (length (filter uneven stats)))
    /\ ((ret' = ret
         /\ forall j c m, stats !! j = Some (c, m) -> uneven (c, m) ->
              min_x_uneven <= m)
        \/ exists i c m,
             stats !! i = Some (c, m) /\ uneven (c, m)
             /\ ret' = array_idx + Z.of_nat i /\ m < min_x_uneven
             /\ forall j c' m', stats !! j = Some (c', m') -> uneven (c', m') ->
                  m <= m' /\ ((j < i)%nat -> m < m')).
Proof.
  revert array_idx min_x_uneven ret n_unevens.
  induction stats as [|[c m] rest IH];
    intros array_idx min_x_uneven ret n_unevens.
  - exists ret. cbn. rewrite Z.add_0_r. split; [reflexivity|]. left.
    split; [reflexivity|]. intros j c m Hj. discriminate Hj.
  - cbn [select_uneven]. rewrite filter_cons.
    destruct (Z.eqb_spec (Z.rem c 2) 1) as [Hodd|Hev].
    + rewrite decide_True by exact Hodd. cbn [length].
      destruct (Z.ltb_spec m min_x_uneven) as [Hlt|Hge].
      * destruct (IH (array_idx + 1) m array_idx (n_unevens + 1))
          as (r & Hr & Hcase).
        exists r. split; [rewrite Hr; f_equal; lia|]. right.
        destruct Hcase as [[-> Hall] | (i & c2 & m2 & Hi & Ho & -> & Hlt2 & Hmin)].
        -- exists 0%nat, c, m. split; [reflexivity|]. split; [exact Hodd|].
           split; [lia|]. split; [exact Hlt|].
           intros [|j] c' m' Hj Ho'.
           ++ cbn in Hj. inversion Hj; subst. split; lia.
           ++ cbn in Hj. specialize (Hall j c' m' Hj Ho'). split; lia.
        -- exists (S i), c2, m2. split; [exact Hi|]. split; [exact Ho|].
           split; [lia|]. split; [lia|].
           intros [|j] c' m' Hj Ho'.
           ++ cbn in Hj. inversion Hj; subst. split; lia.
           ++ cbn in Hj. destruct (Hmin j c' m' Hj Ho') as [Hle Hst].
              split; [exact Hle|]. intros Hji. apply Hst. lia.
      * destruct (IH (array_idx + 1) min_x_uneven ret (n_unevens + 1))
          as (r & Hr & Hcase).
        exists r. split; [rewrite Hr; f_equal; lia|].
        destruct Hcase as [[-> Hall] | (i & c2 & m2 & Hi & Ho & -> & Hlt2 & Hmin)].
        -- left. split; [reflexivity|]. intros [|j] c' m' Hj Ho'.
           ++ cbn in Hj. inversion Hj; subst. exact Hge.
           ++ cbn in Hj. exact (Hall j c' m' Hj Ho').
        -- right. exists (S i), c2, m2. split; [exact Hi|]. split; [exact Ho|].
           split; [lia|]. split; [exact Hlt2|].
           intros [|j] c' m' Hj Ho'.
           ++ cbn in Hj. inversion Hj; subst. split; lia.
           ++ cbn in Hj. destruct (Hmin j c' m' Hj Ho') as [Hle Hst].
              split; [exact Hle|]. intros Hji. apply Hst. lia.
    + rewrite decide_False by exact Hev.
      destruct (IH (array_idx + 1) min_x_uneven ret n_unevens)
        as (r & Hr & Hcase).
      exists r. split; [exact Hr|].
      destruct Hcase as [[-> Hall] | (i & c2 & m2 & Hi & Ho & -> & Hlt2 & Hmin)].
      * left. split; [reflexivity|]. intros [|j] c' m' Hj Ho'.
        -- cbn in Hj. inversion Hj; subst. contradiction.
        -- cbn in Hj. exact (Hall j c' m' Hj Ho').
      * right. exists (S i), c2, m2. split; [exact Hi|]. split; [exact Ho|].
        split; [lia|]. split; [exact Hlt2|].
        intros [|j] c' m' Hj Ho'.
        -- cbn in Hj. inversion Hj; subst. contradiction.
        -- cbn in Hj. destruct (Hmin j c' m' Hj Ho') as [Hle Hst].
           split; [exact Hle|]. intros Hji. apply Hst. lia.
Qed.
End FindInside.

Lemma uneven_polygon_stats (comp : classifier) (p : Point2LL)
    (poly : Polygon) :
  uneven (polygon_stats comp p poly) <-> odd_crossings comp p poly.
Proof.
  unfold uneven, odd_crossings, polygon_stats, crossing_count. cbn [fst].
  rewrite Z.rem_mod_nonneg by lia. rewrite Zmod_odd.
  destruct (Z.odd _); split; intros H; first [reflexivity | discriminate H].
Qed.

Lemma count_uneven_stats (comp : classifier) (p : Point2LL)
    (polys : Polygons) :
  length (filter uneven (map (polygon_stats comp p) polys))
  = count_odd comp p polys.
Proof.
  unfold count_odd. induction polys as [|poly rest IH]; [reflexivity|].
  cbn [map]. rewrite !filter_cons.
  destruct (decide (odd_crossings comp p poly)) as [Ho|Hn].
  - rewrite decide_True by (apply uneven_polygon_stats; exact Ho).
    cbn [length]. rewrite IH. reflexivity.
  - rewrite decide_False by (rewrite uneven_polygon_stats; exact Hn).
    exact IH.
Qed.

Lemma count_odd_positive (comp : classifier) (p : Point2LL)
    (polys : Polygons) :
  (0 < count_odd comp p polys)%nat ->
  exists poly, poly ∈ polys /\ odd_crossings comp p poly.
Proof.
  unfold count_odd. intros Hpos.
  destruct (filter (odd_crossings comp p) polys) as [|poly l] eqn:E;
    [cbn in Hpos; lia|].
  assert (Hin : poly ∈ filter (odd_crossings comp p) polys)
    by (rewrite E; left).
  apply list_elem_of_filter in Hin as [Ho Hin]. exists poly. split; assumption.
Qed.

Lemma rem2_zero_is_even (n : nat) :
  (Z.rem (Z.of_nat n) 2 =? 0) = Nat.even n.
Proof.
  rewrite Z.rem_mod_nonneg by lia. rewrite Zmod_even.
  destruct (Z.even (Z.of_nat n)) eqn:E.
  - apply Z.even_spec in E. symmetry. apply Nat.even_spec.
    destruct E as [k Hk]. exists (Z.to_nat k). lia.
  - symmetry. apply not_true_is_false. intros Hn.
    apply Nat.even_spec in Hn. destruct Hn as [k Hk].
    assert (Z.even (Z.of_nat n) = true)
      by (apply Z.even_spec; exists (Z.of_nat k); lia).
    congruence.
Qed.

(** The rule of [findInside] on a set that is not empty, none of whose
    polygons is empty, when the loop is not left at an edge: the sentinel
    when the number of polygons with an odd crossing count is even, and
    otherwise, when the recorded minima of those polygons are below the
    starting value [INT64_MAX], the position of the innermost of them. *)
Theorem findInside_parity_rule (comp : classifier) (polys : Polygons)
    (p : Point2LL) (border_result : bool) :
  polys <> [] ->
  Forall (fun poly => poly <> []) polys ->
  (border_result = true -> Forall (fun poly => ~ on_border comp p poly) polys) ->
  exists r,
    findInside comp polys p border_result = Some r
    /\ (Nat.even (count_odd comp p polys) = true -> r = NO_INDEX)
    /\ (Nat.even (count_odd comp p polys) = false ->
        (forall poly, poly ∈ polys -> odd_crossings comp p poly ->
           recorded_min_x comp p poly < INT64_MAX) ->
        exists i, r = Z.of_nat i /\ innermost comp p polys i).
Proof.
  intros Hne Hpolys Hnb.
  assert (Hs : (size_of polys <? 1) = false).
  { apply Z.ltb_ge. unfold size_of. destruct polys; [contradiction|].
    cbn [length]. lia. }
  unfold findInside. rewrite Hs.
  rewrite (fill_stats_counts comp p border_result polys 0 Hpolys Hnb).
  destruct (select_uneven_spec (map (polygon_stats comp p) polys) 0
              INT64_MAX NO_INDEX 0) as (ret & Hsel & Hcase).
  rewrite Hsel, count_uneven_stats, Z.add_0_l, rem2_zero_is_even.
  eexists. split; [reflexivity|]. split.
  - intros ->. reflexivity.
  - intros Hodd Hbelow. rewrite Hodd.
    destruct Hcase as [[_ Hall] | (i & c & m & Hi & Ho & -> & _ & Hmin)].
    + exfalso.
      destruct (count_odd_positive comp p polys) as (poly & Hin & Hpo).
      { destruct (count_odd comp p polys); [discriminate Hodd|lia]. }
      apply list_elem_of_lookup in Hin as [j Hj].
      specialize (Hall j (crossing_count comp p poly)
                    (recorded_min_x comp p poly)).
      rewrite list_lookup_fmap, Hj in Hall.
      specialize (Hall eq_refl (proj2 (uneven_polygon_stats comp p poly) Hpo)).
      pose proof (Hbelow poly (proj2 (list_elem_of_lookup _ _)
                                 (ex_intro _ j Hj)) Hpo).
      lia.
    + exists i. split; [lia|].
      rewrite list_lookup_fmap in Hi.
      destruct (polys !! i) as [poly|] eqn:Ei; [|discriminate Hi].
      cbn in Hi. inversion Hi; subst c m. clear Hi.
      exists poly. split; [exact Ei|].
      split; [apply uneven_polygon_stats; exact Ho|].
      intros j poly' Hj Hpo'.
      apply (Hmin j (crossing_count comp p poly')
               (recorded_min_x comp p poly')).
      * rewrite list_lookup_fmap, Hj. reflexivity.
      * apply (uneven_polygon_stats comp p poly'). exact Hpo'.
Qed.

(** With [border_result] set, the position of the first polygon that has
    the point on an edge is returned. *)
Theorem findInside_on_border (comp : classifier) (pre rest : Polygons)
    (poly : Polygon) (p : Point2LL) :
  Forall (fun poly => poly <> []) pre ->
  Forall (fun poly => ~ on_border comp p poly) pre ->
  on_border comp p poly ->
  findInside comp (pre ++ poly :: rest) p true
  = Some (Z.of_nat (length pre)).
Proof.
  intros Hne Hnb Hb.
  assert (Hs : (size_of (pre ++ poly :: rest) <? 1) = false).
  { apply Z.ltb_ge. unfold size_of. rewrite length_app. cbn [length]. lia. }
  unfold findInside. rewrite Hs.
  rewrite (fill_stats_border comp p pre rest poly 0 Hne Hnb Hb).
  rewrite Z.add_0_l. reflexivity.
Qed.

(** A recorded minimum is below [INT64_MAX] for a polygon with an odd
    crossing count when the coordinates are small. *)
Lemma quot_abs_le (a b : Z) : b <> 0 -> Z.abs (a ÷ b) <= Z.abs a.
Proof.
  intros Hb. rewrite <- Z.quot_abs by exact Hb.
  pose proof (Z.abs_nonneg a) as Ha.
  assert (Hb1 : 1 <= Z.abs b) by lia.
  generalize dependent (Z.abs b). generalize dependent (Z.abs a).
  intros x Hx y Hy. rewrite Z.quot_div_nonneg by lia.
  apply Z.div_le_upper_bound; [lia|].
  apply Z.le_trans with (1 * x); [lia|].
  apply Z.mul_le_mono_nonneg_r; lia.
Qed.

Lemma crossing_x_small (p p0 p1 : Point2LL) :
  small_point p -> small_point p0 -> small_point p1 ->
  Z.abs (crossing_x p p0 p1) < INT64_MAX.
Proof.
  unfold small_point, crossing_x, INT64_MAX.
  change (2 ^ 30) with 1073741824.
  change (2 ^ 63 - 1) with 9223372036854775807.
  intros [Hpx Hpy] [H0x H0y] [H1x H1y].
  destruct (Z.eqb_spec (Y p1) (Y p0)) as [_|Hb]; [lia|].
  assert (Hb0 : Y p1 - Y p0 <> 0) by lia.
  pose proof (quot_abs_le ((X p1 - X p0) * (Y p - Y p0)) (Y p1 - Y p0) Hb0)
    as Hq.
  assert (Ha : Z.abs ((X p1 - X p0) * (Y p - Y p0))
               <= 2147483648 * 2147483648).
  { rewrite Z.abs_mul. apply Z.mul_le_mono_nonneg; lia. }
  change (2147483648 * 2147483648) with 4611686018427387904 in Ha.
  generalize dependent ((X p1 - X p0) * (Y p - Y p0) ÷ (Y p1 - Y p0)).
  generalize dependent (Z.abs ((X p1 - X p0) * (Y p - Y p0))).
  intros. lia.
Qed.

Lemma edges_from_endpoints (p0 : Point2LL) (pts : Polygon)
    (e : Point2LL * Point2LL) :
  e ∈ edges_from p0 pts -> (e.1 = p0 \/ e.1 ∈ pts) /\ e.2 ∈ pts.
Proof.
  revert p0. induction pts as [|p1 rest IH]; intros p0 He; [inversion He|].
  cbn [edges_from] in He. apply elem_of_cons in He as [->|He].
  - cbn. split; [left; reflexivity|left].
  - destruct (IH p1 He) as [[E|Hin] H2].
    + split; [right; rewrite E; left|right; exact H2].
    + split; [right; right; exact Hin|right; exact H2].
Qed.

Lemma polygon_edges_endpoints (poly : Polygon) (e : Point2LL * Point2LL) :
  e ∈ polygon_edges poly -> e.1 ∈ poly /\ e.2 ∈ poly.
Proof.
  unfold polygon_edges, back. destruct (last poly) as [p0|] eqn:Hlast;
    [|intros He; inversion He].
  intros He. destruct (edges_from_endpoints p0 poly e He) as [[E|Hin] H2].
  - split; [|exact H2]. rewrite E. apply last_Some in Hlast as [l ->].
    apply elem_of_app. right. left.
  - split; assumption.
Qed.

Lemma recorded_min_x_small (comp : classifier) (p : Point2LL)
    (poly : Polygon) :
  small_point p -> Forall small_point poly -> odd_crossings comp p poly ->
  recorded_min_x comp p poly < INT64_MAX.
Proof.
  intros Hp Hpoly Hodd. unfold odd_crossings, crossing_count in Hodd.
  unfold recorded_min_x.
  destruct (right_crossings comp p poly) as [|e l] eqn:E;
    [cbn in Hodd; discriminate Hodd|].
  assert (He : e ∈ polygon_edges poly).
  { assert (Hin : e ∈ right_crossings comp p poly) by (rewrite E; left).
    unfold right_crossings in Hin. apply list_elem_of_filter in Hin as [_ Hin].
    exact Hin. }
  apply polygon_edges_endpoints in He as [H1 H2].
  rewrite Forall_forall in Hpoly.
  pose proof (crossing_x_small p e.1 e.2 Hp (Hpoly _ H1) (Hpoly _ H2)) as Hx.
  cbn [map foldr].
  generalize dependent (crossing_x p e.1 e.2).
  generalize (foldr Z.min INT64_MAX (map (fun e0 => crossing_x p e0.1 e0.2) l)).
  intros. lia.
Qed.

(** The same rule for coordinates of at most [2^30] in absolute value: the
    recorded minima are then below [INT64_MAX] by themselves. *)
Theorem findInside_parity_rule_small (comp : classifier) (polys : Polygons)
    (p : Point2LL) (border_result : bool) :
  polys <> [] ->
  Forall (fun poly => poly <> []) polys ->
  small_point p -> Forall (Forall small_point) polys ->
  (border_result = true -> Forall (fun poly => ~ on_border comp p poly) polys) ->
  exists r,
    findInside comp polys p border_result = Some r
    /\ (Nat.even (count_odd comp p polys) = true -> r = NO_INDEX)
    /\ (Nat.even (count_odd comp p polys) = false ->
        exists i, r = Z.of_nat i /\ innermost comp p polys i).
Proof.
  intros Hne Hpolys Hp Hsmall Hnb.
  destruct (findInside_parity_rule comp polys p border_result Hne Hpolys Hnb)
    as (r & Hr & Heven & Hodd).
  exists r. split; [exact Hr|]. split; [exact Heven|].
  intros Ho. apply (Hodd Ho). intros poly Hin Hpo.
  apply recorded_min_x_small; [exact Hp| |exact Hpo].
  rewrite Forall_forall in Hsmall. exact (Hsmall poly Hin).
Qed.

(** Three nested squares around the query point, and the two outer ones
    alone, with the classifier of the engine. *)
Example findInside_nested_squares :
  findInside pointLiesOnTheRightOfLine
    [ [mkPoint 0 0; mkPoint 100 0; mkPoint 100 100; mkPoint 0 100];
      [mkPoint 10 10; mkPoint 90 10; mkPoint 90 90; mkPoint 10 90];
      [mkPoint 20 20; mkPoint 80 20; mkPoint 80 80; mkPoint 20 80] ]
    (mkPoint 50 50) false = Some 2
  /\ findInside pointLiesOnTheRightOfLine
       [ [mkPoint 0 0; mkPoint 100 0; mkPoint 100 100; mkPoint 0 100];
         [mkPoint 10 10; mkPoint 90 10; mkPoint 90 90; mkPoint 10 90] ]
       (mkPoint 50 50) false = Some NO_INDEX.
Proof. split; vm_compute; reflexivity. Qed.

(** ** The loops of [removeDegenerateVertsForEveryone] come to an end *)

Lemma removelast_length {A} (l : list A) :
  length (removelast l) = pred (length l).
Proof. rewrite removelast_firstn_len, length_take. lia. Qed.

(** The popping loop stops because its condition fails, not for lack of
    fuel. *)
Lemma pop_degenerate_stops (vSize : length_fn) (next : Point2LL) (fuel : nat)
    (result : Polygon) :
  (length result <= fuel)%nat ->
  forall a b,
    (1 < length (pop_degenerate vSize next fuel result))%nat ->
    pop_degenerate vSize next fuel result
      !! (length (pop_degenerate vSize next fuel result) - 2)%nat = Some a ->
    back (pop_degenerate vSize next fuel result) = Some b ->
    isDegenerate vSize a b next = false.
Proof.
  revert result. induction fuel as [|fuel IH]; intros result Hlen a b.
  - destruct result; [|cbn in Hlen; lia]. cbn. lia.
  - cbn [pop_degenerate].
    destruct (Nat.ltb_spec 1 (length result)) as [Hgt|Hle]; [|lia].
    destruct (result !! (length result - 2)%nat) as [a'|] eqn:Ea;
      [|intros _ H; congruence].
    destruct (back result) as [b'|] eqn:Eb; [|intros _ _ H; congruence].
    destruct (isDegenerate vSize a' b' next) eqn:Ed.
    + apply IH. rewrite removelast_length. lia.
    + intros _ Ha Hb. congruence.
Qed.

Lemma verts_loop_in_range (vSize : length_fn) (poly : Polygon)
    (idxs : list nat) (result : Polygon) (isChanged : bool) :
  Forall (fun idx => (idx < length poly)%nat) idxs ->
  is_Some (verts_loop vSize poly idxs result isChanged).
Proof.
  revert result isChanged.
  induction idxs as [|idx rest IH]; intros result isChanged Hin;
    [eexists; reflexivity|].
  apply Forall_cons in Hin as [Hidx Hrest]. cbn [verts_loop].
  assert (Hlast : is_Some (if (length result =? 0)%nat
                           then back poly else back result)).
  { destruct (Nat.eqb_spec (length result) 0) as [E|N]; apply back_nonempty.
    - intros ->. cbn in Hidx. lia.
    - intros ->. apply N. reflexivity. }
  destruct Hlast as [last ->]. cbn [mbind option_bind].
  destruct (Nat.leb_spec (length poly) (idx + 1)) as [Hend|Hmid];
    destruct (Nat.eqb_spec (length result) 0) as [E|N]; cbn [andb];
    try (eexists; reflexivity).
  - destruct (lookup_lt_is_Some_2 result 0) as [next ->]; [lia|].
    cbn [mbind option_bind].
    destruct (lookup_lt_is_Some_2 poly idx Hidx) as [now ->].
    cbn [mbind option_bind].
    destruct (isDegenerate vSize last now next); apply IH; exact Hrest.
  - destruct (lookup_lt_is_Some_2 poly (idx + 1)) as [next ->]; [lia|].
    cbn [mbind option_bind].
    destruct (lookup_lt_is_Some_2 poly idx Hidx) as [now ->].
    cbn [mbind option_bind].
    destruct (isDegenerate vSize last now next); apply IH; exact Hrest.
  - destruct (lookup_lt_is_Some_2 poly (idx + 1)) as [next ->]; [lia|].
    cbn [mbind option_bind].
    destruct (lookup_lt_is_Some_2 poly idx Hidx) as [now ->].
    cbn [mbind option_bind].
    destruct (isDegenerate vSize last now next); apply IH; exact Hrest.
Qed.

(** On a closed polygon no read is out of range. *)
Lemma removeDegenerateVerts_closed_defined (vSize : length_fn)
    (poly : Polygon) :
  is_Some (removeDegenerateVerts vSize false poly).
Proof.
  unfold removeDegenerateVerts, size_of. rewrite Nat2Z.id, Nat.sub_0_r,
    Nat.sub_diag. cbn [seq copy_verts mapM mret option_ret mbind option_bind].
  destruct (verts_loop_in_range vSize poly (seq 0 (length poly)) [] false)
    as [[result isChanged] ->].
  - apply Forall_forall. intros idx Hidx. apply elem_of_seq in Hidx. lia.
  - cbn. eexists. reflexivity.
Qed.

Lemma Polygons_remove_at_length (polys : Polygons) (index : nat) :
  (0 < length polys)%nat ->
  length (Polygons_remove_at polys index) = (length polys - 1)%nat.
Proof.
  intros Hpos. unfold Polygons_remove_at.
  destruct (Nat.eqb_spec (length polys) 1) as [E|N]; [rewrite E; reflexivity|].
  destruct (Nat.ltb_spec 1 (length polys)) as [_|Hle]; [|lia].
  rewrite length_take.
  destruct (index <? length polys - 1)%nat; [|lia].
  destruct (back polys); rewrite ?length_insert; lia.
Qed.

Lemma size_t_wrap_small (z : Z) : 0 <= z < 2 ^ 64 -> size_t_wrap z = z.
Proof. intros H. unfold size_t_wrap. apply Z.mod_small. exact H. Qed.

Lemma size_t_wrap_decrement_increment (z : Z) :
  0 <= z < 2 ^ 64 -> size_t_wrap (size_t_wrap (z - 1) + 1) = z.
Proof.
  intros H. unfold size_t_wrap.
  rewrite Zplus_mod_idemp_l. replace (z - 1 + 1) with z by lia.
  apply Z.mod_small. exact H.
Qed.

Lemma everyone_loop_closed_finishes (vSize : length_fn) (fuel : nat)
    (poly_idx : Z) (polys : Polygons) :
  0 <= poly_idx <= size_of polys -> size_of polys < 2 ^ 64 ->
  (length polys - Z.to_nat poly_idx < fuel)%nat ->
  exists polys', everyone_loop vSize false fuel poly_idx polys = Finished polys'.
Proof.
  revert poly_idx polys. unfold size_of.
  induction fuel as [|fuel IH]; intros poly_idx polys Hidx Hsize Hfuel; [lia|].
  cbn [everyone_loop]. unfold size_of.
  destruct (Z.ltb_spec poly_idx (Z.of_nat (length polys))) as [Hlt|Hge];
    [|eexists; reflexivity].
  destruct (lookup_lt_is_Some_2 polys (Z.to_nat poly_idx)) as [poly ->]; [lia|].
  destruct (removeDegenerateVerts_closed_defined vSize poly)
    as [[result isChanged] ->].
  cbn [orb].
  assert (Hnext : size_t_wrap (poly_idx + 1) = poly_idx + 1)
    by (apply size_t_wrap_small; lia).
  assert (Hsame : size_t_wrap (size_t_wrap (poly_idx - 1) + 1) = poly_idx)
    by (apply size_t_wrap_decrement_increment; lia).
  destruct isChanged; [destruct (2 <? length result)%nat|].
  - rewrite Hnext. apply IH; rewrite ?length_insert; lia.
  - rewrite Hsame.
    apply IH; rewrite ?Polygons_remove_at_length by lia; lia.
  - rewrite Hnext. apply IH; lia.
Qed.

(** On closed polygons the routine always returns. *)
Theorem removeDegenerateVertsForEveryone_closed_finishes (vSize : length_fn)
    (polys : Polygons) :
  size_of polys < 2 ^ 64 ->
  exists polys',
    removeDegenerateVertsForEveryone vSize Closed polys = Finished polys'.
Proof.
  intros Hsize. unfold removeDegenerateVertsForEveryone.
  apply everyone_loop_closed_finishes; [unfold size_of; lia|exact Hsize|].
  cbn. lia.
Qed.

(** ** The smoothing action as a whole *)

(** Nothing happens for a [smooth_distance] of zero or a range of fewer
    than four points. *)
Lemma smooth_no_op (fl : float_ops) (rng : Polygon)
    (max_resolution smooth_distance : Z) (fluid_angle : double fl) :
  smooth_distance = 0 \/ size_of rng - 1 < 3 ->
  smooth fl rng max_resolution smooth_distance fluid_angle = Some rng.
Proof.
  intros [->|Hsmall]; unfold smooth; [reflexivity|].
  destruct (smooth_distance =? 0); [reflexivity|].
  destruct (Z.ltb_spec (size_of rng - 1) 3) as [_|Hge]; [reflexivity|lia].
Qed.

(** The window that starts at one of the last two points of the range reads
    past its end. *)
Lemma smooth_window_past_end (fl : float_ops)
    (max_resolution smooth_distance : Z) (fluid_angle : double fl) (size : Z)
    (i : nat) (st : smooth_state) :
  (length (pts st) <= i + 2)%nat ->
  smooth_window fl max_resolution smooth_distance fluid_angle size i st = None.
Proof.
  intros Hend. unfold smooth_window.
  destruct (pts st !! (i + 1)%nat) as [p1|]; [|reflexivity].
  cbn [mbind option_bind].
  rewrite (lookup_ge_None_2 (pts st) (i + 2)) by exact Hend. reflexivity.
Qed.

(** ** Open polylines: one run is enough *)

Section Polylines.
Variable vSize : length_fn.

Lemma no_degenerate_triple_prefix (l l' : Polygon) :
  l' `prefix_of` l -> no_degenerate_triple vSize l ->
  no_degenerate_triple vSize l'.
Proof.
  intros Hpre Hl i a b c Ha Hb Hc.
  apply (Hl i a b c); eapply prefix_lookup_Some; eassumption.
Qed.

(** A vertex is added after [s] when the last triple is not degenerate. *)
Lemma no_degenerate_triple_snoc (s : Polygon) (x : Point2LL) :
  no_degenerate_triple vSize s ->
  (forall a b, (1 < length s)%nat -> s !! (length s - 2)%nat = Some a ->
               back s = Some b -> isDegenerate vSize a b x = false) ->
  no_degenerate_triple vSize (s ++ [x]).
Proof.
  intros Hs Hlast i a b c Ha Hb Hc.
  apply lookup_snoc_Some in Hc as [[Hlt Hc]|[Hi <-]].
  - apply (Hs i a b c); [| |exact Hc].
    + rewrite lookup_app_l in Ha by lia. exact Ha.
    + rewrite lookup_app_l in Hb by lia. exact Hb.
  - rewrite lookup_app_l in Ha by lia. rewrite lookup_app_l in Hb by lia.
    apply Hlast; [lia| |].
    + replace (length s - 2)%nat with i by lia. exact Ha.
    + unfold back. rewrite last_lookup.
      replace (pred (length s)) with (i + 1)%nat by lia. exact Hb.
Qed.

Lemma pop_degenerate_prefix (next : Point2LL) (fuel : nat) (s : Polygon) :
  pop_degenerate vSize next fuel s `prefix_of` s.
Proof.
  revert s. induction fuel as [|fuel IH]; intros s; [reflexivity|].
  cbn [pop_degenerate]. destruct (1 <? length s)%nat; [|reflexivity].
  destruct (s !! (length s - 2)%nat); [|reflexivity].
  destruct (back s); [|reflexivity].
  destruct (isDegenerate vSize _ _ next); [|reflexivity].
  etransitivity; [apply IH|]. rewrite removelast_firstn_len. apply prefix_take.
Qed.

Lemma pop_degenerate_nonempty (next : Point2LL) (fuel : nat) (s : Polygon) :
  s <> [] -> pop_degenerate vSize next fuel s <> [].
Proof.
  revert s. induction fuel as [|fuel IH]; intros s Hs; [exact Hs|].
  cbn [pop_degenerate].
  destruct (Nat.ltb_spec 1 (length s)) as [Hgt|_]; [|exact Hs].
  destruct (s !! (length s - 2)%nat); [|exact Hs].
  destruct (back s); [|exact Hs].
  destruct (isDegenerate vSize _ _ next); [|exact Hs].
  apply IH. intros E. apply (f_equal length) in E.
  rewrite removelast_length in E. cbn in E. lia.
Qed.

(** The main loop on a polyline, from position [k] with [m] positions to
    go: what has been kept, followed by the vertex about to be visited, has
    no degenerate triple, and this carries over to the end. *)
Lemma verts_loop_polyline (poly : Polygon) (m k : nat) (result : Polygon)
    (isChanged : bool) :
  (1 <= k)%nat -> (k + m + 1 = length poly)%nat -> result <> [] ->
  (forall now, poly !! k = Some now ->
               no_degenerate_triple vSize (result ++ [now])) ->
  exists result' isChanged',
    verts_loop vSize poly (seq k m) result isChanged
    = Some (result', isChanged')
    /\ result' <> [] /\ (length result' <= length result + m)%nat
    /\ forall final, poly !! (k + m)%nat = Some final ->
                     no_degenerate_triple vSize (result' ++ [final]).
Proof.
  revert k result isChanged.
  induction m as [|m IH]; intros k result isChanged Hk Hlen Hne Hclean.
  - exists result, isChanged. cbn [seq verts_loop]. rewrite !Nat.add_0_r.
    split; [reflexivity|]. split; [exact Hne|]. split; [lia|exact Hclean].
  - cbn [seq verts_loop].
    destruct (Nat.eqb_spec (length result) 0) as [E|_].
    { destruct result; [contradiction|discriminate E]. }
    destruct (back_nonempty result Hne) as [last Hlast]. rewrite Hlast.
    cbn [mbind option_bind].
    destruct (Nat.leb_spec (length poly) (k + 1)) as [Hend|_]; [lia|].
    cbn [andb].
    destruct (lookup_lt_is_Some_2 poly (k + 1)) as [next Hnext]; [lia|].
    destruct (lookup_lt_is_Some_2 poly k) as [now Hnow]; [lia|].
    rewrite Hnext, Hnow. cbn [mbind option_bind].
    specialize (Hclean now Hnow).
    assert (Hresult : no_degenerate_triple vSize result).
    { apply (no_degenerate_triple_prefix (result ++ [now])); [|exact Hclean].
      apply prefix_app_r. reflexivity. }
    replace (k + S m)%nat with (S k + m)%nat by lia.
    rewrite Nat.add_1_r in Hnext.
    destruct (isDegenerate vSize last now next) eqn:Hdeg.
    + destruct (IH (S k) (pop_degenerate vSize next (length result) result)
                  true) as (r' & c' & Hr' & Hne' & Hlen' & Hclean').
      * lia.
      * lia.
      * apply pop_degenerate_nonempty. exact Hne.
      * intros now' Hnow'. assert (now' = next) by congruence. subst now'.
        apply no_degenerate_triple_snoc.
        -- apply (no_degenerate_triple_prefix result);
             [apply pop_degenerate_prefix|exact Hresult].
        -- intros a b Hgt Ha Hb.
           apply (pop_degenerate_stops vSize next (length result) result);
             [lia|exact Hgt|exact Ha|exact Hb].
      * exists r', c'. split; [exact Hr'|]. split; [exact Hne'|].
        split; [|exact Hclean'].
        pose proof (prefix_length _ _
                      (pop_degenerate_prefix next (length result) result)).
        lia.
    + destruct (IH (S k) (result ++ [now]) isChanged)
        as (r' & c' & Hr' & Hne' & Hlen' & Hclean').
      * lia.
      * lia.
      * intros E. apply app_eq_nil in E as [_ E]. discriminate E.
      * intros now' Hnow'. assert (now' = next) by congruence. subst now'.
        apply no_degenerate_triple_snoc; [exact Hclean|].
        intros a b _ Ha Hb. unfold back in Hb. rewrite last_snoc in Hb.
        rewrite length_app in Ha. cbn [length] in Ha.
        replace (length result + 1 - 2)%nat with (pred (length result)) in Ha
          by lia.
        rewrite lookup_app_l in Ha
          by (destruct result; [contradiction|cbn; lia]).
        unfold back in Hlast. rewrite last_lookup in Hlast.
        assert (a = last) by congruence. assert (b = now) by congruence.
        subst. exact Hdeg.
      * exists r', c'. split; [exact Hr'|]. split; [exact Hne'|].
        split; [|exact Hclean']. rewrite length_app in Hlen'. cbn in Hlen'. lia.
Qed.
End Polylines.

Section PolylineRuns.
Variable vSize : length_fn.

Lemma polyline_end_vertex (poly : Polygon) :
  (1 <= length poly)%nat -> size_of poly < 2 ^ 64 ->
  Z.to_nat (size_t_wrap (size_of poly - 1)) = (length poly - 1)%nat.
Proof.
  unfold size_of. intros Hn Hsize. rewrite size_t_wrap_small by lia. lia.
Qed.

(** A polyline of one vertex: the vertex is copied twice into [result], and
    [isChanged] stays clear. *)
Lemma removeDegenerateVerts_polyline_single (p : Point2LL) :
  removeDegenerateVerts vSize true [p] = Some ([p; p], false).
Proof. reflexivity. Qed.

(** The result for a polyline of two or more vertices has no degenerate
    triple left. *)
Lemma removeDegenerateVerts_polyline_clean (poly : Polygon) :
  (2 <= length poly)%nat -> size_of poly < 2 ^ 64 ->
  exists result isChanged,
    removeDegenerateVerts vSize true poly = Some (result, isChanged)
    /\ no_degenerate_triple vSize result
    /\ (2 <= length result <= length poly)%nat.
Proof.
  intros Hn Hsize. unfold removeDegenerateVerts.
  rewrite polyline_end_vertex by (assumption || lia).
  destruct (lookup_lt_is_Some_2 poly 0) as [first Hfirst]; [lia|].
  destruct (lookup_lt_is_Some_2 poly (length poly - 1)) as [final Hfinal];
    [lia|].
  unfold copy_verts. cbn [seq mapM]. rewrite Hfirst.
  cbn [mbind option_bind mret option_ret].
  destruct (verts_loop_polyline vSize poly (length poly - 1 - 1) 1 [first]
              false) as (r & c & Hr & Hne & Hlen & Hclean).
  - lia.
  - lia.
  - discriminate.
  - intros now _ i a b c Ha Hb Hc. apply lookup_lt_Some in Hc. cbn in Hc. lia.
  - rewrite Hr. cbn [mbind option_bind].
    replace (length poly - (length poly - 1))%nat with 1%nat by lia.
    cbn [seq mapM]. rewrite Hfinal. cbn [mbind option_bind mret option_ret].
    exists (r ++ [final]), c. split; [reflexivity|]. split.
    + apply Hclean. replace (1 + (length poly - 1 - 1))%nat
        with (length poly - 1)%nat by lia. exact Hfinal.
    + rewrite length_app. cbn [length] in *.
      destruct r; [contradiction|]. cbn [length] in *. lia.
Qed.

(** On a polyline without a degenerate triple every vertex is kept. *)
Lemma verts_loop_keeps (poly : Polygon) (m k : nat) :
  no_degenerate_triple vSize poly ->
  (1 <= k)%nat -> (k + m + 1 = length poly)%nat ->
  verts_loop vSize poly (seq k m) (take k poly) false
  = Some (take (k + m) poly, false).
Proof.
  intros Hclean. revert k. induction m as [|m IH]; intros k Hk Hlen.
  - cbn. rewrite Nat.add_0_r. reflexivity.
  - cbn [seq verts_loop]. rewrite length_take_le by lia.
    destruct (Nat.eqb_spec k 0) as [E|_]; [lia|].
    unfold back. rewrite last_lookup, length_take_le by lia.
    rewrite (lookup_take_lt poly k (pred k)) by lia.
    destruct (lookup_lt_is_Some_2 poly (pred k)) as [last Hlast]; [lia|].
    destruct (lookup_lt_is_Some_2 poly (k + 1)) as [next Hnext]; [lia|].
    destruct (lookup_lt_is_Some_2 poly k) as [now Hnow]; [lia|].
    rewrite Hlast. cbn [mbind option_bind].
    destruct (Nat.leb_spec (length poly) (k + 1)) as [Hend|_]; [lia|].
    cbn [andb]. rewrite Hnext, Hnow. cbn [mbind option_bind].
    rewrite (Hclean (pred k) last now next);
      [|exact Hlast
       |replace (pred k + 1)%nat with k by lia; exact Hnow
       |replace (pred k + 2)%nat with (k + 1)%nat by lia; exact Hnext].
    rewrite <- (take_S_r poly k now Hnow).
    replace (k + S m)%nat with (S k + m)%nat by lia.
    apply IH; lia.
Qed.

Lemma removeDegenerateVerts_polyline_keeps (poly : Polygon) :
  no_degenerate_triple vSize poly ->
  (1 <= length poly)%nat -> size_of poly < 2 ^ 64 ->
  exists result, removeDegenerateVerts vSize true poly = Some (result, false).
Proof.
  intros Hclean Hn Hsize.
  destruct (decide (length poly = 1%nat)) as [E1|N1].
  - destruct poly as [|p [|q rest]]; try discriminate E1.
    eexists. apply removeDegenerateVerts_polyline_single.
  - unfold removeDegenerateVerts.
    rewrite polyline_end_vertex by assumption.
    destruct (lookup_lt_is_Some_2 poly 0) as [first Hfirst]; [lia|].
    destruct (lookup_lt_is_Some_2 poly (length poly - 1)) as [final Hfinal];
      [lia|].
    unfold copy_verts. cbn [seq mapM]. rewrite Hfirst.
    cbn [mbind option_bind mret option_ret].
    replace [first] with (take 1 poly)
      by (destruct poly; [discriminate Hfirst|]; cbn in Hfirst;
          inversion Hfirst; cbn; rewrite take_0; reflexivity).
    rewrite (verts_loop_keeps poly (length poly - 1 - 1) 1 Hclean) by lia.
    cbn [mbind option_bind].
    replace (length poly - (length poly - 1))%nat with 1%nat by lia.
    cbn [seq mapM]. rewrite Hfinal. cbn [mbind option_bind mret option_ret].
    eexists. reflexivity.
Qed.

(** What replaces a polyline is not changed by a further run. *)
Lemma tidy_polyline_twice (poly tidied : Polygon) :
  size_of poly < 2 ^ 64 ->
  tidy_polyline vSize poly = Some tidied ->
  size_of tidied < 2 ^ 64 /\ tidy_polyline vSize tidied = Some tidied.
Proof.
  unfold tidy_polyline. intros Hsize Htidy.
  destruct (removeDegenerateVerts vSize true poly) as [[r [|]]|] eqn:Hrun;
    [| |discriminate Htidy]; inversion Htidy; subst tidied; clear Htidy.
  - destruct (decide (2 <= length poly)%nat) as [Hn|Hn].
    + destruct (removeDegenerateVerts_polyline_clean poly Hn Hsize)
        as (r' & c' & Hr' & Hclean & Hlen).
      assert (r' = r) by congruence. subst r'.
      assert (Hrsize : size_of r < 2 ^ 64) by (unfold size_of in *; lia).
      split; [exact Hrsize|].
      destruct (removeDegenerateVerts_polyline_keeps r Hclean) as [r2 ->];
        [lia|exact Hrsize|reflexivity].
    + exfalso. destruct poly as [|p [|q rest]].
      * discriminate Hrun.
      * rewrite removeDegenerateVerts_polyline_single in Hrun.
        discriminate Hrun.
      * cbn in Hn. lia.
  - split; [exact Hsize|]. rewrite Hrun. reflexivity.
Qed.

(** The loop over an open set replaces every polyline by its tidied form,
    and fails on the first empty polyline. *)
Lemma everyone_loop_polyline (fuel idx : nat) (polys : Polygons) :
  (idx <= length polys)%nat -> size_of polys < 2 ^ 64 ->
  (length polys - idx < fuel)%nat ->
  everyone_loop vSize true fuel (Z.of_nat idx) polys
  = match mapM (tidy_polyline vSize) (drop idx polys) with
    | Some tidied => Finished (take idx polys ++ tidied)
    | None => UndefinedBehaviour
    end.
Proof.
  revert idx polys.
  induction fuel as [|fuel IH]; intros idx polys Hidx Hsize Hfuel; [lia|].
  cbn [everyone_loop]. unfold size_of in *.
  destruct (Z.ltb_spec (Z.of_nat idx) (Z.of_nat (length polys))) as [Hlt|Hge].
  - rewrite Nat2Z.id.
    destruct (lookup_lt_is_Some_2 polys idx) as [poly Hpoly]; [lia|].
    rewrite Hpoly. rewrite (drop_S polys poly idx Hpoly). cbn [mapM].
    replace (size_t_wrap (Z.of_nat idx + 1)) with (Z.of_nat (S idx))
      by (rewrite size_t_wrap_small; lia).
    destruct (removeDegenerateVerts vSize true poly) as [[r [|]]|] eqn:Hrun;
      cbn [orb].
    + assert (Ht : tidy_polyline vSize poly = Some r)
        by (unfold tidy_polyline; rewrite Hrun; reflexivity).
      rewrite Ht. cbn [mbind option_bind].
      rewrite IH by (rewrite ?length_insert; lia).
      rewrite drop_insert_lt by lia.
      replace (take (S idx) (<[idx := r]> polys)) with (take idx polys ++ [r]).
      * destruct (mapM (tidy_polyline vSize) (drop (S idx) polys));
          cbn [mbind option_bind mret option_ret];
          [rewrite <- app_assoc|]; reflexivity.
      * rewrite (take_S_r (<[idx := r]> polys) idx r)
          by (apply list_lookup_insert_eq; lia).
        rewrite take_insert_ge by lia. reflexivity.
    + assert (Ht : tidy_polyline vSize poly = Some poly)
        by (unfold tidy_polyline; rewrite Hrun; reflexivity).
      rewrite Ht. cbn [mbind option_bind].
      rewrite IH by lia. rewrite (take_S_r polys idx poly Hpoly).
      destruct (mapM (tidy_polyline vSize) (drop (S idx) polys));
        cbn [mbind option_bind mret option_ret];
        [rewrite <- app_assoc|]; reflexivity.
    + assert (Ht : tidy_polyline vSize poly = None)
        by (unfold tidy_polyline; rewrite Hrun; reflexivity).
      rewrite Ht. reflexivity.
  - assert (idx = length polys) by lia. subst idx.
    rewrite drop_all, take_ge by lia. cbn. rewrite app_nil_r. reflexivity.
Qed.

Lemma removeDegenerateVertsForEveryone_open (polys : Polygons) :
  size_of polys < 2 ^ 64 ->
  removeDegenerateVertsForEveryone vSize Open polys
  = match mapM (tidy_polyline vSize) polys with
    | Some tidied => Finished tidied
    | None => UndefinedBehaviour
    end.
Proof.
  intros Hsize. unfold removeDegenerateVertsForEveryone.
  apply (everyone_loop_polyline (S (length polys)) 0 polys);
    [lia|exact Hsize|lia].
Qed.

(** On open polylines the routine is idempotent: when a run returns, a
    second run returns the same set. *)
Theorem removeDegenerateVertsForEveryone_open_idempotent
    (polys polys' : Polygons) :
  representable polys ->
  removeDegenerateVertsForEveryone vSize Open polys = Finished polys' ->
  removeDegenerateVertsForEveryone vSize Open polys' = Finished polys'.
Proof.
  intros [Hsize Hsizes] Hrun.
  rewrite removeDegenerateVertsForEveryone_open in Hrun by exact Hsize.
  destruct (mapM (tidy_polyline vSize) polys) as [tidied|] eqn:Hm;
    [|discriminate Hrun].
  inversion Hrun; subst tidied; clear Hrun.
  apply mapM_Some in Hm.
  assert (Hlen : length polys' = length polys)
    by (symmetry; eapply Forall2_length; exact Hm).
  rewrite removeDegenerateVertsForEveryone_open
    by (unfold size_of in *; lia).
  replace (mapM (tidy_polyline vSize) polys') with (Some polys');
    [reflexivity|].
  symmetry. apply mapM_Some.
  clear Hsize Hlen. induction Hm as [|poly tidied polys polys' Ht _ IH].
  - constructor.
  - apply Forall_cons in Hsizes as [Hs Hrest]. constructor.
    + exact (proj2 (tidy_polyline_twice poly tidied Hs Ht)).
    + apply IH. exact Hrest.
Qed.
End PolylineRuns.

(** An open polyline that runs out to (10, 0) and back to (5, 0): the
    turning point goes, and a second run changes nothing. *)
Example removeDegenerateVertsForEveryone_open_spike :
  removeDegenerateVertsForEveryone vSize_floor Open
    [[mkPoint 0 0; mkPoint 10 0; mkPoint 5 0; mkPoint 5 5]]
  = Finished [[mkPoint 0 0; mkPoint 5 0; mkPoint 5 5]]
  /\ removeDegenerateVertsForEveryone_twice vSize_floor Open
       [[mkPoint 0 0; mkPoint 10 0; mkPoint 5 0; mkPoint 5 5]]
     = Finished [[mkPoint 0 0; mkPoint 5 0; mkPoint 5 5]].
Proof. split; vm_compute; reflexivity. Qed.

(** * Properties of the further routines *)

(** ** The walks over the nesting tree *)

(** Induction over a tree, two levels at a time: the property may be used
    for the children of the children. *)
Lemma PolyNode_induction2 (P : PolyNode -> Prop) :
  (forall contour childs,
     Forall (fun child => Forall P (Childs child)) childs ->
     P (mkPolyNode contour childs)) ->
  forall node, P node.
Proof.
  intros Hstep node.
  enough (H : P node /\ Forall P (Childs node)) by exact (proj1 H).
  induction node as [contour childs IH] using PolyNode_induction.
  assert (Hall : Forall P childs)
    by (eapply Forall_impl; [exact IH|]; intros child [H _]; exact H).
  split; [|exact Hall].
  apply Hstep. eapply Forall_impl; [exact IH|]. intros child [_ H]. exact H.
Qed.

Section SplitIntoParts.
Local Abbreviation walk := splitIntoParts_processPolyTreeNode.

Lemma splitIntoParts_holes (hs : list PolyNode) (part : PolygonsPart)
    (ret : list PolygonsPart) :
  Forall (fun hole => forall ret, walk hole ret = ret ++ parts_post hole) hs ->
  foldl (splitIntoParts_hole walk) (part, ret) hs
  = (part ++ map Contour hs, ret ++ concat (map parts_post hs)).
Proof.
  intros Hhs. revert part ret.
  induction Hhs as [|hole hs Hhole _ IH]; intros part ret.
  - cbn. rewrite !app_nil_r. reflexivity.
  - cbn [foldl]. unfold splitIntoParts_hole at 2. cbn [fst snd].
    rewrite IH, Hhole. cbn [map concat].
    rewrite <- !app_assoc. reflexivity.
Qed.

Lemma splitIntoParts_childs (cs : list PolyNode) (ret : list PolygonsPart) :
  Forall (fun child =>
            Forall (fun hole => forall ret,
                      walk hole ret = ret ++ parts_post hole)
              (Childs child)) cs ->
  foldl (splitIntoParts_child walk) ret cs
  = ret ++ concat (map (fun child =>
                          concat (map parts_post (Childs child))
                          ++ [part_of child]) cs).
Proof.
  intros Hcs. revert ret.
  induction Hcs as [|child cs Hchild _ IH]; intros ret.
  - cbn. rewrite app_nil_r. reflexivity.
  - cbn [foldl]. unfold splitIntoParts_child at 2.
    rewrite (splitIntoParts_holes _ _ _ Hchild). rewrite IH.
    cbn [map concat]. unfold part_of. cbn [app].
    rewrite <- !app_assoc. reflexivity.
Qed.

Lemma splitIntoParts_parts_post (node : PolyNode) (ret : list PolygonsPart) :
  walk node ret = ret ++ parts_post node.
Proof.
  revert ret. induction node as [contour childs IH] using PolyNode_induction2.
  intros ret. cbn [splitIntoParts_processPolyTreeNode parts_post Childs].
  apply splitIntoParts_childs. exact IH.
Qed.
End SplitIntoParts.

Lemma concat_cons_map {A B} (f : A -> B) (g : A -> list B) (l : list A) :
  concat (map (fun x => f x :: g x) l) ≡ₚ map f l ++ concat (map g l).
Proof.
  induction l as [|x l IH]; [reflexivity|].
  cbn [map concat app]. rewrite IH. apply perm_skip.
  rewrite !app_assoc. apply Permutation_app_tail, Permutation_app_comm.
Qed.

Lemma concat_map_Permutation {A B} (f g : A -> list B) (l : list A) :
  Forall (fun x => f x ≡ₚ g x) l ->
  concat (map f l) ≡ₚ concat (map g l).
Proof.
  induction 1 as [|x l Hx _ IH]; [reflexivity|].
  cbn [map concat]. rewrite Hx, IH. reflexivity.
Qed.

Lemma parts_post_contours (node : PolyNode) :
  concat (parts_post node) ≡ₚ contours_below node.
Proof.
  induction node as [contour childs IH] using PolyNode_induction2.
  cbn [parts_post contours_below Childs].
  induction IH as [|child cs Hchild _ IHcs]; [reflexivity|].
  cbn [map concat]. rewrite concat_app, IHcs.
  apply Permutation_app_tail.
  rewrite concat_app. cbn [concat]. rewrite app_nil_r.
  destruct child as [cc holes]. cbn [Childs Contour part_of] in *.
  unfold part_of. cbn [Contour Childs contours_below].
  rewrite <- Permutation_middle. apply perm_skip.
  rewrite concat_cons_map. rewrite Permutation_app_comm.
  apply Permutation_app_head.
  rewrite <- (concat_map_Permutation (fun h => concat (parts_post h))
               contours_below holes Hchild).
  clear. induction holes as [|h holes IH]; [reflexivity|].
  cbn [map concat]. rewrite concat_app, IH. reflexivity.
Qed.

Lemma parts_post_nonempty (node : PolyNode) :
  Forall (fun part => part <> []) (parts_post node).
Proof.
  induction node as [contour childs IH] using PolyNode_induction2.
  cbn [parts_post Childs].
  induction IH as [|child cs Hchild _ IHcs]; [constructor|].
  cbn [map concat]. apply Forall_app. split; [|exact IHcs].
  apply Forall_app. split.
  - apply Forall_concat, Forall_map. exact Hchild.
  - constructor; [discriminate|constructor].
Qed.

(** X1.  [splitIntoParts]: the parts found below a node, flattened, are
    the contours below the node up to their order, so every contour of the
    tree belongs to exactly one part; no part is empty, and the parts
    already in [ret] stay in front unchanged. *)
Theorem splitIntoParts_covers_contours (node : PolyNode)
    (ret : list PolygonsPart) :
  exists parts,
    splitIntoParts_processPolyTreeNode node ret = ret ++ parts
    /\ concat parts ≡ₚ contours_below node
    /\ Forall (fun part => part <> []) parts.
Proof.
  exists (parts_post node). split; [apply splitIntoParts_parts_post|].
  split; [apply parts_post_contours|apply parts_post_nonempty].
Qed.

Lemma contours_below_eq (node : PolyNode) :
  contours_below node
  = concat (map (fun child => Contour child :: contours_below child)
              (Childs node)).
Proof. destruct node. reflexivity. Qed.

Lemma assembles_app (polygons_ more : Polygons) (partView : list nat)
    (part : PolygonsPart) :
  assembles polygons_ partView part ->
  assembles (polygons_ ++ more) partView part.
Proof.
  unfold assembles. intros H. eapply Forall2_impl; [exact H|].
  intros i c. apply lookup_app_l_Some.
Qed.

Lemma assembles_all_app (polygons_ more : Polygons) (view : PartsView)
    (parts : list PolygonsPart) :
  Forall2 (assembles polygons_) view parts ->
  Forall2 (assembles (polygons_ ++ more)) view parts.
Proof.
  intros H. eapply Forall2_impl; [exact H|].
  intros partView part. apply assembles_app.
Qed.

Lemma alter_middle {A} (f : A -> A) (l1 : list A) (x : A) (l2 : list A) :
  alter f (length l1) (l1 ++ x :: l2) = l1 ++ f x :: l2.
Proof.
  rewrite alter_app_r_alt by lia. rewrite Nat.sub_diag. reflexivity.
Qed.

Section SplitIntoPartsView.
Local Abbreviation walk := splitIntoPartsView_processPolyTreeNode.
Local Abbreviation below :=
  (fun hs : list PolyNode =>
     concat (map (fun h => Contour h :: contours_below h) hs)).

Lemma splitIntoPartsView_holes (hs : list PolyNode) :
  Forall splitIntoPartsView_spec hs ->
  forall (view : PartsView) (part : list nat) (later : PartsView)
         (re : Polygons),
  exists idxs new_parts,
    foldl (splitIntoPartsView_hole walk (length view))
      (view ++ part :: later, re) hs
    = (view ++ (part ++ idxs) :: later ++ new_parts, re ++ below hs)
    /\ idxs ++ concat new_parts ≡ₚ seq (length re) (length (below hs))
    /\ assembles (re ++ below hs) idxs (map Contour hs)
    /\ Forall2 (assembles (re ++ below hs)) new_parts
         (concat (map parts_pre hs)).
Proof.
  induction 1 as [|h hs Hh _ IH]; intros view part later re.
  - exists [], []. cbn. rewrite !app_nil_r.
    repeat split; constructor.
  - destruct (Hh (view ++ (part ++ [length re]) :: later) (re ++ [Contour h]))
      as (pv_h & Hwalk & Hperm_h & Hasm_h).
    destruct (IH view (part ++ [length re]) (later ++ pv_h)
                ((re ++ [Contour h]) ++ contours_below h))
      as (idxs & pvs & Hfold & Hperm & Hidx & Hasm).
    exists (length re :: idxs), (pv_h ++ pvs).
    rewrite <- !app_assoc in Hfold, Hidx, Hasm. cbn [app] in Hfold, Hidx, Hasm.
    rewrite <- !app_assoc in Hasm_h. cbn [app] in Hasm_h.
    split; [|split; [|split]].
    + cbn [foldl].
      assert (Hstep : splitIntoPartsView_hole walk (length view)
                        (view ++ part :: later, re) h
                      = walk h (alter (fun part => part ++ [length re])
                                  (length view) (view ++ part :: later),
                                re ++ [Contour h])) by reflexivity.
      rewrite Hstep, alter_middle, Hwalk. clear Hstep.
      rewrite <- !app_assoc. cbn [app]. rewrite Hfold.
      cbn [map concat]. rewrite <- !app_assoc. reflexivity.
    + cbn [map concat app]. rewrite concat_app.
      assert (Hlen : length (re ++ [Contour h]) = S (length re))
        by (rewrite length_app; cbn [length]; lia).
      rewrite length_app, Hlen in Hperm. rewrite Hlen in Hperm_h.
      cbn [length]. rewrite length_app. cbn [seq]. apply perm_skip.
      rewrite seq_app, <- Hperm_h, <- Hperm.
      rewrite !app_assoc. apply Permutation_app_tail, Permutation_app_comm.
    + cbn [map]. constructor.
      * cbn [map concat]. apply list_lookup_middle. reflexivity.
      * cbn [map concat]. cbn [app]. exact Hidx.
    + cbn [map concat]. apply Forall2_app.
      * cbn [app].
        replace (re ++ Contour h :: contours_below h ++ below hs)
          with ((re ++ Contour h :: contours_below h) ++ below hs)
          by (rewrite <- app_assoc; reflexivity).
        apply assembles_all_app. exact Hasm_h.
      * cbn [app]. exact Hasm.
Qed.

Lemma splitIntoPartsView_childs (cs : list PolyNode) :
  Forall (fun child => Forall splitIntoPartsView_spec (Childs child)) cs ->
  forall (view : PartsView) (re : Polygons),
  exists new_parts,
    foldl (splitIntoPartsView_child walk) (view, re) cs
    = (view ++ new_parts, re ++ below cs)
    /\ concat new_parts ≡ₚ seq (length re) (length (below cs))
    /\ Forall2 (assembles (re ++ below cs)) new_parts
         (concat (map (fun child =>
                         part_of child
                         :: concat (map parts_pre (Childs child))) cs)).
Proof.
  induction 1 as [|child cs Hchild _ IH]; intros view re.
  - exists []. cbn. rewrite !app_nil_r. repeat split; constructor.
  - destruct (splitIntoPartsView_holes _ Hchild view [length re] []
                (re ++ [Contour child]))
      as (idxs & pvs & Hfold & Hperm & Hidx & Hasm).
    destruct (IH (view ++ (length re :: idxs) :: pvs)
                ((re ++ [Contour child]) ++ below (Childs child)))
      as (rest & Hrest & Hperm_rest & Hasm_rest).
    exists (((length re :: idxs) :: pvs) ++ rest).
    assert (Hlen : length (re ++ [Contour child]) = S (length re))
      by (rewrite length_app; cbn [length]; lia).
    assert (Hbelow : below (child :: cs)
                     = Contour child :: below (Childs child) ++ below cs).
    { cbn [map concat]. rewrite (contours_below_eq child). reflexivity. }
    assert (Hre : ((re ++ [Contour child]) ++ below (Childs child)) ++ below cs
                  = re ++ below (child :: cs)).
    { rewrite Hbelow, <- !app_assoc. reflexivity. }
    rewrite Hre in Hrest.
    split; [|split].
    + cbn [foldl].
      assert (Hstep : splitIntoPartsView_child walk (view, re) child
                      = foldl (splitIntoPartsView_hole walk (length view))
                          (view ++ [[length re]], re ++ [Contour child])
                          (Childs child)) by reflexivity.
      rewrite Hstep, Hfold. clear Hstep. cbn [app].
      rewrite Hrest, <- !app_assoc. reflexivity.
    + rewrite Hbelow. cbn [length seq]. rewrite length_app, seq_app.
      rewrite concat_app. cbn [concat app]. apply perm_skip.
      rewrite length_app, Hlen in Hperm_rest. rewrite Hlen in Hperm.
      rewrite Hperm, Hperm_rest. reflexivity.
    + rewrite <- Hre. cbn [map concat]. apply Forall2_app.
      * apply assembles_all_app. cbn [app].
        constructor; [|rewrite app_nil_l in *; exact Hasm].
        unfold part_of. constructor; [|exact Hidx].
        apply lookup_app_l_Some, list_lookup_middle. reflexivity.
      * exact Hasm_rest.
Qed.

Lemma splitIntoPartsView_spec_holds (node : PolyNode) :
  splitIntoPartsView_spec node.
Proof.
  induction node as [contour childs IH] using PolyNode_induction2.
  intros view re. cbn [splitIntoPartsView_processPolyTreeNode Childs].
  rewrite contours_below_eq. cbn [Childs parts_pre].
  apply splitIntoPartsView_childs. exact IH.
Qed.
End SplitIntoPartsView.

Lemma parts_post_pre (node : PolyNode) : parts_post node ≡ₚ parts_pre node.
Proof.
  induction node as [contour childs IH] using PolyNode_induction2.
  cbn [parts_post parts_pre Childs].
  apply concat_map_Permutation.
  eapply Forall_impl; [exact IH|]. intros child Hchild. cbn beta in *.
  rewrite <- Permutation_cons_append. apply perm_skip.
  apply concat_map_Permutation. exact Hchild.
Qed.

(** X2.  [splitIntoPartsView], started on an empty view: the polygons are
    put in the order of a walk that visits a contour before the contours
    below it, and every position of the reordered polygons is listed in
    exactly one part of the view. *)
Theorem splitIntoPartsView_partitions (node : PolyNode) :
  let result := splitIntoPartsView_processPolyTreeNode node ([], []) in
  result.2 = contours_below node
  /\ concat result.1 ≡ₚ seq 0 (length result.2).
Proof.
  destruct (splitIntoPartsView_spec_holds node [] [])
    as (parts & Hwalk & Hperm & _).
  cbn zeta. rewrite Hwalk. cbn [fst snd app length] in *.
  split; [reflexivity|exact Hperm].
Qed.

(** X3.  The two ways of splitting agree: the parts of the view of
    [splitIntoPartsView], each read through its indices in the reordered
    polygons, are the parts that [splitIntoParts] returns, up to the order
    of the parts. *)
Theorem splitIntoPartsView_agrees_with_splitIntoParts (node : PolyNode) :
  let result := splitIntoPartsView_processPolyTreeNode node ([], []) in
  exists parts,
    Forall2 (assembles result.2) result.1 parts
    /\ parts ≡ₚ splitIntoParts_processPolyTreeNode node [].
Proof.
  destruct (splitIntoPartsView_spec_holds node [] [])
    as (parts & Hwalk & _ & Hasm).
  cbn zeta. rewrite Hwalk. cbn [fst snd app] in *.
  exists (parts_pre node). split; [exact Hasm|].
  rewrite splitIntoParts_parts_post. cbn [app].
  symmetry. apply parts_post_pre.
Qed.

Lemma getPartContaining_from_cases (partsView : PartsView)
    (start poly_idx : nat) :
  (getPartContaining_from partsView start poly_idx = (NO_INDEX, None)
   /\ Forall (fun partView => poly_idx ∉ partView) partsView)
  \/ (exists i partView,
        getPartContaining_from partsView start poly_idx
        = (Z.of_nat (start + i), head partView)
        /\ partsView !! i = Some partView
        /\ poly_idx ∈ partView
        /\ Forall (fun partView => poly_idx ∉ partView) (take i partsView)).
Proof.
  revert start. induction partsView as [|partView rest IH]; intros start.
  - left. split; [reflexivity|constructor].
  - cbn [getPartContaining_from].
    assert (Hskip : poly_idx ∉ partView ->
      (getPartContaining_from rest (S start) poly_idx = (NO_INDEX, None)
       /\ Forall (fun partView => poly_idx ∉ partView) (partView :: rest))
      \/ (exists i partView0,
            getPartContaining_from rest (S start) poly_idx
            = (Z.of_nat (start + i), head partView0)
            /\ (partView :: rest) !! i = Some partView0
            /\ poly_idx ∈ partView0
            /\ Forall (fun partView => poly_idx ∉ partView)
                 (take i (partView :: rest)))).
    { intros Hnot. destruct (IH (S start)) as [[Hnone Hall]|Hfound].
      - left. split; [exact Hnone|constructor; assumption].
      - destruct Hfound as (i & pv & Hget & Hlook & Hin & Hbefore).
        right. exists (S i), pv.
        replace (start + S i)%nat with (S start + i)%nat by lia.
        repeat split; try assumption. cbn [take]. constructor; assumption. }
    destruct (length partView =? 0)%nat eqn:Hempty.
    + apply Hskip. apply Nat.eqb_eq in Hempty.
      destruct partView; [|discriminate]. apply not_elem_of_nil.
    + destruct (bool_decide (poly_idx ∈ partView)) eqn:Hdec.
      * apply bool_decide_eq_true in Hdec. right. exists 0%nat, partView.
        rewrite Nat.add_0_r. repeat split; try assumption. constructor.
      * apply bool_decide_eq_false in Hdec. apply Hskip, Hdec.
Qed.

(** X4.  [PartsView::getPartContaining] finds the first part that lists
    the polygon and reports the first index of that part as the boundary;
    it answers [NO_INDEX], and writes no boundary, exactly when no part
    lists the polygon. *)
Theorem getPartContaining_first_part (partsView : PartsView)
    (poly_idx : nat) :
  (getPartContaining partsView poly_idx = (NO_INDEX, None)
   /\ Forall (fun partView => poly_idx ∉ partView) partsView)
  \/ (exists part_idx partView,
        getPartContaining partsView poly_idx
        = (Z.of_nat part_idx, head partView)
        /\ partsView !! part_idx = Some partView
        /\ poly_idx ∈ partView
        /\ Forall (fun partView => poly_idx ∉ partView)
             (take part_idx partsView)).
Proof. exact (getPartContaining_from_cases partsView 0 poly_idx). Qed.

Lemma assembles_elem (polygons_ : Polygons) (partView : list nat)
    (part : PolygonsPart) (poly_idx : nat) :
  assembles polygons_ partView part ->
  poly_idx ∈ partView ->
  exists poly, polygons_ !! poly_idx = Some poly /\ poly ∈ part.
Proof.
  induction 1 as [|i poly partView part Hhead _ IH]; intros Hin.
  - apply elem_of_nil in Hin. contradiction.
  - apply elem_of_cons in Hin. destruct Hin as [->|Hin].
    + exists poly. split; [exact Hhead|apply list_elem_of_here].
    + destruct (IH Hin) as (poly' & Hlook & Hin').
      exists poly'. split; [exact Hlook|apply list_elem_of_further, Hin'].
Qed.

Lemma elem_of_concat {A} (x : A) (ls : list (list A)) :
  x ∈ concat ls -> exists l, x ∈ l /\ l ∈ ls.
Proof.
  induction ls as [|l ls IH]; cbn [concat]; intros Hin.
  - apply elem_of_nil in Hin. contradiction.
  - apply elem_of_app in Hin. destruct Hin as [Hin|Hin].
    + exists l. split; [exact Hin|apply list_elem_of_here].
    + destruct (IH Hin) as (l' & Hx & Hl').
      exists l'. split; [exact Hx|apply list_elem_of_further, Hl'].
Qed.

(** X5.  Round trip through the view: after [splitIntoPartsView], asking
    for the part that contains any position of the reordered polygons
    gives a part that [splitIntoParts] returns too and that holds the
    polygon at that position.  The view has fewer than [NO_INDEX] parts,
    as every vector has. *)
Theorem assemblePartContaining_round_trip (node : PolyNode) (poly_idx : nat) :
  let result := splitIntoPartsView_processPolyTreeNode node ([], []) in
  Z.of_nat (length result.1) <= SIZE_MAX ->
  (poly_idx < length result.2)%nat ->
  exists part poly,
    assemblePartContaining result.1 result.2 poly_idx = Some part
    /\ part ∈ splitIntoParts_processPolyTreeNode node []
    /\ result.2 !! poly_idx = Some poly
    /\ poly ∈ part.
Proof.
  destruct (splitIntoPartsView_spec_holds node [] [])
    as (view & Hwalk & Hperm & Hasm).
  cbn zeta. rewrite Hwalk. cbn [fst snd app length] in *.
  intros Hsize Hidx.
  assert (Hin : poly_idx ∈ concat view).
  { rewrite Hperm. apply elem_of_seq. lia. }
  unfold assemblePartContaining.
  destruct (getPartContaining_from_cases view 0 poly_idx)
    as [[_ Hnone]|(i & partView & Hget & Hlook & Hpart & _)].
  { exfalso. apply elem_of_concat in Hin.
    destruct Hin as (partView & Hpoly & HpartView).
    rewrite Forall_forall in Hnone. exact (Hnone _ HpartView Hpoly). }
  unfold getPartContaining. rewrite Hget. cbn [fst Nat.add].
  assert (Hlt : (i < length view)%nat) by (eapply lookup_lt_Some; exact Hlook).
  assert (Hne : (Z.of_nat i =? NO_INDEX) = false).
  { apply Z.eqb_neq. unfold NO_INDEX. lia. }
  unfold assemblePart. rewrite Hne. cbn [negb]. rewrite Nat2Z.id, Hlook.
  cbn [mbind option_bind].
  destruct (Forall2_lookup_l _ _ _ _ _ Hasm Hlook) as (part & Hpart_at & Hpart_asm).
  destruct (assembles_elem _ _ _ _ Hpart_asm Hpart) as (poly & Hpoly & Hpoly_in).
  exists part, poly. split; [apply mapM_Some_2; exact Hpart_asm|].
  split; [|split; assumption].
  rewrite splitIntoParts_parts_post. cbn [app]. rewrite parts_post_pre.
  eapply list_elem_of_lookup_2. exact Hpart_at.
Qed.

(** A tree on which the round trip through the view can be run. *)
Lemma assemblePartContaining_round_trip_witness :
  let result := splitIntoPartsView_processPolyTreeNode example_tree ([], []) in
  exists part poly,
    assemblePartContaining result.1 result.2 1 = Some part
    /\ part ∈ splitIntoParts_processPolyTreeNode example_tree []
    /\ result.2 !! 1%nat = Some poly
    /\ poly ∈ part.
Proof.
  apply (assemblePartContaining_round_trip example_tree 1).
  - vm_compute. discriminate.
  - vm_compute. lia.
Defined.

Section SortByNesting.
Local Abbreviation walk := sortByNesting_processPolyTreeNode.
Local Abbreviation heights :=
  (fun cs : list PolyNode => max_list (map (fun child => S (height child)) cs)).
Local Abbreviation levels :=
  (fun (depth : nat) (cs : list PolyNode) =>
     match depth with
     | O => map Contour cs
     | S depth' => concat (map (level depth') cs)
     end).

Lemma layer_at_resize (ret : list Polygons) (n i : nat) :
  layer_at (ret ++ replicate n []) i = layer_at ret i.
Proof.
  unfold layer_at. rewrite lookup_app.
  destruct (ret !! i) as [layer|]; [reflexivity|].
  destruct (replicate n [] !! (i - length ret)%nat) as [layer|] eqn:Hrep;
    [|reflexivity].
  apply lookup_replicate in Hrep. destruct Hrep as [-> _]. reflexivity.
Qed.

Lemma layer_at_alter (f : Polygons -> Polygons) (ret : list Polygons)
    (k i : nat) :
  (k < length ret)%nat ->
  layer_at (alter f k ret) i
  = if (i =? k)%nat then f (layer_at ret k) else layer_at ret i.
Proof.
  intros Hk. unfold layer_at. destruct (Nat.eqb_spec i k) as [->|Hne].
  - rewrite list_lookup_alter_eq.
    destruct (lookup_lt_is_Some_2 ret k Hk) as [layer ->]. reflexivity.
  - rewrite list_lookup_alter_ne by congruence. reflexivity.
Qed.

Lemma sortByNesting_childs (cs : list PolyNode) :
  Forall sortByNesting_spec cs ->
  forall (k : nat) (ret : list Polygons),
    length (foldl (sortByNesting_child walk k) ret cs)
    = (length ret
       `max` (if (heights cs =? 0)%nat then 0 else k + heights cs))%nat
    /\ forall i,
         layer_at (foldl (sortByNesting_child walk k) ret cs) i
         = layer_at ret i
           ++ (if (k <=? i)%nat then levels (i - k)%nat cs else []).
Proof.
  induction 1 as [|c cs Hc _ IH]; intros k ret.
  - cbn [foldl map max_list]. split; [cbn; lia|].
    intros i. destruct (k <=? i)%nat; [destruct (i - k)%nat|];
      cbn; rewrite app_nil_r; reflexivity.
  - cbn [foldl].
    set (resized := if (length ret <=? k)%nat
                    then ret ++ replicate (k + 1 - length ret) [] else ret).
    assert (Hlen_resized : length resized = (length ret `max` (k + 1))%nat).
    { subst resized. destruct (Nat.leb_spec (length ret) k).
      - rewrite length_app, length_replicate. lia.
      - lia. }
    assert (Hlayer_resized : forall i, layer_at resized i = layer_at ret i).
    { intros i. subst resized. destruct (length ret <=? k)%nat;
        [apply layer_at_resize|reflexivity]. }
    assert (Hstep : sortByNesting_child walk k ret c
              = walk c (k + 1)%nat
                  (alter (fun layer => layer ++ [Contour c]) k resized))
      by reflexivity.
    rewrite Hstep. clear Hstep.
    destruct (Hc (k + 1)%nat
                (alter (fun layer => layer ++ [Contour c]) k resized))
      as [Hlen_c Hlayer_c].
    destruct (IH k (walk c (k + 1)%nat
                      (alter (fun layer => layer ++ [Contour c]) k resized)))
      as [Hlen Hlayer].
    rewrite length_alter, Hlen_resized in Hlen_c.
    split.
    + rewrite Hlen, Hlen_c. cbn [map max_list].
      generalize (max_list (map (fun child => S (height child)) cs)).
      generalize (height c). intros h hs. unfold id.
      destruct (Nat.eqb_spec h 0), (Nat.eqb_spec hs 0);
        destruct (Nat.eqb_spec (S h `max` hs) 0); lia.
    + intros i. rewrite Hlayer, Hlayer_c.
      rewrite layer_at_alter by lia. rewrite !Hlayer_resized.
      destruct (Nat.leb_spec k i) as [Hki|Hki].
      * destruct (Nat.eqb_spec i k) as [->|Hne].
        -- rewrite Nat.sub_diag.
           destruct (Nat.leb_spec (k + 1) k); [lia|].
           cbn [map]. rewrite app_nil_r, <- app_assoc. reflexivity.
        -- destruct (Nat.leb_spec (k + 1) i); [|lia].
           replace (i - k)%nat with (S (i - (k + 1))) by lia.
           cbn [map concat]. rewrite <- !app_assoc. reflexivity.
      * destruct (Nat.eqb_spec i k); [lia|].
        destruct (Nat.leb_spec (k + 1) i); [lia|].
        rewrite !app_nil_r. reflexivity.
Qed.

Lemma sortByNesting_spec_holds (node : PolyNode) : sortByNesting_spec node.
Proof.
  induction node as [contour childs IH] using PolyNode_induction.
  intros k ret.
  destruct (sortByNesting_childs childs IH k ret) as [Hlen Hlayer].
  split; [exact Hlen|].
  intros i. etransitivity; [exact (Hlayer i)|].
  destruct (k <=? i)%nat; [destruct (i - k)%nat|]; reflexivity.
Qed.
End SortByNesting.

Lemma max_list_gt (l : list nat) (n : nat) :
  (n < max_list l)%nat -> exists x, x ∈ l /\ (n < x)%nat.
Proof.
  induction l as [|x l IH]; intros Hlt; cbn [max_list_with] in Hlt; [lia|].
  destruct (Nat.lt_ge_cases n x) as [Hx|Hx].
  - exists x. split; [apply list_elem_of_here|exact Hx].
  - assert (Hrest : (n < max_list l)%nat) by (change (id x) with x in Hlt; lia).
    destruct (IH Hrest) as (y & Hy & Hny).
    exists y. split; [apply list_elem_of_further, Hy|exact Hny].
Qed.

Lemma level_nonempty (depth : nat) :
  forall node, (depth < height node)%nat -> level depth node <> [].
Proof.
  induction depth as [|depth IH]; intros [contour childs] Hlt;
    cbn [level height Childs] in *.
  - destruct childs; [cbn in Hlt; lia|discriminate].
  - apply max_list_gt in Hlt. destruct Hlt as (h & Hh & Hlt).
    apply list_elem_of_fmap in Hh. destruct Hh as (child & -> & Hchild).
    assert (Hne : level depth child <> []) by (apply IH; lia).
    intros Hnil. apply Hne.
    clear -Hnil Hchild. induction Hchild as [child cs|child c cs _ IHc];
      cbn [map concat] in Hnil; apply app_eq_nil in Hnil;
      destruct Hnil as [Hhead Htail]; [exact Hhead|exact (IHc Htail)].
Qed.

(** X6.  [sortByNesting], started at nesting index 0 on an empty result:
    layer [d] holds exactly the contours [d] levels below the outermost
    ones, in the order of the tree; there are as many layers as the tree
    has levels, and no layer is empty. *)
Theorem sortByNesting_layers (node : PolyNode) :
  let ret := sortByNesting_processPolyTreeNode node 0 [] in
  ret = map (fun depth => level depth node) (seq 0 (height node))
  /\ Forall (fun layer => layer <> []) ret.
Proof.
  destruct (sortByNesting_spec_holds node 0%nat []) as [Hlen Hlayer].
  cbn zeta.
  assert (Hlen' : length (sortByNesting_processPolyTreeNode node 0 [])
                  = height node).
  { rewrite Hlen. cbn [length]. destruct (Nat.eqb_spec (height node) 0); lia. }
  assert (Heq : sortByNesting_processPolyTreeNode node 0 []
                = map (fun depth => level depth node) (seq 0 (height node))).
  { apply list_eq. intros i. rewrite list_lookup_fmap.
    destruct (Nat.lt_ge_cases i (height node)) as [Hi|Hi].
    - rewrite lookup_seq_lt by exact Hi. cbn [fmap option_fmap option_map].
      assert (His : is_Some (sortByNesting_processPolyTreeNode node 0 [] !! i))
        by (apply lookup_lt_is_Some_2; lia).
      destruct His as [layer Hlook]. rewrite Hlook. f_equal.
      specialize (Hlayer i). unfold layer_at in Hlayer.
      rewrite Hlook, lookup_nil, Nat.sub_0_r in Hlayer. exact Hlayer.
    - rewrite lookup_seq_ge by exact Hi.
      apply lookup_ge_None_2. lia. }
  split; [exact Heq|].
  rewrite Heq. apply Forall_map, Forall_forall. intros depth Hdepth.
  apply elem_of_seq in Hdepth. apply level_nonempty. lia.
Qed.

Lemma concat_map_sublist {A B} (f g : A -> list B) (l : list A) :
  Forall (fun x => f x `sublist_of` g x) l ->
  concat (map f l) `sublist_of` concat (map g l).
Proof.
  induction 1 as [|x l Hx _ IH]; [constructor|].
  cbn [map concat]. apply sublist_app; assumption.
Qed.

Lemma concat_map_Permutation_app {A B} (f g e : A -> list B) (l : list A) :
  Forall (fun x => f x ≡ₚ g x ++ e x) l ->
  concat (map f l) ≡ₚ concat (map g l) ++ concat (map e l).
Proof.
  induction 1 as [|x l Hx _ IH]; [reflexivity|].
  cbn [map concat]. rewrite Hx, IH. rewrite <- !app_assoc.
  apply Permutation_app_head. rewrite !app_assoc.
  apply Permutation_app_tail, Permutation_app_comm.
Qed.

Section RemoveEmptyHoles.
Local Abbreviation walk := removeEmptyHoles_processPolyTreeNode.

Lemma removeEmptyHoles_holes (hs : list PolyNode) :
  Forall (fun hole => forall ret, walk hole true ret = ret ++ kept_contours hole)
    hs ->
  forall ret,
    foldl (removeEmptyHoles_hole walk true) ret hs
    = ret ++ concat (map (fun hole =>
                            match Childs hole with
                            | [] => []
                            | _ :: _ => Contour hole :: kept_contours hole
                            end) hs).
Proof.
  induction 1 as [|h hs Hh _ IH]; intros ret.
  - cbn. rewrite app_nil_r. reflexivity.
  - cbn [foldl map concat]. rewrite IH. unfold removeEmptyHoles_hole.
    destruct (Childs h) as [|c cs] eqn:Hchilds; cbn [length Nat.ltb Nat.leb Bool.eqb].
    + rewrite app_nil_l. reflexivity.
    + rewrite Hh, <- !app_assoc. reflexivity.
Qed.

Lemma removeEmptyHoles_childs (cs : list PolyNode) :
  Forall (fun child =>
            Forall (fun hole => forall ret,
                      walk hole true ret = ret ++ kept_contours hole)
              (Childs child)) cs ->
  forall ret,
    foldl (removeEmptyHoles_child walk true) ret cs
    = ret ++ concat (map (fun child =>
                 Contour child
                 :: concat (map (fun hole =>
                                   match Childs hole with
                                   | [] => []
                                   | _ :: _ => Contour hole :: kept_contours hole
                                   end) (Childs child))) cs).
Proof.
  induction 1 as [|child cs Hchild _ IH]; intros ret.
  - cbn. rewrite app_nil_r. reflexivity.
  - cbn [foldl map concat]. rewrite IH. unfold removeEmptyHoles_child.
    rewrite (removeEmptyHoles_holes _ Hchild).
    rewrite <- !app_assoc. reflexivity.
Qed.

Lemma removeEmptyHoles_kept (node : PolyNode) (ret : Polygons) :
  walk node true ret = ret ++ kept_contours node.
Proof.
  revert ret. induction node as [contour childs IH] using PolyNode_induction2.
  intros ret. apply removeEmptyHoles_childs. exact IH.
Qed.

Lemma getEmptyHoles_holes (hs : list PolyNode) (ret : Polygons) :
  foldl (removeEmptyHoles_hole walk false) ret hs
  = ret ++ map Contour (filter (fun hole => Childs hole = []) hs).
Proof.
  revert ret. induction hs as [|h hs IH]; intros ret.
  - cbn. rewrite app_nil_r. reflexivity.
  - cbn [foldl]. rewrite IH. unfold removeEmptyHoles_hole.
    rewrite filter_cons. destruct h as [contour [|c cs]]; cbn [Childs Contour].
    + rewrite decide_True by reflexivity. cbn. rewrite <- app_assoc.
      reflexivity.
    + rewrite decide_False by discriminate. reflexivity.
Qed.
End RemoveEmptyHoles.

Lemma kept_contours_sublist (node : PolyNode) :
  kept_contours node `sublist_of` contours_below node.
Proof.
  induction node as [contour childs IH] using PolyNode_induction2.
  cbn [kept_contours contours_below Childs].
  apply concat_map_sublist. eapply Forall_impl; [exact IH|].
  intros child Hchild. cbn beta in *. rewrite (contours_below_eq child).
  apply sublist_skip, concat_map_sublist.
  eapply Forall_impl; [exact Hchild|]. intros hole Hhole. cbn beta in *.
  destruct (Childs hole); [apply sublist_nil_l|apply sublist_skip, Hhole].
Qed.

Lemma kept_contours_complement (node : PolyNode) :
  contours_below node ≡ₚ kept_contours node ++ empty_holes node.
Proof.
  induction node as [contour childs IH] using PolyNode_induction2.
  cbn [kept_contours contours_below empty_holes Childs].
  apply concat_map_Permutation_app. eapply Forall_impl; [exact IH|].
  intros child Hchild. cbn beta in *. rewrite (contours_below_eq child).
  cbn [app]. apply perm_skip, concat_map_Permutation_app.
  eapply Forall_impl; [exact Hchild|]. intros hole Hhole. cbn beta in *.
  rewrite (contours_below_eq hole) in *.
  destruct (Childs hole); [reflexivity|].
  cbn [app]. apply perm_skip, Hhole.
Qed.

(** X7.  [removeEmptyHoles]: what is appended to [ret] keeps the order of
    the tree, and what is left out is exactly the holes with nothing
    inside, at any depth; outlines and holes that hold an island are all
    kept. *)
Theorem removeEmptyHoles_removes_only_empty_holes (node : PolyNode)
    (ret : Polygons) :
  exists kept,
    removeEmptyHoles_processPolyTreeNode node true ret = ret ++ kept
    /\ kept `sublist_of` contours_below node
    /\ contours_below node ≡ₚ kept ++ empty_holes node.
Proof.
  exists (kept_contours node). split; [apply removeEmptyHoles_kept|].
  split; [apply kept_contours_sublist|apply kept_contours_complement].
Qed.

(** X8.  [getEmptyHoles] does not descend: it returns the holes with
    nothing inside among the holes of the outermost outlines only, so an
    empty hole of an island inside a hole is never returned. *)
Theorem getEmptyHoles_outermost_only (node : PolyNode) (ret : Polygons) :
  removeEmptyHoles_processPolyTreeNode node false ret
  = ret ++ outer_empty_holes node.
Proof.
  destruct node as [contour childs].
  cbn [removeEmptyHoles_processPolyTreeNode Childs]. unfold outer_empty_holes.
  cbn [Childs]. revert ret. induction childs as [|child cs IH]; intros ret.
  - cbn. rewrite app_nil_r. reflexivity.
  - cbn [foldl map concat]. rewrite IH. unfold removeEmptyHoles_child.
    rewrite getEmptyHoles_holes, <- !app_assoc. reflexivity.
Qed.

(** ** [insideOld] and [findInside] *)

Section InsideOld.
Variable comp : classifier.
Variable p : Point2LL.

Local Abbreviation right_of := (fun e : Point2LL * Point2LL => comp p e.1 e.2 = 1).

Lemma insideOld_edges_counts (pts : Polygon) (p0 : Point2LL) (crossings : Z) :
  (forall e, e ∈ edges_from p0 pts -> comp p e.1 e.2 <> 0) ->
  insideOld_edges comp p p0 pts crossings
  = Some (crossings + Z.of_nat (length (filter right_of (edges_from p0 pts)))).
Proof.
  revert p0 crossings.
  induction pts as [|p1 rest IH]; intros p0 crossings Hnb.
  - cbn. rewrite Z.add_0_r. reflexivity.
  - cbn [insideOld_edges edges_from]. rewrite filter_cons. cbn [fst snd].
    destruct (Z.eqb_spec (comp p p0 p1) 1) as [E1|N1].
    + rewrite decide_True by exact E1. cbn [length].
      rewrite IH by (intros e He; apply Hnb; right; exact He).
      f_equal. lia.
    + rewrite decide_False by exact N1.
      destruct (Z.eqb_spec (comp p p0 p1) 0) as [E0|_].
      { exfalso. apply (Hnb (p0, p1)); [left|exact E0]. }
      apply IH. intros e He. apply Hnb. right. exact He.
Qed.

Lemma insideOld_edges_border (pts : Polygon) (p0 : Point2LL) (crossings : Z) :
  (exists e, e ∈ edges_from p0 pts /\ comp p e.1 e.2 = 0) ->
  insideOld_edges comp p p0 pts crossings = None.
Proof.
  revert p0 crossings.
  induction pts as [|p1 rest IH]; intros p0 crossings (e & He & E0).
  - inversion He.
  - cbn [insideOld_edges edges_from] in *.
    destruct (Z.eqb_spec (comp p p0 p1) 1) as [E1|N1].
    + apply IH. apply elem_of_cons in He as [->|He].
      * cbn in E0. congruence.
      * exists e. split; assumption.
    + destruct (Z.eqb_spec (comp p p0 p1) 0) as [_|N0]; [reflexivity|].
      apply IH. apply elem_of_cons in He as [->|He].
      * cbn in E0. contradiction.
      * exists e. split; assumption.
Qed.

Lemma insideOld_polygon_counts (poly : Polygon) (p0 : Point2LL)
    (crossings : Z) :
  back poly = Some p0 ->
  ~ on_border comp p poly ->
  insideOld_edges comp p p0 poly crossings
  = Some (crossings + crossing_count comp p poly).
Proof.
  intros Hback Hnb. rewrite insideOld_edges_counts.
  - unfold crossing_count, right_crossings, polygon_edges. rewrite Hback.
    reflexivity.
  - intros e He E0. apply Hnb. exists e.
    unfold polygon_edges. rewrite Hback. split; assumption.
Qed.

Lemma insideOld_loop_counts (border_result : bool) (polys : Polygons)
    (crossings : Z) :
  Forall (fun poly => poly <> []) polys ->
  Forall (fun poly => ~ on_border comp p poly) polys ->
  insideOld_loop comp p border_result polys crossings
  = Some (Z.rem (crossings
                 + foldr Z.add 0 (map (crossing_count comp p) polys)) 2 =? 1).
Proof.
  revert crossings.
  induction polys as [|poly rest IH]; intros crossings Hne Hnb.
  - cbn. rewrite Z.add_0_r. reflexivity.
  - apply Forall_cons in Hne as [Hpoly Hrest].
    apply Forall_cons in Hnb as [Hpb Hnb].
    cbn [insideOld_loop map foldr].
    destruct (back_nonempty poly Hpoly) as [p0 Hback]. rewrite Hback.
    rewrite (insideOld_polygon_counts poly p0 crossings Hback Hpb).
    rewrite (IH _ Hrest Hnb). do 3 f_equal. lia.
Qed.

Lemma insideOld_loop_border (border_result : bool) (pre rest : Polygons)
    (poly : Polygon) (crossings : Z) :
  Forall (fun poly => poly <> []) pre ->
  Forall (fun poly => ~ on_border comp p poly) pre ->
  on_border comp p poly ->
  insideOld_loop comp p border_result (pre ++ poly :: rest) crossings
  = Some border_result.
Proof.
  revert crossings.
  induction pre as [|q pre IH]; intros crossings Hne Hnb Hb.
  - cbn [app insideOld_loop].
    destruct Hb as (e & He & E0). unfold polygon_edges in He.
    destruct (back poly) as [p0|]; [|inversion He].
    rewrite insideOld_edges_border; [reflexivity|]. exists e. split; assumption.
  - apply Forall_cons in Hne as [Hq Hne]. apply Forall_cons in Hnb as [Hqb Hnb].
    cbn [app insideOld_loop]. destruct (back_nonempty q Hq) as [p0 Hback].
    rewrite Hback.
    rewrite (insideOld_polygon_counts q p0 crossings Hback Hqb).
    apply (IH _ Hne Hnb Hb).
Qed.

Lemma crossing_sum_parity (polys : Polygons) :
  0 <= foldr Z.add 0 (map (crossing_count comp p) polys)
  /\ Z.odd (foldr Z.add 0 (map (crossing_count comp p) polys))
     = Nat.odd (count_odd comp p polys).
Proof.
  unfold count_odd. induction polys as [|poly rest [IHnn IH]].
  - split; [cbn; lia|reflexivity].
  - cbn [map foldr]. split; [unfold crossing_count at 1; lia|].
    rewrite Z.odd_add, IH, filter_cons.
    destruct (decide (odd_crossings comp p poly)) as [Ho|Hn].
    + unfold odd_crossings in Ho. rewrite Ho. cbn [length].
      rewrite Nat.odd_succ, <- Nat.negb_odd. reflexivity.
    + unfold odd_crossings in Hn. apply not_true_is_false in Hn.
      rewrite Hn. reflexivity.
Qed.
End InsideOld.

Lemma not_on_border_check (comp : classifier) (p : Point2LL) (poly : Polygon) :
  forallb (fun e => negb (comp p e.1 e.2 =? 0)) (polygon_edges poly) = true ->
  ~ on_border comp p poly.
Proof.
  intros Hall (e & He & E0). rewrite forallb_forall in Hall.
  apply list_elem_of_In in He. specialize (Hall e He).
  rewrite E0 in Hall. discriminate Hall.
Qed.

Lemma on_border_check (comp : classifier) (p : Point2LL) (poly : Polygon) :
  existsb (fun e => comp p e.1 e.2 =? 0) (polygon_edges poly) = true ->
  on_border comp p poly.
Proof.
  intros Hex. apply existsb_exists in Hex. destruct Hex as (e & He & E0).
  exists e. split; [apply list_elem_of_In; exact He|].
  apply Z.eqb_eq. exact E0.
Qed.

Lemma small_point_check (q : Point2LL) :
  (Z.abs (X q) <=? 2 ^ 30) && (Z.abs (Y q) <=? 2 ^ 30) = true ->
  small_point q.
Proof.
  intros H. apply andb_true_iff in H. destruct H as [Hx Hy].
  split; apply Z.leb_le; assumption.
Qed.

(** X9.  [insideOld] away from the edges: when no polygon is empty and
    the point lies on no edge, the answer is the parity of the number of
    polygons with an odd crossing count, whatever [border_result] is; on
    an empty set it is [false]. *)
Theorem insideOld_parity (comp : classifier) (polys : Polygons)
    (p : Point2LL) (border_result : bool) :
  Forall (fun poly => poly <> []) polys ->
  Forall (fun poly => ~ on_border comp p poly) polys ->
  insideOld comp polys p border_result
  = Some (Nat.odd (count_odd comp p polys)).
Proof.
  intros Hne Hnb. unfold insideOld.
  destruct (Z.ltb_spec (size_of polys) 1) as [Hs|Hs].
  - destruct polys; [reflexivity|]. unfold size_of in Hs. cbn [length] in Hs.
    lia.
  - rewrite (insideOld_loop_counts comp p border_result polys 0 Hne Hnb).
    destruct (crossing_sum_parity comp p polys) as [Hnn Hpar].
    rewrite Z.add_0_l, rem2_is_odd by exact Hnn. rewrite Hpar. reflexivity.
Qed.

Lemma insideOld_parity_witness :
  insideOld pointLiesOnTheRightOfLine nested_squares (mkPoint 50 50) true
  = Some (Nat.odd (count_odd pointLiesOnTheRightOfLine (mkPoint 50 50)
                     nested_squares)).
Proof.
  apply (insideOld_parity pointLiesOnTheRightOfLine nested_squares
           (mkPoint 50 50) true).
  - repeat constructor; discriminate.
  - repeat constructor; apply not_on_border_check; vm_compute; reflexivity.
Defined.

(** X10.  [insideOld] on an edge: the first polygon that has the point on
    one of its edges ends the count with [border_result], also when
    [border_result] is [false]; [findInside] leaves its loop at an edge
    only when the flag is set. *)
Theorem insideOld_on_border (comp : classifier) (pre rest : Polygons)
    (poly : Polygon) (p : Point2LL) (border_result : bool) :
  Forall (fun poly => poly <> []) pre ->
  Forall (fun poly => ~ on_border comp p poly) pre ->
  on_border comp p poly ->
  insideOld comp (pre ++ poly :: rest) p border_result = Some border_result.
Proof.
  intros Hne Hnb Hb. unfold insideOld.
  assert (Hs : (size_of (pre ++ poly :: rest) <? 1) = false).
  { apply Z.ltb_ge. unfold size_of. rewrite length_app. cbn [length]. lia. }
  rewrite Hs. apply insideOld_loop_border; assumption.
Qed.

Lemma insideOld_on_border_witness :
  insideOld pointLiesOnTheRightOfLine
    ([ [mkPoint 0 0; mkPoint 100 0; mkPoint 100 100; mkPoint 0 100] ]
     ++ [mkPoint 10 10; mkPoint 90 10; mkPoint 90 90; mkPoint 10 90]
     :: [ [mkPoint 20 20; mkPoint 80 20; mkPoint 80 80; mkPoint 20 80] ])
    (mkPoint 50 10) false
  = Some false.
Proof.
  apply (insideOld_on_border pointLiesOnTheRightOfLine).
  - repeat constructor; discriminate.
  - repeat constructor; apply not_on_border_check; vm_compute; reflexivity.
  - apply on_border_check. vm_compute. reflexivity.
Defined.

(** X11.  The two containment tests agree away from the edges: on a set
    that is not empty, with no empty polygon, coordinates of at most
    [2^30] in absolute value and the point on no edge, [insideOld] answers
    [true] exactly when [findInside] finds a polygon, that is, answers
    something else than [NO_INDEX]. *)
Theorem insideOld_agrees_with_findInside (comp : classifier)
    (polys : Polygons) (p : Point2LL) (border_result : bool) :
  polys <> [] ->
  size_of polys < 2 ^ 64 ->
  Forall (fun poly => poly <> []) polys ->
  small_point p -> Forall (Forall small_point) polys ->
  Forall (fun poly => ~ on_border comp p poly) polys ->
  exists r,
    findInside comp polys p border_result = Some r
    /\ insideOld comp polys p border_result = Some (negb (r =? NO_INDEX)).
Proof.
  intros Hne Hsize Hpolys Hp Hsmall Hnb.
  destruct (findInside_parity_rule comp polys p border_result Hne Hpolys
              (fun _ => Hnb)) as (r & Hr & Heven & Hodd).
  exists r. split; [exact Hr|].
  unfold insideOld.
  assert (Hs : (size_of polys <? 1) = false).
  { apply Z.ltb_ge. unfold size_of. destruct polys; [contradiction|].
    cbn [length]. lia. }
  rewrite Hs.
  rewrite (insideOld_loop_counts comp p border_result polys 0 Hpolys Hnb).
  destruct (crossing_sum_parity comp p polys) as [Hnn Hpar].
  rewrite Z.add_0_l, rem2_is_odd by exact Hnn. rewrite Hpar.
  rewrite <- Nat.negb_even. f_equal. f_equal.
  destruct (Nat.even (count_odd comp p polys)) eqn:Hev.
  - rewrite (Heven eq_refl). symmetry. apply Z.eqb_refl.
  - destruct (Hodd eq_refl) as (i & -> & poly & Hi & _).
    { intros poly Hin Hpo. apply recorded_min_x_small; [exact Hp| |exact Hpo].
      rewrite Forall_forall in Hsmall. exact (Hsmall poly Hin). }
    apply lookup_lt_Some in Hi. symmetry. apply Z.eqb_neq.
    unfold size_of in Hsize. unfold NO_INDEX, SIZE_MAX. lia.
Qed.

Lemma insideOld_agrees_with_findInside_witness :
  exists r,
    findInside pointLiesOnTheRightOfLine nested_squares (mkPoint 50 50) false
    = Some r
    /\ insideOld pointLiesOnTheRightOfLine nested_squares (mkPoint 50 50) false
       = Some (negb (r =? NO_INDEX)).
Proof.
  apply (insideOld_agrees_with_findInside pointLiesOnTheRightOfLine
           nested_squares (mkPoint 50 50) false).
  - discriminate.
  - vm_compute. reflexivity.
  - repeat constructor; discriminate.
  - apply small_point_check. vm_compute. reflexivity.
  - repeat constructor; apply small_point_check; vm_compute; reflexivity.
  - repeat constructor; apply not_on_border_check; vm_compute; reflexivity.
Defined.

(** ** The smoothing action on four points or more *)

Section SmoothAction.
Variable fl : float_ops.
Variables max_resolution smooth_distance size : Z.
Variable fluid_angle : double fl.

Local Abbreviation window :=
  (smooth_window fl max_resolution smooth_distance fluid_angle size).
Local Abbreviation windows :=
  (smooth_windows fl max_resolution smooth_distance fluid_angle size).

Lemma smooth_windows_app (l1 l2 : list nat) (st : smooth_state) :
  windows (l1 ++ l2) st = windows l1 st ≫= windows l2.
Proof.
  revert st. induction l1 as [|i l1 IH]; intros st; [reflexivity|].
  cbn [app smooth_windows].
  destruct (decide (i ∈ to_remove st)); [apply IH|].
  destruct (Nat.eqb_spec (i + 2) 0) as [Hzero|_]; [lia|].
  destruct (window i st) as [st'|]; [|reflexivity].
  cbn [mbind option_bind]. apply IH.
Qed.

Lemma apply_action_keeps (i : nat) (a : endpoint_action) (st : smooth_state) :
  length (pts (apply_action i a st)) = length (pts st)
  /\ forall j, j ∈ to_remove (apply_action i a st) ->
       j ∈ to_remove st \/ j = i.
Proof.
  destruct a as [q'| |]; cbn [apply_action pts to_remove].
  - split; [apply length_insert|]. intros j Hj. left. exact Hj.
  - split; [reflexivity|]. intros j Hj.
    apply elem_of_union in Hj. destruct Hj as [Hj|Hj]; [|left; exact Hj].
    apply elem_of_singleton in Hj. right. exact Hj.
  - split; [reflexivity|]. intros j Hj. left. exact Hj.
Qed.

Lemma smooth_window_keeps (i : nat) (st st' : smooth_state) :
  window i st = Some st' ->
  length (pts st') = length (pts st)
  /\ forall j, j ∈ to_remove st' ->
       j ∈ to_remove st \/ j = (i + 1)%nat \/ j = (i + 2)%nat.
Proof.
  unfold smooth_window.
  destruct (pts st !! (i + 1)%nat) as [p1|]; [|discriminate].
  destruct (pts st !! (i + 2)%nat) as [p2|]; [|discriminate].
  cbn [mbind option_bind].
  destruct (distance_squared p1 p2 <? max_resolution * max_resolution);
    [|intros [= <-]; split; [reflexivity|intros j Hj; left; exact Hj]].
  destruct (pts st !! i) as [p0|]; [|discriminate].
  destruct (pts st !! (i + 3)%nat) as [p3|]; [|discriminate].
  cbn [mbind option_bind].
  destruct (negb (withinDeviation fl p0 p1 p2 p3 fluid_angle));
    [|intros [= <-]; split; [reflexivity|intros j Hj; left; exact Hj]].
  intros [= <-].
  match goal with
  | |- context [apply_action (i + 2) ?a2 (apply_action (i + 1) ?a1 st)] =>
      destruct (apply_action_keeps (i + 1) a1 st) as [Hlen1 Hrem1];
      destruct (apply_action_keeps (i + 2) a2 (apply_action (i + 1) a1 st))
        as [Hlen2 Hrem2]
  end.
  split; [rewrite Hlen2; exact Hlen1|].
  intros j Hj. destruct (Hrem2 j Hj) as [Hj1| ->]; [|right; right; reflexivity].
  destruct (Hrem1 j Hj1) as [Hj0| ->]; [left; exact Hj0|right; left; reflexivity].
Qed.

Lemma smooth_windows_keep (bound : nat) (ws : list nat) :
  Forall (fun i => (i + 2 < bound)%nat) ws ->
  forall st st',
    (forall j, j ∈ to_remove st -> (j < bound)%nat) ->
    windows ws st = Some st' ->
    length (pts st') = length (pts st)
    /\ forall j, j ∈ to_remove st' -> (j < bound)%nat.
Proof.
  induction 1 as [|i ws Hi _ IH]; intros st st' Hrem.
  - intros [= <-]. split; [reflexivity|exact Hrem].
  - cbn [smooth_windows].
    destruct (decide (i ∈ to_remove st)); [apply IH; exact Hrem|].
    destruct (Nat.eqb_spec (i + 2) 0) as [Hzero|_]; [lia|].
    destruct (window i st) as [st1|] eqn:Hwin; [|discriminate].
    cbn [mbind option_bind]. intros Hrest.
    destruct (smooth_window_keeps i st st1 Hwin) as [Hlen1 Hrem1].
    destruct (IH st1 st') as [Hlen Hrem'].
    + intros j Hj. destruct (Hrem1 j Hj) as [Hj0|[Hj1|Hj1]];
        [apply Hrem; exact Hj0|lia|lia].
    + exact Hrest.
    + split; [rewrite Hlen; exact Hlen1|exact Hrem'].
Qed.

(** The last three windows of the range, when the last point is not
    marked. *)
Lemma smooth_windows_last_three (n : nat) (st : smooth_state) :
  length (pts st) = S (S (S n)) ->
  S (S n) ∉ to_remove st ->
  windows [n; S n; S (S n)] st = None.
Proof.
  intros Hlen Hlast.
  assert (Hpast : forall i st1, length (pts st1) = S (S (S n)) ->
            (S n <= i)%nat -> window i st1 = None).
  { intros i st1 Hlen1 Hi. apply smooth_window_past_end. lia. }
  assert (Htail : forall st1, length (pts st1) = S (S (S n)) ->
            S (S n) ∉ to_remove st1 -> windows [S n; S (S n)] st1 = None).
  { intros st1 Hlen1 Hlast1. cbn [smooth_windows].
    destruct (decide (S n ∈ to_remove st1)).
    - rewrite decide_False by exact Hlast1.
      destruct (Nat.eqb_spec (S (S n) + 2) 0) as [Hzero|_]; [lia|].
      rewrite (Hpast (S (S n)) st1 Hlen1) by lia. reflexivity.
    - destruct (Nat.eqb_spec (S n + 2) 0) as [Hzero|_]; [lia|].
      rewrite (Hpast (S n) st1 Hlen1) by lia. reflexivity. }
  cbn [smooth_windows].
  destruct (decide (n ∈ to_remove st)); [apply Htail; assumption|].
  destruct (Nat.eqb_spec (n + 2) 0) as [Hzero|_]; [lia|].
  destruct (window n st) as [st1|] eqn:Hwin; [|reflexivity].
  cbn [mbind option_bind].
  assert (Hsame : st1 = st).
  { revert Hwin. unfold smooth_window.
    destruct (pts st !! (n + 1)%nat) as [p1|]; [|discriminate].
    destruct (pts st !! (n + 2)%nat) as [p2|]; [|discriminate].
    cbn [mbind option_bind].
    destruct (distance_squared p1 p2 <? max_resolution * max_resolution);
      [|intros [= <-]; reflexivity].
    destruct (pts st !! n) as [p0|]; [|discriminate].
    rewrite (lookup_ge_None_2 (pts st) (n + 3)) by lia. discriminate. }
  subst st1. apply Htail; assumption.
Qed.
End SmoothAction.

(** X12.  The smoothing action never completes on a range it works on:
    for a [smooth_distance] other than zero and a range of four points or
    more, the loop over the windows always comes to a window one of whose
    points [p1], [p2], [p3] lies past the end of the range, and reads
    it. *)
Theorem smooth_reads_past_end (fl : float_ops) (rng : Polygon)
    (max_resolution smooth_distance : Z) (fluid_angle : double fl) :
  smooth_distance <> 0 ->
  (4 <= length rng)%nat ->
  smooth fl rng max_resolution smooth_distance fluid_angle = None.
Proof.
  intros Hdist Hlen. unfold smooth, size_of.
  destruct (Z.eqb_spec smooth_distance 0) as [Hzero|_]; [contradiction|].
  destruct (Z.ltb_spec (Z.of_nat (length rng) - 1) 3) as [Hsmall|_]; [lia|].
  cbv zeta.
  destruct (length rng) as [|[|[|n]]] eqn:Hn; [lia|lia|lia|].
  assert (Hseq : seq 0 (S (S (S n))) = seq 0 n ++ [n; S n; S (S n)]).
  { replace (S (S (S n))) with (n + 3)%nat by lia.
    rewrite seq_app. reflexivity. }
  rewrite Hseq, <- app_assoc, smooth_windows_app.
  destruct (smooth_windows fl max_resolution smooth_distance fluid_angle
              (Z.of_nat (S (S (S n))) - 1) (seq 0 n)
              {| pts := rng; to_remove := ∅ |}) as [st|] eqn:Hfirst;
    [|reflexivity].
  cbn [mbind option_bind].
  destruct (smooth_windows_keep fl max_resolution smooth_distance
              (Z.of_nat (S (S (S n))) - 1) fluid_angle (S (S n)) (seq 0 n))
    with (st := {| pts := rng; to_remove := ∅ |}) (st' := st)
    as [Hlen_st Hrem_st].
  - apply Forall_forall. intros i Hi. apply elem_of_seq in Hi. lia.
  - cbn [to_remove]. intros j Hj. apply elem_of_empty in Hj. contradiction.
  - exact Hfirst.
  - cbn [pts] in Hlen_st. rewrite smooth_windows_app.
    rewrite (smooth_windows_last_three fl max_resolution smooth_distance
               (Z.of_nat (S (S (S n))) - 1) fluid_angle n st).
    + reflexivity.
    + rewrite Hlen_st. exact Hn.
    + intros Hin. apply Hrem_st in Hin. lia.
Qed.

Lemma smooth_reads_past_end_witness :
  smooth rational_floats
    [mkPoint 0 0; mkPoint 10 0; mkPoint 10 10; mkPoint 0 10; mkPoint 0 0]
    100 5 (1 # 2)
  = None.
Proof.
  apply (smooth_reads_past_end rational_floats).
  - discriminate.
  - cbn. lia.
Defined.

(** ** Removal by index, and the loops built on it *)

Lemma insert_swap_Permutation {A} (l : list A) (i : nat) (x b : A) :
  l !! i = Some x -> x :: <[i := b]> l ≡ₚ l ++ [b].
Proof.
  revert i. induction l as [|a l IH]; intros [|i] Hlook;
    try discriminate Hlook; cbn in Hlook |- *.
  - inversion Hlook; subst a. apply perm_skip, Permutation_cons_append.
  - rewrite perm_swap. apply perm_skip, IH, Hlook.
Qed.

Lemma Polygons_remove_at_snoc (init : Polygons) (b : Polygon) (index : nat) :
  Polygons_remove_at (init ++ [b]) index
  = if (index <? length init)%nat then <[index := b]> init else init.
Proof.
  unfold Polygons_remove_at, back. rewrite last_snoc, length_app.
  cbn [length]. replace (length init + 1 - 1)%nat with (length init) by lia.
  destruct (Nat.eqb_spec (length init + 1) 1) as [Hone|Hmore].
  - destruct init; [|cbn [length] in Hone; lia].
    destruct (Nat.ltb_spec index (length (@nil Polygon)));
      [cbn [length] in *; lia|reflexivity].
  - destruct (Nat.ltb_spec 1 (length init + 1)) as [_|Hle]; [|lia].
    destruct (Nat.ltb_spec index (length init)) as [Hin|Hlast].
    + rewrite insert_app_l by exact Hin.
      apply take_app_length'. rewrite length_insert. reflexivity.
    + apply take_app_length.
Qed.

Lemma Polygons_remove_at_spec (polys : Polygons) (index : nat)
    (poly : Polygon) :
  polys !! index = Some poly ->
  poly :: Polygons_remove_at polys index ≡ₚ polys
  /\ take index (Polygons_remove_at polys index) = take index polys
  /\ ((index < length polys - 1)%nat ->
      Polygons_remove_at polys index !! index = back polys).
Proof.
  intros Hlook. pose proof (lookup_lt_Some _ _ _ Hlook) as Hlt.
  destruct (last polys) as [b|] eqn:Hback.
  2:{ apply last_None in Hback. subst polys. cbn [length] in Hlt. lia. }
  apply last_Some in Hback. destruct Hback as [init ->].
  rewrite Polygons_remove_at_snoc. rewrite length_app in *.
  cbn [length] in *.
  destruct (Nat.ltb_spec index (length init)) as [Hin|Hlast].
  - rewrite lookup_app_l in Hlook by exact Hin.
    split; [|split].
    + apply insert_swap_Permutation. exact Hlook.
    + rewrite take_insert_ge by lia.
      rewrite take_app_le by lia. reflexivity.
    + intros _. rewrite list_lookup_insert_eq by exact Hin.
      unfold back. rewrite last_snoc. reflexivity.
  - assert (Hidx : index = length init) by lia. subst index.
    rewrite list_lookup_middle in Hlook by reflexivity.
    inversion Hlook; subst b.
    split; [|split].
    + rewrite Permutation_app_comm. reflexivity.
    + rewrite take_app_le by lia. reflexivity.
    + lia.
Qed.

(** X13.  [Polygons::remove(size_t)] takes out exactly the polygon at the
    index; the polygons before the index stay where they are, and when the
    index is not the last one the last polygon takes the place of the one
    removed, so the order of the polygons is not kept. *)
Theorem Polygons_remove_at_removes (polys : Polygons) (index : nat)
    (poly : Polygon) :
  polys !! index = Some poly ->
  poly :: Polygons_remove_at polys index ≡ₚ polys
  /\ take index (Polygons_remove_at polys index) = take index polys
  /\ ((index < length polys - 1)%nat ->
      Polygons_remove_at polys index !! index = back polys).
Proof. apply Polygons_remove_at_spec. Qed.

Lemma Polygons_remove_at_removes_witness :
  [mkPoint 10 10] :: Polygons_remove_at
                       [[mkPoint 0 0]; [mkPoint 10 10]; [mkPoint 20 20];
                        [mkPoint 30 30]] 1
    ≡ₚ [[mkPoint 0 0]; [mkPoint 10 10]; [mkPoint 20 20]; [mkPoint 30 30]]
  /\ take 1 (Polygons_remove_at
               [[mkPoint 0 0]; [mkPoint 10 10]; [mkPoint 20 20];
                [mkPoint 30 30]] 1)
     = take 1 [[mkPoint 0 0]; [mkPoint 10 10]; [mkPoint 20 20];
               [mkPoint 30 30]]
  /\ ((1 < length [[mkPoint 0 0]; [mkPoint 10 10]; [mkPoint 20 20];
                   [mkPoint 30 30]] - 1)%nat ->
      Polygons_remove_at
        [[mkPoint 0 0]; [mkPoint 10 10]; [mkPoint 20 20]; [mkPoint 30 30]] 1
        !! 1%nat
      = back [[mkPoint 0 0]; [mkPoint 10 10]; [mkPoint 20 20];
              [mkPoint 30 30]]).
Proof.
  apply (Polygons_remove_at_removes
           [[mkPoint 0 0]; [mkPoint 10 10]; [mkPoint 20 20]; [mkPoint 30 30]]
           1 [mkPoint 10 10]).
  reflexivity.
Defined.

Section RemoveColinearEdges.
Variable simplify : Polygon -> Polygon.

Local Abbreviation kept :=
  (fun polys : Polygons =>
     filter (fun poly => (3 <= length poly)%nat) (map simplify polys)).

Lemma kept_Permutation (l k : Polygons) : l ≡ₚ k -> kept l ≡ₚ kept k.
Proof.
  intros H. cbv beta. apply (Permutation_map simplify) in H.
  induction H as [|x l' k' _ IH|x y l'|l1 l2 l3 _ IH1 _ IH2].
  - reflexivity.
  - rewrite !filter_cons. destruct (decide _); [apply perm_skip|]; exact IH.
  - rewrite !filter_cons. destruct (decide _), (decide _);
      first [apply perm_swap | reflexivity].
  - etransitivity; eassumption.
Qed.

Lemma removeColinearEdges_loop_spec (fuel : nat) :
  forall (p : Z) (polys : Polygons),
    0 <= p <= size_of polys -> size_of polys < 2 ^ 64 ->
    (length polys - Z.to_nat p < fuel)%nat ->
    exists polys',
      removeColinearEdges_loop simplify fuel p polys = Finished polys'
      /\ polys' ≡ₚ take (Z.to_nat p) polys ++ kept (drop (Z.to_nat p) polys).
Proof.
  unfold size_of.
  induction fuel as [|fuel IH]; intros p polys Hp Hsize Hfuel; [lia|].
  cbn [removeColinearEdges_loop]. unfold size_of.
  destruct (Z.ltb_spec p (Z.of_nat (length polys))) as [Hlt|Hge].
  - destruct (lookup_lt_is_Some_2 polys (Z.to_nat p)) as [poly Hpoly]; [lia|].
    rewrite Hpoly. cbv zeta.
    assert (Hnext : size_t_wrap (p + 1) = p + 1)
      by (apply size_t_wrap_small; lia).
    assert (Hsame : size_t_wrap (size_t_wrap (p - 1) + 1) = p)
      by (apply size_t_wrap_decrement_increment; lia).
    assert (Hdrop : drop (Z.to_nat p) polys
                    = poly :: drop (S (Z.to_nat p)) polys)
      by (apply drop_S; exact Hpoly).
    set (thiss := <[Z.to_nat p := simplify poly]> polys).
    assert (Hthiss : thiss !! Z.to_nat p = Some (simplify poly)).
    { subst thiss. apply list_lookup_insert_eq. lia. }
    assert (Htake : take (Z.to_nat p) thiss = take (Z.to_nat p) polys).
    { subst thiss. apply take_insert_ge. lia. }
    assert (Hdrop' : drop (S (Z.to_nat p)) thiss
                     = drop (S (Z.to_nat p)) polys).
    { subst thiss. apply drop_insert_lt. lia. }
    assert (Hlen : length thiss = length polys)
      by (subst thiss; apply length_insert).
    destruct (Nat.ltb_spec (length (simplify poly)) 3) as [Hshort|Hlong].
    + rewrite Hsame.
      destruct (Polygons_remove_at_spec thiss (Z.to_nat p) (simplify poly)
                  Hthiss) as (Hperm & Hbefore & _).
      destruct (IH p (Polygons_remove_at thiss (Z.to_nat p)))
        as (polys' & Hrun & Hres).
      * rewrite Polygons_remove_at_length by lia. lia.
      * rewrite Polygons_remove_at_length by lia. lia.
      * rewrite Polygons_remove_at_length by lia. lia.
      * exists polys'. split; [exact Hrun|]. rewrite Hres, Hbefore, Htake.
        apply Permutation_app_head. rewrite Hdrop. cbn [map].
        rewrite filter_cons, decide_False by lia.
        apply kept_Permutation.
        assert (Hsplit : thiss = take (Z.to_nat p) polys
                                 ++ simplify poly
                                 :: drop (S (Z.to_nat p)) polys).
        { rewrite <- Htake, <- Hdrop'. symmetry.
          apply take_drop_middle. exact Hthiss. }
        assert (Hsplit' : Polygons_remove_at thiss (Z.to_nat p)
                          = take (Z.to_nat p) polys
                            ++ drop (Z.to_nat p)
                                 (Polygons_remove_at thiss (Z.to_nat p))).
        { rewrite <- Htake, <- Hbefore. symmetry. apply take_drop. }
        clear Hres.
        remember (drop (Z.to_nat p) (Polygons_remove_at thiss (Z.to_nat p)))
          as rest eqn:Hrest.
        rewrite Hsplit' in Hperm. clear Hsplit' Hrest.
        rewrite Hsplit in Hperm.
        rewrite Permutation_middle in Hperm.
        apply Permutation_app_inv_l in Hperm.
        apply Permutation_cons_inv in Hperm. exact Hperm.
    + rewrite Hnext.
      destruct (IH (p + 1) thiss) as (polys' & Hrun & Hres); [lia|lia|lia|].
      exists polys'. split; [exact Hrun|]. rewrite Hres.
      replace (Z.to_nat (p + 1)) with (S (Z.to_nat p)) by lia.
      rewrite (take_S_r thiss (Z.to_nat p) (simplify poly) Hthiss).
      rewrite Htake, Hdrop', Hdrop. cbn [map].
      rewrite filter_cons, decide_True by lia.
      rewrite <- app_assoc. reflexivity.
  - exists polys. split; [reflexivity|].
    rewrite take_ge, drop_ge by lia. cbn. rewrite app_nil_r. reflexivity.
Qed.
End RemoveColinearEdges.

(** X14.  [Polygons::removeColinearEdges] returns, with every polygon
    simplified exactly once and those left with fewer than three points
    taken out; the order of the polygons may change.  In particular a
    polygon moved into the place of a removed one is still simplified and
    tested. *)
Theorem removeColinearEdges_simplifies_all (simplify : Polygon -> Polygon)
    (polys : Polygons) :
  size_of polys < 2 ^ 64 ->
  exists polys',
    removeColinearEdges simplify polys = Finished polys'
    /\ polys' ≡ₚ filter (fun poly => (3 <= length poly)%nat)
                   (map simplify polys).
Proof.
  intros Hsize.
  destruct (removeColinearEdges_loop_spec simplify (S (length polys)) 0 polys)
    as (polys' & Hrun & Hres).
  - unfold size_of. lia.
  - exact Hsize.
  - cbn. lia.
  - exists polys'. split; [exact Hrun|exact Hres].
Qed.

Lemma removeColinearEdges_simplifies_all_witness :
  exists polys',
    removeColinearEdges (take 2)
      [[mkPoint 0 0; mkPoint 1 1; mkPoint 2 2]; [mkPoint 5 5]] = Finished polys'
    /\ polys' ≡ₚ filter (fun poly => (3 <= length poly)%nat)
                   (map (take 2)
                      [[mkPoint 0 0; mkPoint 1 1; mkPoint 2 2]; [mkPoint 5 5]]).
Proof.
  apply (removeColinearEdges_simplifies_all (take 2)).
  vm_compute. reflexivity.
Defined.

(** ** [removeSmallAreas] *)

Lemma drop_after_removal {A} (l l' : list A) (i : nat) (x : A) :
  l !! i = Some x ->
  x :: l' ≡ₚ l ->
  take i l' = take i l ->
  drop i l' ≡ₚ drop (S i) l.
Proof.
  intros Hlook Hperm Htake.
  rewrite <- (take_drop i l') in Hperm.
  rewrite <- (take_drop_middle l i x Hlook) in Hperm.
  rewrite Htake, Permutation_middle in Hperm.
  apply Permutation_app_inv_l in Hperm.
  apply Permutation_cons_inv in Hperm. exact Hperm.
Qed.

Section RemoveSmallAreas.
Variable area : Polygon -> Q.
Variable min_area_size : Q.

Local Abbreviation small := (area_is_small area min_area_size).
Local Abbreviation not_small := (fun poly : Polygon => small poly = false).

Lemma removeSmallAreas_all_spec (fuel : nat) :
  forall (polys : Polygons) (it new_end : nat),
    (it <= new_end <= length polys)%nat ->
    (new_end - it < fuel)%nat ->
    exists result,
      removeSmallAreas_all area min_area_size fuel polys it new_end
      = Finished result
      /\ result ≡ₚ take it polys
                   ++ filter not_small (drop it (take new_end polys)).
Proof.
  induction fuel as [|fuel IH]; intros polys it new_end Hrange Hfuel; [lia|].
  cbn [removeSmallAreas_all].
  destruct (Nat.ltb_spec it new_end) as [Hlt|Hge].
  - destruct (lookup_lt_is_Some_2 polys it) as [poly Hpoly]; [lia|].
    rewrite Hpoly.
    assert (Hseg : drop it (take new_end polys)
                   = poly :: drop (S it) (take new_end polys)).
    { apply drop_S. rewrite lookup_take_lt by lia. exact Hpoly. }
    destruct (small poly) eqn:Hsmall.
    + destruct (lookup_lt_is_Some_2 polys (new_end - 1)) as [moved Hmoved];
        [lia|].
      rewrite Hmoved.
      destruct (IH (<[it := moved]> polys) it (new_end - 1)%nat)
        as (result & Hrun & Hres).
      * rewrite length_insert. lia.
      * lia.
      * exists result. split; [exact Hrun|]. rewrite Hres.
        rewrite take_insert_ge by lia. apply Permutation_app_head.
        rewrite Hseg, filter_cons, decide_False by congruence.
        assert (Hsplit : take new_end polys
                         = take (new_end - 1) polys ++ [moved]).
        { replace new_end with (S (new_end - 1)) at 1 by lia.
          apply take_S_r. exact Hmoved. }
        assert (Hrest : drop it (take (new_end - 1) (<[it := moved]> polys))
                        ≡ₚ drop (S it) (take new_end polys)).
        { apply (drop_after_removal _ _ it poly).
          - rewrite lookup_take_lt by lia. exact Hpoly.
          - rewrite Hsplit.
            destruct (Nat.lt_ge_cases it (new_end - 1)) as [Hin|Hlast].
            + rewrite take_insert_lt by exact Hin.
              apply insert_swap_Permutation.
              rewrite lookup_take_lt by exact Hin. exact Hpoly.
            + rewrite take_insert_ge by exact Hlast.
              assert (it = (new_end - 1)%nat) by lia. subst it.
              rewrite Hpoly in Hmoved. inversion Hmoved; subst moved.
              apply Permutation_cons_append.
          - rewrite Hsplit, take_app_le by (rewrite length_take; lia).
            rewrite !take_take. apply take_insert_ge. lia. }
        rewrite Hrest. reflexivity.
    + destruct (IH polys (S it) new_end) as (result & Hrun & Hres);
        [lia|lia|].
      exists result. split; [exact Hrun|]. rewrite Hres.
      rewrite (take_S_r polys it poly Hpoly).
      rewrite Hseg, filter_cons, decide_True by exact Hsmall.
      rewrite <- app_assoc. reflexivity.
  - exists (take new_end polys). split; [reflexivity|].
    assert (it = new_end) by lia. subst it.
    rewrite drop_ge by (rewrite length_take; lia).
    cbn. rewrite app_nil_r. reflexivity.
Qed.
End RemoveSmallAreas.

(** X15.  [removeSmallAreas] with [remove_holes] set returns, and keeps
    exactly the polygons whose area is not below the threshold in absolute
    value, outlines and holes alike; their order may change. *)
Theorem removeSmallAreas_all_sizes (area : Polygon -> Q)
    (poly_inside : Polygon -> Point2LL -> bool) (polys : Polygons)
    (min_area_size : Q) :
  exists result,
    removeSmallAreas area poly_inside polys min_area_size true
    = Finished result
    /\ result ≡ₚ filter (fun poly =>
                           area_is_small area min_area_size poly = false)
                   polys.
Proof.
  unfold removeSmallAreas.
  destruct (removeSmallAreas_all_spec area min_area_size (S (length polys))
              polys 0 (length polys)) as (result & Hrun & Hres);
    [lia|lia|].
  exists result. split; [exact Hrun|].
  rewrite Hres. rewrite firstn_all. reflexivity.
Qed.

Lemma insert_middle {A} (l1 : list A) (x y : A) (l2 : list A) :
  <[length l1 := y]> (l1 ++ x :: l2) = l1 ++ y :: l2.
Proof.
  rewrite insert_app_r_alt by lia. rewrite Nat.sub_diag. reflexivity.
Qed.

Section RemoveSmallAreasOutlines.
Variable area : Polygon -> Q.
Variable min_area_size : Q.

Local Abbreviation so := (small_outline area min_area_size).
Local Abbreviation sh := (small_hole area min_area_size).

Lemma removeSmallAreas_outlines_spec (fuel : nat) :
  forall (done middle tail : Polygons) (holes : list nat),
    (length middle < fuel)%nat ->
    exists kept removed,
      removeSmallAreas_outlines area min_area_size fuel
        (done ++ middle ++ tail) (length done)
        (length done + length middle) holes
      = Finished (done ++ kept ++ removed ++ tail,
                  (length done + length kept)%nat,
                  holes ++ positions_where sh (length done) kept)
      /\ kept ++ removed ≡ₚ middle
      /\ Forall (fun q => so q = false) kept
      /\ Forall (fun q => so q = true) removed.
Proof.
  induction fuel as [|fuel IH]; intros done middle tail holes Hfuel; [lia|].
  cbn [removeSmallAreas_outlines].
  destruct middle as [|poly rest].
  - cbn [length]. rewrite Nat.add_0_r, Nat.ltb_irrefl.
    exists [], []. cbn [app length positions_where].
    rewrite Nat.add_0_r, app_nil_r.
    split; [reflexivity|]. split; [reflexivity|]. split; constructor.
  - destruct (Nat.ltb_spec (length done) (length done + length (poly :: rest)))
      as [_|Hge]; [|cbn [length] in Hge; lia].
    cbn [app]. rewrite list_lookup_middle by reflexivity.
    unfold small_outline, small_hole.
    destruct (area_is_small area min_area_size poly) eqn:Hsmall;
      [destruct (Qle_bool 0 (area poly)) eqn:Hout|].
    + destruct (decide (rest = [])) as [->|Hrest].
      * cbn [length app].
        replace (length done + 1 - 1)%nat with (length done) by lia.
        rewrite Nat.ltb_irrefl.
        exists [], [poly]. cbn [app length positions_where].
        rewrite Nat.add_0_r, app_nil_r.
        split; [reflexivity|]. split; [reflexivity|].
        split; [constructor|]. constructor; [|constructor].
        unfold small_outline. rewrite Hsmall, Hout. reflexivity.
      * destruct (exists_last Hrest) as (rest' & other & ->).
        assert (Hend : (length done + length (poly :: rest' ++ [other]) - 1
                        = length done + length (other :: rest'))%nat).
        { cbn [length]. rewrite length_app. cbn [length]. lia. }
        rewrite Hend.
        destruct (Nat.ltb_spec (length done)
                    (length done + length (other :: rest'))) as [_|Hge];
          [|cbn [length] in Hge; lia].
        assert (Hshape : done ++ poly :: (rest' ++ [other]) ++ tail
                         = (done ++ poly :: rest') ++ other :: tail).
        { rewrite <- !app_assoc. reflexivity. }
        assert (Hpos : (length done + length (other :: rest')
                        = length (done ++ poly :: rest'))%nat).
        { rewrite length_app. reflexivity. }
        assert (Hother : (done ++ poly :: (rest' ++ [other]) ++ tail)
                           !! (length done + length (other :: rest'))%nat
                         = Some other).
        { rewrite Hshape, Hpos. apply list_lookup_middle. reflexivity. }
        rewrite Hother.
        assert (Hswapped :
          <[(length done + length (other :: rest'))%nat := poly]>
            (<[length done := other]>
               (done ++ poly :: (rest' ++ [other]) ++ tail))
          = done ++ (other :: rest') ++ poly :: tail).
        { rewrite insert_middle. rewrite Hpos.
          replace (done ++ other :: (rest' ++ [other]) ++ tail)
            with ((done ++ other :: rest') ++ other :: tail)
            by (rewrite <- !app_assoc; reflexivity).
          replace (length (done ++ poly :: rest'))
            with (length (done ++ other :: rest'))
            by (rewrite !length_app; reflexivity).
          rewrite insert_middle, <- app_assoc. reflexivity. }
        rewrite Hswapped.
        destruct (IH done (other :: rest') (poly :: tail) holes)
          as (kept & removed & Hrun & Hperm & Hkept & Hremoved).
        { cbn [length] in Hfuel |- *. rewrite length_app in Hfuel.
          cbn [length] in Hfuel. lia. }
        exists kept, (removed ++ [poly]). rewrite Hrun.
        split; [rewrite <- !app_assoc; reflexivity|].
        split; [|split; [exact Hkept|]].
        -- rewrite app_assoc, Hperm.
           etransitivity; [symmetry; apply Permutation_cons_append|].
           apply perm_skip, Permutation_cons_append.
        -- apply Forall_app. split; [exact Hremoved|].
           constructor; [|constructor].
           unfold small_outline. rewrite Hsmall, Hout. reflexivity.
    + destruct (IH (done ++ [poly]) rest tail (holes ++ [length done]))
        as (kept & removed & Hrun & Hperm & Hkept & Hremoved).
      { cbn [length] in Hfuel. lia. }
      rewrite length_app in Hrun. cbn [length] in Hrun.
      rewrite Nat.add_1_r in Hrun. rewrite <- app_assoc in Hrun.
      cbn [app length] in Hrun |- *.
      replace (length done + S (length rest))%nat
        with (S (length done) + length rest)%nat by lia.
      exists (poly :: kept), removed. rewrite Hrun.
      split; [|split; [|split; [|exact Hremoved]]].
      * cbn [positions_where app length]. unfold small_hole.
        rewrite Hsmall, Hout. cbn [andb negb].
        rewrite <- !app_assoc. cbn [app].
        replace (length done + S (length kept))%nat
          with (S (length done) + length kept)%nat by lia.
        reflexivity.
      * cbn [app]. apply perm_skip. exact Hperm.
      * constructor; [|exact Hkept]. unfold small_outline.
        rewrite Hsmall, Hout. reflexivity.
    + destruct (IH (done ++ [poly]) rest tail holes)
        as (kept & removed & Hrun & Hperm & Hkept & Hremoved).
      { cbn [length] in Hfuel. lia. }
      rewrite length_app in Hrun. cbn [length] in Hrun.
      rewrite Nat.add_1_r in Hrun. rewrite <- app_assoc in Hrun.
      cbn [app length] in Hrun |- *.
      replace (length done + S (length rest))%nat
        with (S (length done) + length rest)%nat by lia.
      exists (poly :: kept), removed. rewrite Hrun.
      split; [|split; [|split; [|exact Hremoved]]].
      * cbn [positions_where app length]. unfold small_hole.
        rewrite Hsmall. cbn [andb].
        rewrite <- !app_assoc. cbn [app].
        replace (length done + S (length kept))%nat
          with (S (length done) + length kept)%nat by lia.
        reflexivity.
      * cbn [app]. apply perm_skip. exact Hperm.
      * constructor; [|exact Hkept]. unfold small_outline.
        rewrite Hsmall. reflexivity.
Qed.
End RemoveSmallAreasOutlines.

Lemma overwrite_with_last {A} (l : list A) (i new_end : nat) (x moved : A) :
  l !! i = Some x ->
  l !! (new_end - 1)%nat = Some moved ->
  (i < new_end)%nat ->
  x :: take (new_end - 1) (<[i := moved]> l) ≡ₚ take new_end l.
Proof.
  intros Hx Hmoved Hlt.
  assert (Hsplit : take new_end l = take (new_end - 1) l ++ [moved]).
  { replace new_end with (S (new_end - 1)) at 1 by lia.
    apply take_S_r. exact Hmoved. }
  rewrite Hsplit.
  destruct (Nat.lt_ge_cases i (new_end - 1)) as [Hin|Hlast].
  - rewrite take_insert_lt by exact Hin.
    apply insert_swap_Permutation.
    rewrite lookup_take_lt by exact Hin. exact Hx.
  - rewrite take_insert_ge by exact Hlast.
    assert (i = (new_end - 1)%nat) by lia. subst i.
    rewrite Hx in Hmoved. inversion Hmoved; subst moved.
    apply Permutation_cons_append.
Qed.

Lemma descending_below_weaken (bound bound' : nat) (hs : list nat) :
  (bound <= bound')%nat -> descending_below bound hs ->
  descending_below bound' hs.
Proof.
  destruct hs as [|h hs]; [intros; exact I|].
  cbn [descending_below]. intros Hle [Hh Hrest]. split; [lia|exact Hrest].
Qed.

Lemma descending_below_elem (bound : nat) (hs : list nat) (h : nat) :
  descending_below bound hs -> h ∈ hs -> (h < bound)%nat.
Proof.
  revert bound. induction hs as [|h' hs IH]; intros bound Hdesc Hin.
  - apply elem_of_nil in Hin. contradiction.
  - destruct Hdesc as [Hh' Hrest]. apply elem_of_cons in Hin.
    destruct Hin as [->|Hin]; [exact Hh'|].
    specialize (IH h' Hrest Hin). lia.
Qed.

Lemma descending_below_snoc (bound : nat) (hs : list nat) (x : nat) :
  descending_below bound hs ->
  Forall (fun h => (x < h)%nat) hs ->
  (x < bound)%nat ->
  descending_below bound (hs ++ [x]).
Proof.
  revert bound. induction hs as [|h hs IH]; intros bound Hdesc Hall Hx.
  - cbn. split; [exact Hx|exact I].
  - destruct Hdesc as [Hh Hrest]. apply Forall_cons in Hall as [Hxh Hall].
    cbn [app descending_below]. split; [exact Hh|].
    apply IH; assumption.
Qed.

Lemma positions_where_spec (test : Polygon -> bool) (l : Polygons) :
  forall start,
    Forall (fun h => (start <= h)%nat) (positions_where test start l)
    /\ descending_below (start + length l)
         (rev (positions_where test start l))
    /\ Forall2 (fun h q => l !! (h - start)%nat = Some q)
         (positions_where test start l)
         (filter (fun q => test q = true) l).
Proof.
  induction l as [|poly l IH]; intros start.
  - cbn. split; [constructor|]. split; [exact I|constructor].
  - destruct (IH (S start)) as (Hge & Hdesc & Hval).
    assert (Hge' : Forall (fun h => (start < h)%nat)
                     (positions_where test (S start) l)).
    { eapply Forall_impl; [exact Hge|]. intros h Hh. cbn beta in *. lia. }
    assert (Hval' : Forall2 (fun h q => (poly :: l) !! (h - start)%nat = Some q)
                      (positions_where test (S start) l)
                      (filter (fun q => test q = true) l)).
    { clear -Hge' Hval.
      induction Hval as [|h q hs qs Hh _ IHv]; [constructor|].
      apply Forall_cons in Hge' as [Hlt Hge'].
      constructor; [|apply IHv; exact Hge'].
      replace (h - start)%nat with (S (h - S start)) by lia. exact Hh. }
    assert (Hdesc' : descending_below (start + length (poly :: l))
                       (rev (positions_where test (S start) l))).
    { cbn [length]. replace (start + S (length l))%nat
        with (S start + length l)%nat by lia. exact Hdesc. }
    cbn [positions_where]. rewrite filter_cons.
    destruct (test poly) eqn:Htest.
    + rewrite decide_True by reflexivity. cbn [app rev].
      split; [|split].
      * constructor; [lia|]. eapply Forall_impl; [exact Hge'|].
        intros h Hh. cbn beta in *. lia.
      * apply descending_below_snoc; [exact Hdesc'| |cbn [length]; lia].
        apply Forall_forall. intros h Hh. apply list_elem_of_In in Hh.
        apply in_rev in Hh. apply list_elem_of_In in Hh.
        rewrite Forall_forall in Hge'. exact (Hge' h Hh).
      * constructor; [rewrite Nat.sub_diag; reflexivity|exact Hval'].
    + rewrite decide_False by discriminate. cbn [app].
      split; [|split; [exact Hdesc'|exact Hval']].
      eapply Forall_impl; [exact Hge'|]. intros h Hh. cbn beta in *. lia.
Qed.

Lemma Forall2_rev {A B} (R : A -> B -> Prop) (l : list A) (k : list B) :
  Forall2 R l k -> Forall2 R (rev l) (rev k).
Proof.
  induction 1 as [|x y l k Hxy _ IH]; [constructor|].
  cbn [rev]. apply Forall2_app; [exact IH|]. constructor; [exact Hxy|constructor].
Qed.

Lemma Forall2_lookup_functional {A} (l : list A) (hs : list nat)
    (qs qs' : list A) :
  Forall2 (fun h q => l !! h = Some q) hs qs ->
  Forall2 (fun h q => l !! h = Some q) hs qs' ->
  qs = qs'.
Proof.
  intros H. revert qs'. induction H as [|h q hs qs Hq _ IH]; intros qs' H'.
  - inversion H'. reflexivity.
  - inversion H' as [|h' q' hs' qs'' Hq' Hrest]; subst.
    rewrite Hq in Hq'. inversion Hq'; subst q'. f_equal. apply IH, Hrest.
Qed.

Lemma existsb_Permutation {A} (f : A -> bool) (l k : list A) :
  l ≡ₚ k -> existsb f l = existsb f k.
Proof.
  induction 1 as [|x l k _ IH|x y l|l1 l2 l3 _ IH1 _ IH2]; cbn [existsb].
  - reflexivity.
  - rewrite IH. reflexivity.
  - destruct (f x), (f y); reflexivity.
  - rewrite IH1. exact IH2.
Qed.

Lemma filter_none {A} (P : A -> Prop) `{forall x, Decision (P x)}
    (l : list A) :
  Forall (fun x => ~ P x) l -> filter P l = [].
Proof.
  induction 1 as [|x l Hx _ IH]; [reflexivity|].
  rewrite filter_cons, decide_False by exact Hx. exact IH.
Qed.

Lemma filter_all {A} (P : A -> Prop) `{forall x, Decision (P x)}
    (l : list A) :
  Forall P l -> filter P l = l.
Proof.
  induction 1 as [|x l Hx _ IH]; [reflexivity|].
  rewrite filter_cons, decide_True by exact Hx. rewrite IH. reflexivity.
Qed.

Lemma filter_ext_elem {A} (P Q : A -> Prop) `{forall x, Decision (P x)}
    `{forall x, Decision (Q x)} (l : list A) :
  Forall (fun x => P x <-> Q x) l -> filter P l = filter Q l.
Proof.
  induction 1 as [|x l Hx _ IH]; [reflexivity|].
  rewrite !filter_cons, IH.
  destruct (decide (P x)) as [HP|HP], (decide (Q x)) as [HQ|HQ];
    first [reflexivity | exfalso; tauto].
Qed.

Section RemoveSmallAreasHoles.
Variable poly_inside : Polygon -> Point2LL -> bool.
Variable removed : Polygons.
Variable start : nat.

Local Abbreviation in_removed :=
  (fun q : Polygon => front_inside poly_inside removed q = true).

Lemma hole_in_removed_outline_spec (hole : Polygon) (outlines : Polygons) :
  hole <> [] \/ outlines = [] ->
  hole_in_removed_outline poly_inside hole outlines
  = Some (front_inside poly_inside outlines hole).
Proof.
  unfold front_inside. intros [Hhole| ->].
  - destruct hole as [|front hole]; [contradiction|]. cbn [head].
    induction outlines as [|outline rest IH]; [reflexivity|].
    cbn [hole_in_removed_outline head existsb].
    destruct (poly_inside outline front); [reflexivity|exact IH].
  - cbn. destruct (head hole); reflexivity.
Qed.

Lemma lookup_before_insert {A} (l : list A) (h : nat) (moved : A)
    (hs : list nat) (qs : list A) :
  Forall (fun h' => h' <> h) hs ->
  Forall2 (fun h' q => <[h := moved]> l !! h' = Some q) hs qs ->
  Forall2 (fun h' q => l !! h' = Some q) hs qs.
Proof.
  intros Hne H. induction H as [|h' q hs qs Hq _ IH]; [constructor|].
  apply Forall_cons in Hne as [Hh' Hne].
  constructor; [|apply IH; exact Hne].
  rewrite list_lookup_insert_ne in Hq by congruence. exact Hq.
Qed.

Lemma removeSmallAreas_holes_spec (hs : list nat) :
  forall (polys : Polygons) (new_end : nat),
    (new_end <= start <= length polys)%nat ->
    drop start polys = removed ->
    descending_below new_end hs ->
    (forall h q, h ∈ hs -> polys !! h = Some q -> q <> [] \/ removed = []) ->
    exists polys' new_end' qs,
      foldl (removeSmallAreas_hole poly_inside start)
        (Finished (polys, new_end)) hs
      = Finished (polys', new_end')
      /\ Forall2 (fun h q => polys !! h = Some q) hs qs
      /\ take new_end polys
         ≡ₚ take new_end' polys' ++ filter in_removed qs.
Proof.
  induction hs as [|h hs IH]; intros polys new_end Hrange Hdrop Hdesc Hfront.
  - exists polys, new_end, []. cbn. rewrite app_nil_r.
    split; [reflexivity|]. split; [constructor|reflexivity].
  - destruct Hdesc as [Hh Hrest]. cbn [foldl].
    destruct (lookup_lt_is_Some_2 polys h) as [q Hq]; [lia|].
    destruct (lookup_lt_is_Some_2 polys (new_end - 1)) as [moved Hmoved];
      [lia|].
    assert (Hstep : removeSmallAreas_hole poly_inside start
                      (Finished (polys, new_end)) h
                    = if front_inside poly_inside removed q
                      then Finished (<[h := moved]> polys, (new_end - 1)%nat)
                      else Finished (polys, new_end)).
    { unfold removeSmallAreas_hole. rewrite Hq, Hdrop.
      rewrite hole_in_removed_outline_spec
        by (apply (Hfront h q); [apply list_elem_of_here|exact Hq]).
      destruct (front_inside poly_inside removed q); [|reflexivity].
      rewrite Hmoved. reflexivity. }
    rewrite Hstep. clear Hstep.
    assert (Hbelow : Forall (fun h' => h' <> h) hs).
    { apply Forall_forall. intros h' Hh'.
      pose proof (descending_below_elem h hs h' Hrest Hh'). lia. }
    destruct (front_inside poly_inside removed q) eqn:Htest.
    + destruct (IH (<[h := moved]> polys) (new_end - 1)%nat)
        as (polys' & new_end' & qs & Hrun & Hqs & Hperm).
      * rewrite length_insert. lia.
      * rewrite drop_insert_lt by lia. exact Hdrop.
      * apply (descending_below_weaken h); [lia|exact Hrest].
      * intros h' q' Hh' Hq'. apply (Hfront h' q').
        -- apply list_elem_of_further. exact Hh'.
        -- rewrite Forall_forall in Hbelow.
           rewrite list_lookup_insert_ne in Hq'
             by (pose proof (Hbelow h' Hh'); congruence).
           exact Hq'.
      * exists polys', new_end', (q :: qs). split; [exact Hrun|].
        split.
        -- constructor; [exact Hq|].
           apply (lookup_before_insert polys h moved); assumption.
        -- rewrite filter_cons, decide_True by exact Htest.
           rewrite <- Permutation_middle, <- Hperm.
           symmetry. apply overwrite_with_last; [exact Hq|exact Hmoved|lia].
    + destruct (IH polys new_end) as (polys' & new_end' & qs & Hrun & Hqs & Hperm).
      * exact Hrange.
      * exact Hdrop.
      * apply (descending_below_weaken h); [lia|exact Hrest].
      * intros h' q' Hh' Hq'. apply (Hfront h' q'); [|exact Hq'].
        apply list_elem_of_further. exact Hh'.
      * exists polys', new_end', (q :: qs). split; [exact Hrun|].
        split; [constructor; assumption|].
        rewrite filter_cons, decide_False by congruence. exact Hperm.
Qed.
End RemoveSmallAreasHoles.

(** X16.  [removeSmallAreas] without [remove_holes], on a set whose small
    holes are not empty: it returns, and takes out exactly the small
    outlines (non-negative area below the threshold) and the small holes
    whose first point is inside one of the small outlines; every other
    polygon is kept, in an order that may change. *)
Theorem removeSmallAreas_keeps_other_holes (area : Polygon -> Q)
    (poly_inside : Polygon -> Point2LL -> bool) (polys : Polygons)
    (min_area_size : Q) :
  (forall poly, poly ∈ polys ->
     small_hole area min_area_size poly = true -> poly <> []) ->
  exists result,
    removeSmallAreas area poly_inside polys min_area_size false
    = Finished result
    /\ result ≡ₚ filter (fun poly =>
                           survives_small_areas area poly_inside
                             min_area_size polys poly = true) polys.
Proof.
  intros Hholes. unfold removeSmallAreas.
  destruct (removeSmallAreas_outlines_spec area min_area_size
              (S (length polys)) [] polys [] []) as
    (kept & removed & Hrun & Hperm & Hkept & Hremoved); [lia|].
  cbn [app length Nat.add] in Hrun. rewrite !app_nil_r in Hrun.
  rewrite Hrun. clear Hrun.
  destruct (positions_where_spec (small_hole area min_area_size) kept 0)
    as (_ & Hdesc & Hval).
  assert (Hval' : Forall2 (fun h q => (kept ++ removed) !! h = Some q)
                    (positions_where (small_hole area min_area_size) 0 kept)
                    (filter (fun q => small_hole area min_area_size q = true)
                       kept)).
  { eapply Forall2_impl; [exact Hval|]. intros h q Hq. cbn beta in Hq.
    rewrite Nat.sub_0_r in Hq. apply lookup_app_l_Some. exact Hq. }
  destruct (removeSmallAreas_holes_spec poly_inside removed (length kept)
              (rev (positions_where (small_hole area min_area_size) 0 kept))
              (kept ++ removed) (length kept))
    as (polys' & new_end' & qs & Hrun & Hqs & Hres).
  - rewrite length_app. lia.
  - apply drop_app_length.
  - exact Hdesc.
  - intros h q Hh Hq. left.
    apply list_elem_of_In, in_rev, list_elem_of_In in Hh.
    apply list_elem_of_lookup in Hh. destruct Hh as [i Hi].
    destruct (Forall2_lookup_l _ _ _ _ _ Hval' Hi) as (q' & Hq' & Hlook).
    rewrite Hq in Hlook. inversion Hlook; subst q'.
    apply list_elem_of_lookup_2, list_elem_of_filter in Hq'.
    destruct Hq' as [Hsmall Hin]. apply Hholes; [|exact Hsmall].
    rewrite <- Hperm. apply elem_of_app. left. exact Hin.
  - rewrite Hrun. exists (take new_end' polys'). split; [reflexivity|].
    rewrite take_app_length in Hres.
    assert (Hqs' : qs = rev (filter (fun q =>
                                       small_hole area min_area_size q = true)
                                kept)).
    { apply (Forall2_lookup_functional (kept ++ removed)
               (rev (positions_where (small_hole area min_area_size) 0 kept)));
        [exact Hqs|apply Forall2_rev; exact Hval']. }
    subst qs.
    assert (Houtlines : filter (fun o => small_outline area min_area_size o
                                         = true) polys ≡ₚ removed).
    { rewrite <- Hperm, filter_app.
      rewrite (filter_none _ kept), (filter_all _ removed), app_nil_l;
        [reflexivity|exact Hremoved|].
      eapply Forall_impl; [exact Hkept|]. intros q Hq. cbn beta in *.
      congruence. }
    assert (Hsame : forall q,
              front_inside poly_inside
                (filter (fun o => small_outline area min_area_size o = true)
                   polys) q
              = front_inside poly_inside removed q).
    { intros q. unfold front_inside. destruct (head q); [|reflexivity].
      apply existsb_Permutation. exact Houtlines. }
    rewrite <- Hperm, filter_app.
    rewrite (filter_none _ removed), app_nil_r.
    2:{ eapply Forall_impl; [exact Hremoved|]. intros q Hq. cbn beta in *.
        unfold survives_small_areas. rewrite Hq. discriminate. }
    rewrite (filter_ext_elem _
               (fun q => ~ (front_inside poly_inside removed q = true
                            /\ small_hole area min_area_size q = true)) kept).
    2:{ eapply Forall_impl; [exact Hkept|]. intros q Hq. cbn beta in *.
        unfold survives_small_areas. rewrite Hq, Hsame. cbn [negb andb].
        destruct (small_hole area min_area_size q),
          (front_inside poly_inside removed q); cbn;
          split; intros H; first [reflexivity | discriminate H | tauto
                                 | intros [? ?]; discriminate
                                 | exfalso; apply H; split; reflexivity]. }
    pose proof (filter_app_complement
                  (fun q => front_inside poly_inside removed q = true
                            /\ small_hole area min_area_size q = true) kept)
      as Hsplit.
    rewrite <- list_filter_filter in Hsplit.
    assert (Hrev : filter (fun q => front_inside poly_inside removed q = true)
                     (rev (filter (fun q => small_hole area min_area_size q
                                            = true) kept))
                   ≡ₚ filter (fun q => front_inside poly_inside removed q
                                       = true)
                        (filter (fun q => small_hole area min_area_size q
                                          = true) kept)).
    { apply filter_Permutation. symmetry. apply Permutation_rev. }
    rewrite Hrev in Hres. clear Hrev.
    rewrite <- Hsplit in Hres at 1.
    rewrite (Permutation_app_comm (take new_end' polys')) in Hres.
    apply Permutation_app_inv_l in Hres. symmetry. exact Hres.
Qed.

Lemma removeSmallAreas_keeps_other_holes_witness :
  exists result,
    removeSmallAreas polygon_area (fun outline p => bool_decide (p ∈ outline))
      [ [mkPoint 0 0; mkPoint 100 0; mkPoint 100 100; mkPoint 0 100];
        [mkPoint 0 0; mkPoint 1 0; mkPoint 1 1];
        [mkPoint 1 1; mkPoint 1 0; mkPoint 0 0] ]
      (10 # 1) false
    = Finished result
    /\ result ≡ₚ filter (fun poly =>
                           survives_small_areas polygon_area
                             (fun outline p => bool_decide (p ∈ outline))
                             (10 # 1)
                             [ [mkPoint 0 0; mkPoint 100 0; mkPoint 100 100;
                                mkPoint 0 100];
                               [mkPoint 0 0; mkPoint 1 0; mkPoint 1 1];
                               [mkPoint 1 1; mkPoint 1 0; mkPoint 0 0] ]
                             poly = true)
                   [ [mkPoint 0 0; mkPoint 100 0; mkPoint 100 100;
                      mkPoint 0 100];
                     [mkPoint 0 0; mkPoint 1 0; mkPoint 1 1];
                     [mkPoint 1 1; mkPoint 1 0; mkPoint 0 0] ].
Proof.
  apply (removeSmallAreas_keeps_other_holes polygon_area
           (fun outline p => bool_decide (p ∈ outline))).
  intros poly Hin _.
  repeat (apply elem_of_cons in Hin; destruct Hin as [->|Hin];
          [discriminate|]).
  apply elem_of_nil in Hin. contradiction.
Defined.

(** ** Totals and bounds *)

Lemma int_wrap_add (a b : Z) : int_wrap (int_wrap a + b) = int_wrap (a + b).
Proof.
  unfold int_wrap. f_equal.
  replace ((a + 2 ^ 31) mod 2 ^ 32 - 2 ^ 31 + b + 2 ^ 31)
    with ((a + 2 ^ 31) mod 2 ^ 32 + b) by lia.
  rewrite Zplus_mod_idemp_l. f_equal. lia.
Qed.

Lemma int_wrap_fixed (z : Z) : int_wrap z = z <-> - 2 ^ 31 <= z < 2 ^ 31.
Proof.
  unfold int_wrap. split.
  - intros H. pose proof (Z.mod_pos_bound (z + 2 ^ 31) (2 ^ 32)). lia.
  - intros H. rewrite Z.mod_small by lia. lia.
Qed.

Lemma Polygons_length_from (length : Polygon -> Z) (polys : Polygons)
    (init : Z) :
  foldl (fun init polygon => int_wrap (init + length polygon))
    (int_wrap init) polys
  = int_wrap (init + foldr Z.add 0 (map length polys)).
Proof.
  revert init. induction polys as [|poly polys IH]; intros init.
  - cbn. rewrite Z.add_0_r. reflexivity.
  - cbn [foldl map foldr]. rewrite int_wrap_add, IH. f_equal. lia.
Qed.

(** X17.  [Polygons::length] gives the sum of the lengths of its polygons
    cut down to 32 bits: the total itself exactly when the total fits in
    an [int], whatever the width of [coord_t]. *)
Theorem Polygons_length_truncated (length : Polygon -> Z) (polys : Polygons) :
  Polygons_length length polys
  = int_wrap (foldr Z.add 0 (map length polys))
  /\ (Polygons_length length polys = foldr Z.add 0 (map length polys)
      <-> - 2 ^ 31 <= foldr Z.add 0 (map length polys) < 2 ^ 31).
Proof.
  assert (H : Polygons_length length polys
              = int_wrap (foldr Z.add 0 (map length polys))).
  { unfold Polygons_length. change 0 with (int_wrap 0) at 1.
    rewrite Polygons_length_from. reflexivity. }
  split; [exact H|]. rewrite H. apply int_wrap_fixed.
Qed.

Lemma foldl_min_spec (l : list Z) (m : Z) :
  foldl Z.min m l <= m
  /\ Forall (fun z => foldl Z.min m l <= z) l
  /\ (foldl Z.min m l = m \/ foldl Z.min m l ∈ l).
Proof.
  revert m. induction l as [|z l IH]; intros m; cbn [foldl].
  - split; [lia|]. split; [constructor|left; reflexivity].
  - destruct (IH (Z.min m z)) as (Hle & Hall & Hin).
    split; [lia|]. split; [constructor; [lia|exact Hall]|].
    destruct Hin as [Heq|Hin]; [|right; apply list_elem_of_further, Hin].
    destruct (Z.min_spec m z) as [[_ Hm]|[_ Hm]].
    + left. rewrite Heq. exact Hm.
    + right. rewrite Heq, Hm. apply list_elem_of_here.
Qed.

Lemma foldl_max_spec (l : list Z) (m : Z) :
  m <= foldl Z.max m l
  /\ Forall (fun z => z <= foldl Z.max m l) l
  /\ (foldl Z.max m l = m \/ foldl Z.max m l ∈ l).
Proof.
  revert m. induction l as [|z l IH]; intros m; cbn [foldl].
  - split; [lia|]. split; [constructor|left; reflexivity].
  - destruct (IH (Z.max m z)) as (Hle & Hall & Hin).
    split; [lia|]. split; [constructor; [lia|exact Hall]|].
    destruct Hin as [Heq|Hin]; [|right; apply list_elem_of_further, Hin].
    destruct (Z.max_spec m z) as [[_ Hm]|[_ Hm]].
    + right. rewrite Heq, Hm. apply list_elem_of_here.
    + left. rewrite Heq. exact Hm.
Qed.

Lemma foldl_concat {A B} (f : A -> B -> A) (a : A) (ls : list (list B)) :
  foldl (fun a l => foldl f a l) a ls = foldl f a (concat ls).
Proof.
  revert a. induction ls as [|l ls IH]; intros a; [reflexivity|].
  cbn [foldl concat]. rewrite foldl_app. apply IH.
Qed.

Lemma foldl_coordinates (op : Z -> Z -> Z) (l : Polygon) (ret : Point2LL) :
  X (foldl (fun ret p => mkPoint (op (X ret) (X p)) (op (Y ret) (Y p))) ret l)
  = foldl op (X ret) (map X l)
  /\ Y (foldl (fun ret p => mkPoint (op (X ret) (X p)) (op (Y ret) (Y p)))
          ret l)
     = foldl op (Y ret) (map Y l).
Proof.
  revert ret. induction l as [|p l IH]; intros ret; [split; reflexivity|].
  cbn [foldl map]. destruct (IH (mkPoint (op (X ret) (X p))
                                   (op (Y ret) (Y p)))) as [HX HY].
  rewrite HX, HY. split; reflexivity.
Qed.

(** X18.  [Polygons::min] and [Polygons::max] bound every vertex of every
    polygon, coordinate by coordinate, and each coordinate of a bound is
    that of some vertex or else the starting value; on a set without
    vertices the two bounds are the starting values [POINT_MAX] and
    [POINT_MIN]. *)
Theorem Polygons_min_max_bounds (POINT_MAX POINT_MIN : Z) (polys : Polygons) :
  let lo := Polygons_min POINT_MAX polys in
  let hi := Polygons_max POINT_MIN polys in
  Forall (fun p => X lo <= X p <= X hi /\ Y lo <= Y p <= Y hi) (concat polys)
  /\ (X lo = POINT_MAX \/ X lo ∈ map X (concat polys))
  /\ (Y lo = POINT_MAX \/ Y lo ∈ map Y (concat polys))
  /\ (X hi = POINT_MIN \/ X hi ∈ map X (concat polys))
  /\ (Y hi = POINT_MIN \/ Y hi ∈ map Y (concat polys)).
Proof.
  cbv zeta. unfold Polygons_min, Polygons_max. rewrite !foldl_concat.
  destruct (foldl_coordinates Z.min (concat polys)
              (mkPoint POINT_MAX POINT_MAX)) as [HminX HminY].
  destruct (foldl_coordinates Z.max (concat polys)
              (mkPoint POINT_MIN POINT_MIN)) as [HmaxX HmaxY].
  rewrite HminX, HminY, HmaxX, HmaxY. cbn [X Y].
  destruct (foldl_min_spec (map X (concat polys)) POINT_MAX)
    as (_ & HloX & HinloX).
  destruct (foldl_min_spec (map Y (concat polys)) POINT_MAX)
    as (_ & HloY & HinloY).
  destruct (foldl_max_spec (map X (concat polys)) POINT_MIN)
    as (_ & HhiX & HinhiX).
  destruct (foldl_max_spec (map Y (concat polys)) POINT_MIN)
    as (_ & HhiY & HinhiY).
  split; [|tauto].
  rewrite Forall_forall in HloX, HloY, HhiX, HhiY.
  apply Forall_forall. intros p Hp.
  assert (HpX : X p ∈ map X (concat polys))
    by (apply list_elem_of_fmap; exists p; split; [reflexivity|exact Hp]).
  assert (HpY : Y p ∈ map Y (concat polys))
    by (apply list_elem_of_fmap; exists p; split; [reflexivity|exact Hp]).
  pose proof (HloX _ HpX). pose proof (HloY _ HpY).
  pose proof (HhiX _ HpX). pose proof (HhiY _ HpY). lia.
Qed.

(** ** The smoothing wrappers *)

Section SmoothWrappers.
Variable smooth_poly : Polygon -> Polygon.

Local Abbreviation big := (fun poly : Polygon => (3 <= length poly)%nat).
Local Abbreviation smoothed :=
  (fun poly : Polygon =>
     if (length poly =? 3)%nat then poly else smooth_poly poly).
Local Abbreviation shortened :=
  (fun poly : Polygon =>
     if (length poly =? 3)%nat then poly
     else if (length (smooth_poly poly) <? 3)%nat
          then take (length (smooth_poly poly) - 1) (smooth_poly poly)
          else smooth_poly poly).

Lemma smooth_outward_from (polys ret : Polygons) :
  foldl (smooth_outward_step smooth_poly) ret polys
  = ret ++ filter big (map smoothed (filter big polys)).
Proof.
  revert ret. induction polys as [|poly polys IH]; intros ret.
  - cbn. rewrite app_nil_r. reflexivity.
  - cbn [foldl]. rewrite IH. rewrite (filter_cons _ poly).
    unfold smooth_outward_step.
    destruct (Nat.ltb_spec (length poly) 3) as [Hshort|Hlong].
    + rewrite decide_False by lia. reflexivity.
    + rewrite decide_True by lia. cbn [map]. rewrite filter_cons.
      destruct (Nat.eqb_spec (length poly) 3) as [Hthree|Hmore].
      * rewrite decide_True by lia. rewrite <- app_assoc. reflexivity.
      * unfold back. rewrite last_snoc.
        destruct (Nat.ltb_spec (length (smooth_poly poly)) 3) as [Hs|Hs].
        -- rewrite decide_False by lia.
           rewrite length_app. cbn [length].
           replace (length ret + 1 - 1)%nat with (length ret) by lia.
           rewrite take_app_length. reflexivity.
        -- rewrite decide_True by lia. rewrite <- app_assoc. reflexivity.
Qed.

Lemma smooth_from (polys ret : Polygons) :
  Forall (fun poly => (3 < length poly)%nat -> smooth_poly poly <> []) polys ->
  foldl (smooth_step smooth_poly) (Some ret) polys
  = Some (ret ++ map shortened (filter big polys)).
Proof.
  intros Hall. revert ret.
  induction Hall as [|poly polys Hpoly _ IH]; intros ret.
  - cbn. rewrite app_nil_r. reflexivity.
  - cbn [foldl]. rewrite (filter_cons _ poly).
    unfold smooth_step at 2. cbn [mbind option_bind].
    destruct (Nat.ltb_spec (length poly) 3) as [Hshort|Hlong].
    + rewrite decide_False by lia. apply IH.
    + rewrite decide_True by lia. cbn [map].
      destruct (Nat.eqb_spec (length poly) 3) as [Hthree|Hmore].
      * rewrite IH, <- app_assoc. reflexivity.
      * destruct (Nat.ltb_spec (length (smooth_poly poly)) 3) as [Hs|Hs].
        -- destruct (Nat.eqb_spec (length (smooth_poly poly)) 0) as [Hz|_].
           ++ exfalso. apply Hpoly; [lia|].
              destruct (smooth_poly poly); [reflexivity|discriminate Hz].
           ++ rewrite IH, <- app_assoc. reflexivity.
        -- rewrite IH, <- app_assoc. reflexivity.
Qed.
End SmoothWrappers.

(** X19.  [Polygons::smooth_outward] returns polygons of three points or
    more only: polygons of fewer than three points are skipped, triangles
    are copied, and a polygon whose smoothed form has fewer than three
    points is taken out of the result again.  The polygons kept stay in
    the order of the set. *)
Theorem smooth_outward_at_least_triangles
    (smooth_outward_poly : Polygon -> Polygon) (polys : Polygons) :
  Forall (fun poly => (3 <= length poly)%nat)
    (smooth_outward smooth_outward_poly polys)
  /\ smooth_outward smooth_outward_poly polys
     = filter (fun poly => (3 <= length poly)%nat)
         (map (fun poly => if (length poly =? 3)%nat then poly
                           else smooth_outward_poly poly)
            (filter (fun poly => (3 <= length poly)%nat) polys)).
Proof.
  unfold smooth_outward. rewrite smooth_outward_from. cbn [app].
  split; [|reflexivity].
  apply Forall_forall. intros poly Hin.
  apply list_elem_of_filter in Hin. exact (proj1 Hin).
Qed.

(** X20.  [Polygons::smooth] takes no polygon out for what smoothing
    leaves of it: the result has one polygon for every polygon of three
    points or more, and a polygon of more than three points whose smoothed
    form has one or two points stays in the result with one point less,
    that is, with no point or a single one. *)
Theorem smooth_keeps_collapsed_polygons (smooth_poly : Polygon -> Polygon)
    (polys : Polygons) :
  Forall (fun poly => (3 < length poly)%nat -> smooth_poly poly <> []) polys ->
  exists ret,
    Polygons_smooth smooth_poly polys = Some ret
    /\ length ret
       = length (filter (fun poly => (3 <= length poly)%nat) polys)
    /\ forall poly,
         poly ∈ polys -> (3 < length poly)%nat ->
         (length (smooth_poly poly) < 3)%nat ->
         exists collapsed,
           collapsed ∈ ret
           /\ collapsed = take (length (smooth_poly poly) - 1)
                            (smooth_poly poly)
           /\ (length collapsed < 2)%nat.
Proof.
  intros Hall. unfold Polygons_smooth.
  rewrite (smooth_from smooth_poly polys [] Hall). cbn [app].
  eexists. split; [reflexivity|]. split; [apply length_map|].
  intros poly Hin Hmore Hshort.
  exists (take (length (smooth_poly poly) - 1) (smooth_poly poly)).
  split; [|split; [reflexivity|rewrite length_take; lia]].
  apply list_elem_of_fmap. exists poly. split.
  - destruct (Nat.eqb_spec (length poly) 3) as [Hthree|_]; [lia|].
    destruct (Nat.ltb_spec (length (smooth_poly poly)) 3) as [_|Hge];
      [reflexivity|lia].
  - apply list_elem_of_filter. split; [lia|exact Hin].
Qed.

Lemma smooth_keeps_collapsed_polygons_witness :
  exists ret,
    Polygons_smooth (take 2)
      [[mkPoint 0 0; mkPoint 10 0; mkPoint 10 10; mkPoint 0 10]] = Some ret
    /\ length ret
       = length (filter (fun poly => (3 <= length poly)%nat)
                   [[mkPoint 0 0; mkPoint 10 0; mkPoint 10 10; mkPoint 0 10]])
    /\ forall poly,
         poly ∈ [[mkPoint 0 0; mkPoint 10 0; mkPoint 10 10; mkPoint 0 10]] ->
         (3 < length poly)%nat ->
         (length (take 2 poly) < 3)%nat ->
         exists collapsed,
           collapsed ∈ ret
           /\ collapsed = take (length (take 2 poly) - 1) (take 2 poly)
           /\ (length collapsed < 2)%nat.
Proof.
  apply (smooth_keeps_collapsed_polygons (take 2)).
  repeat constructor. intros _. discriminate.
Defined.

(** ** Filtering twice *)

Section SmallAreaCircumferenceTwice.
Variable area : Polygon -> Q.
Variable length : Polygon -> Z.
Variable min_area_size : Q.
Variable min_circumference_size : Z.
Variable remove_holes : bool.

Local Abbreviation step :=
  (small_area_step area length min_area_size min_circumference_size
     remove_holes).
Local Abbreviation passes :=
  (passes_thresholds area length min_area_size min_circumference_size
     remove_holes).

Lemma step_keeps_or_drops (acc : Polygons) (flag : bool) (poly : Polygon) :
  (exists flag', step (acc, flag) poly = (acc ++ [poly], flag')
                 /\ passes poly = true)
  \/ (exists flag', step (acc, flag) poly = (acc, flag')).
Proof.
  unfold small_area_step, passes_thresholds.
  destruct (Qle_bool 0 (area poly));
    destruct ((length poly >=? min_circumference_size)
              && Qle_bool min_area_size (Qabs (area poly)));
    destruct flag; destruct remove_holes; cbn;
    first [left; eexists; split; reflexivity | right; eexists; reflexivity].
Qed.

Lemma step_passes (acc : Polygons) (poly : Polygon) :
  passes poly = true -> step (acc, false) poly = (acc ++ [poly], false).
Proof.
  unfold small_area_step, passes_thresholds.
  destruct (Qle_bool 0 (area poly));
    destruct ((length poly >=? min_circumference_size)
              && Qle_bool min_area_size (Qabs (area poly)));
    destruct remove_holes; cbn; intros H;
    first [reflexivity | discriminate H].
Qed.

Lemma foldl_step_kept (polys acc : Polygons) (flag : bool) :
  exists kept flag',
    foldl step (acc, flag) polys = (acc ++ kept, flag')
    /\ Forall (fun poly => passes poly = true) kept
    /\ kept `sublist_of` polys.
Proof.
  revert acc flag. induction polys as [|poly polys IH]; intros acc flag.
  - exists [], flag. cbn. rewrite app_nil_r.
    split; [reflexivity|]. split; constructor.
  - cbn [foldl].
    destruct (step_keeps_or_drops acc flag poly)
      as [(flag1 & Hstep & Hpass)|(flag1 & Hstep)]; rewrite Hstep.
    + destruct (IH (acc ++ [poly]) flag1) as (kept & flag' & Hrun & Hall & Hsub).
      exists (poly :: kept), flag'. rewrite Hrun, <- app_assoc.
      split; [reflexivity|].
      split; [constructor; assumption|apply sublist_skip, Hsub].
    + destruct (IH acc flag1) as (kept & flag' & Hrun & Hall & Hsub).
      exists kept, flag'. split; [exact Hrun|].
      split; [exact Hall|apply sublist_cons, Hsub].
Qed.

Lemma foldl_step_passes (kept acc : Polygons) :
  Forall (fun poly => passes poly = true) kept ->
  foldl step (acc, false) kept = (acc ++ kept, false).
Proof.
  intros Hall. revert acc.
  induction Hall as [|poly kept Hpoly _ IH]; intros acc.
  - cbn. rewrite app_nil_r. reflexivity.
  - cbn [foldl]. rewrite step_passes by exact Hpoly.
    rewrite IH, <- app_assoc. reflexivity.
Qed.
End SmallAreaCircumferenceTwice.

(** X21.  [removeSmallAreaCircumference] only takes polygons out, keeping
    the others in their order, and a second pass with the same thresholds
    takes nothing more out. *)
Theorem removeSmallAreaCircumference_idempotent (area : Polygon -> Q)
    (length : Polygon -> Z) (polys : Polygons) (min_area_size : Q)
    (min_circumference_size : Z) (remove_holes : bool) :
  let filtered :=
    removeSmallAreaCircumference area length polys min_area_size
      min_circumference_size remove_holes in
  filtered `sublist_of` polys
  /\ removeSmallAreaCircumference area length filtered min_area_size
       min_circumference_size remove_holes = filtered.
Proof.
  cbv zeta. unfold removeSmallAreaCircumference.
  destruct (foldl_step_kept area length min_area_size min_circumference_size
              remove_holes polys [] false)
    as (kept & flag' & Hrun & Hall & Hsub).
  rewrite Hrun. cbn [app fst].
  split; [exact Hsub|].
  rewrite (foldl_step_passes area length min_area_size min_circumference_size
             remove_holes kept [] Hall).
  reflexivity.
Qed.

(** ** Runs of the earlier results on concrete sets *)

(** The parity rule on three nested squares. *)
Lemma findInside_parity_rule_small_witness :
  exists r,
    findInside pointLiesOnTheRightOfLine nested_squares (mkPoint 50 50) false
    = Some r
    /\ (Nat.even (count_odd pointLiesOnTheRightOfLine (mkPoint 50 50)
                    nested_squares) = true -> r = NO_INDEX)
    /\ (Nat.even (count_odd pointLiesOnTheRightOfLine (mkPoint 50 50)
                    nested_squares) = false ->
        exists i, r = Z.of_nat i
                  /\ innermost pointLiesOnTheRightOfLine (mkPoint 50 50)
                       nested_squares i).
Proof.
  apply (findInside_parity_rule_small pointLiesOnTheRightOfLine nested_squares
           (mkPoint 50 50) false).
  - discriminate.
  - repeat constructor; discriminate.
  - apply small_point_check. vm_compute. reflexivity.
  - repeat constructor; apply small_point_check; vm_compute; reflexivity.
  - intros H. discriminate H.
Defined.

(** A point on the lower edge of the second of three nested squares. *)
Lemma findInside_on_border_witness :
  findInside pointLiesOnTheRightOfLine
    ([ [mkPoint 0 0; mkPoint 100 0; mkPoint 100 100; mkPoint 0 100] ]
     ++ [mkPoint 10 10; mkPoint 90 10; mkPoint 90 90; mkPoint 10 90]
     :: [ [mkPoint 20 20; mkPoint 80 20; mkPoint 80 80; mkPoint 20 80] ])
    (mkPoint 50 10) true
  = Some (Z.of_nat
            (length [ [mkPoint 0 0; mkPoint 100 0; mkPoint 100 100;
                       mkPoint 0 100] ])).
Proof.
  apply (findInside_on_border pointLiesOnTheRightOfLine).
  - repeat constructor; discriminate.
  - repeat constructor; apply not_on_border_check; vm_compute; reflexivity.
  - apply on_border_check. vm_compute. reflexivity.
Defined.

(** A closed set with a spike and a polygon that collapses. *)
Lemma removeDegenerateVertsForEveryone_closed_finishes_witness :
  exists polys',
    removeDegenerateVertsForEveryone vSize_floor Closed
      [ [mkPoint 0 0; mkPoint 10 0; mkPoint 5 0];
        [mkPoint 0 0; mkPoint 10 0; mkPoint 10 10; mkPoint 0 10] ]
    = Finished polys'.
Proof.
  apply (removeDegenerateVertsForEveryone_closed_finishes vSize_floor).
  vm_compute. reflexivity.
Defined.

(** An open polyline that runs out to (10, 0) and back to (5, 0). *)
Lemma removeDegenerateVertsForEveryone_open_idempotent_witness :
  removeDegenerateVertsForEveryone vSize_floor Open
    [[mkPoint 0 0; mkPoint 5 0; mkPoint 5 5]]
  = Finished [[mkPoint 0 0; mkPoint 5 0; mkPoint 5 5]].
Proof.
  apply (removeDegenerateVertsForEveryone_open_idempotent vSize_floor
           [[mkPoint 0 0; mkPoint 10 0; mkPoint 5 0; mkPoint 5 5]]
           [[mkPoint 0 0; mkPoint 5 0; mkPoint 5 5]]).
  - split; [vm_compute; reflexivity|].
    repeat constructor.
  - vm_compute. reflexivity.
Defined.

(** ** Empty members *)

(** X26.  An empty polygon in the set makes both crossing-count tests
    undefined: when the polygons before it are not empty and do not have
    the point on an edge, [findInside] and [insideOld] reach [back()] of
    the empty polygon. *)
Theorem crossing_tests_undefined_on_empty_polygon (comp : classifier)
    (pre rest : Polygons) (p : Point2LL) (border_result : bool) :
  Forall (fun poly => poly <> []) pre ->
  Forall (fun poly => ~ on_border comp p poly) pre ->
  findInside comp (pre ++ [] :: rest) p border_result = None
  /\ insideOld comp (pre ++ [] :: rest) p border_result = None.
Proof.
  intros Hne Hnb.
  assert (Hs : (size_of (pre ++ [] :: rest) <? 1) = false).
  { apply Z.ltb_ge. unfold size_of. rewrite length_app. cbn [length]. lia. }
  unfold findInside, insideOld. rewrite Hs. split.
  - assert (Hfill : forall poly_idx,
              fill_stats comp p border_result (pre ++ [] :: rest) poly_idx
              = Undefined).
    { clear Hs. induction pre as [|q pre IH]; intros poly_idx;
        [reflexivity|].
      apply Forall_cons in Hne as [Hq Hne].
      apply Forall_cons in Hnb as [Hqb Hnb].
      cbn [app fill_stats]. destruct (back_nonempty q Hq) as [p0 Hback].
      rewrite Hback.
      rewrite (scan_polygon_counts comp p border_result q p0 Hback)
        by (intros _; exact Hqb).
      rewrite (IH Hne Hnb). reflexivity. }
    rewrite Hfill. reflexivity.
  - assert (Hloop : forall crossings,
              insideOld_loop comp p border_result (pre ++ [] :: rest)
                crossings = None).
    { clear Hs. induction pre as [|q pre IH]; intros crossings;
        [reflexivity|].
      apply Forall_cons in Hne as [Hq Hne].
      apply Forall_cons in Hnb as [Hqb Hnb].
      cbn [app insideOld_loop]. destruct (back_nonempty q Hq) as [p0 Hback].
      rewrite Hback.
      rewrite (insideOld_polygon_counts comp p q p0 crossings Hback Hqb).
      apply (IH Hne Hnb). }
    apply Hloop.
Qed.

Lemma crossing_tests_undefined_on_empty_polygon_witness :
  findInside pointLiesOnTheRightOfLine
    ([ [mkPoint 0 0; mkPoint 100 0; mkPoint 100 100; mkPoint 0 100] ]
     ++ [] :: []) (mkPoint 50 50) false = None
  /\ insideOld pointLiesOnTheRightOfLine
       ([ [mkPoint 0 0; mkPoint 100 0; mkPoint 100 100; mkPoint 0 100] ]
        ++ [] :: []) (mkPoint 50 50) false = None.
Proof.
  apply (crossing_tests_undefined_on_empty_polygon pointLiesOnTheRightOfLine).
  - repeat constructor; discriminate.
  - repeat constructor; apply not_on_border_check; vm_compute; reflexivity.
Defined.

Section EmptyPolylines.
Variable vSize : length_fn.

Lemma tidy_polyline_defined (poly : Polygon) :
  size_of poly < 2 ^ 64 ->
  (is_Some (tidy_polyline vSize poly) <-> poly <> []).
Proof.
  intros Hsize. unfold tidy_polyline. split.
  - intros Hsome ->. destruct Hsome as [tidied Htidied].
    discriminate Htidied.
  - intros Hne. destruct poly as [|p [|q rest]]; [contradiction| |].
    + rewrite removeDegenerateVerts_polyline_single. eexists. reflexivity.
    + destruct (removeDegenerateVerts_polyline_clean vSize (p :: q :: rest))
        as (result & isChanged & -> & _); [cbn [length]; lia|exact Hsize|].
      destruct isChanged; eexists; reflexivity.
Qed.

Lemma mapM_tidy_defined (polys : Polygons) :
  Forall (fun poly => size_of poly < 2 ^ 64) polys ->
  (is_Some (mapM (tidy_polyline vSize) polys)
   <-> Forall (fun poly => poly <> []) polys).
Proof.
  intros Hsizes. rewrite mapM_is_Some. split; intros Hall.
  - rewrite Forall_forall in Hall, Hsizes |- *. intros poly Hin.
    apply tidy_polyline_defined; [apply Hsizes|apply Hall]; exact Hin.
  - rewrite Forall_forall in Hall, Hsizes |- *. intros poly Hin.
    apply tidy_polyline_defined; [apply Hsizes|apply Hall]; exact Hin.
Qed.
End EmptyPolylines.

(** X27.  On open polylines [removeDegenerateVertsForEveryone] returns
    exactly when no polyline of the set is empty; with an empty polyline
    in the set the end vertex [poly.size() - 1] wraps around in [size_t]
    and the loop reads outside the polyline. *)
Theorem removeDegenerateVertsForEveryone_open_empty_polyline
    (vSize : length_fn) (polys : Polygons) :
  representable polys ->
  ((exists polys',
      removeDegenerateVertsForEveryone vSize Open polys = Finished polys')
   <-> Forall (fun poly => poly <> []) polys)
  /\ (removeDegenerateVertsForEveryone vSize Open polys = UndefinedBehaviour
      <-> [] ∈ polys).
Proof.
  intros [Hsize Hsizes].
  rewrite removeDegenerateVertsForEveryone_open by exact Hsize.
  pose proof (mapM_tidy_defined vSize polys Hsizes) as Hdef.
  destruct (mapM (tidy_polyline vSize) polys) as [tidied|] eqn:Hm.
  - assert (Hall : Forall (fun poly => poly <> []) polys)
      by (apply Hdef; eexists; reflexivity).
    split; split.
    + intros _. exact Hall.
    + intros _. eexists. reflexivity.
    + intros H. discriminate H.
    + intros Hin. rewrite Forall_forall in Hall.
      exfalso. exact (Hall [] Hin eq_refl).
  - assert (Hnot : ~ Forall (fun poly => poly <> []) polys).
    { intros Hall. apply Hdef in Hall. destruct Hall as [x Hx].
      discriminate Hx. }
    split; split.
    + intros [polys' H]. discriminate H.
    + intros Hall. contradiction.
    + intros _. apply not_Forall_Exists in Hnot; [|intros poly; apply _].
      apply Exists_exists in Hnot. destruct Hnot as (poly & Hin & Hempty).
      destruct poly; [exact Hin|]. exfalso. apply Hempty. discriminate.
    + intros _. reflexivity.
Qed.

Lemma removeDegenerateVertsForEveryone_open_empty_polyline_witness :
  ((exists polys',
      removeDegenerateVertsForEveryone vSize_floor Open
        [[mkPoint 0 0; mkPoint 5 0]; []] = Finished polys')
   <-> Forall (fun poly => poly <> []) [[mkPoint 0 0; mkPoint 5 0]; []])
  /\ (removeDegenerateVertsForEveryone vSize_floor Open
        [[mkPoint 0 0; mkPoint 5 0]; []] = UndefinedBehaviour
      <-> [] ∈ [[mkPoint 0 0; mkPoint 5 0]; []]).
Proof.
  apply (removeDegenerateVertsForEveryone_open_empty_polyline vSize_floor).
  split; [vm_compute; reflexivity|]. repeat constructor.
Defined.

(** ** [makeConvex] *)

#[local] Instance lex_le_total : Total lex_le.
Proof. intros a b. unfold lex_le. lia. Qed.

#[local] Instance lex_le_transitive : Transitive lex_le.
Proof. intros a b c. unfold lex_le. lia. Qed.

Section MakeConvex.
Variable pointIsLeftOfLine : Point2LL -> Point2LL -> Point2LL -> Z.

Lemma removelast_head (a b : Point2LL) (rest : Polygon) :
  removelast (a :: b :: rest) <> []
  /\ head (removelast (a :: b :: rest)) = Some a
  /\ forall x, x ∈ removelast (a :: b :: rest) -> x ∈ a :: b :: rest.
Proof.
  split; [discriminate|]. split; [reflexivity|].
  intros x Hx. rewrite removelast_firstn_len in Hx.
  apply elem_of_take in Hx. destruct Hx as (i & Hi & _).
  eapply list_elem_of_lookup_2. exact Hi.
Qed.

Lemma convex_pop_spec (current : Point2LL) (fuel : nat) :
  forall convexified,
    convexified <> [] ->
    exists popped,
      convex_pop pointIsLeftOfLine current fuel convexified = Some popped
      /\ popped <> []
      /\ head popped = head convexified
      /\ forall x, x ∈ popped -> x ∈ convexified.
Proof.
  induction fuel as [|fuel IH]; intros convexified Hne.
  - exists convexified. cbn. repeat split; [exact Hne|]. intros x Hx. exact Hx.
  - cbn [convex_pop].
    destruct (Nat.leb_spec 2 (length convexified)) as [Hlen|_].
    2:{ exists convexified. repeat split; [exact Hne|].
        intros x Hx. exact Hx. }
    destruct convexified as [|a [|b rest]];
      [contradiction|cbn [length] in Hlen; lia|].
    destruct (back_nonempty (a :: b :: rest) Hne) as [convexified_back ->].
    destruct (lookup_lt_is_Some_2 (a :: b :: rest)
                (length (a :: b :: rest) - 2)) as [before_back ->];
      [cbn [length]; lia|].
    cbn [head mbind option_bind].
    destruct ((pointIsLeftOfLine convexified_back before_back current >=? 0)
              || (pointIsLeftOfLine convexified_back before_back a >? 0)).
    + destruct (removelast_head a b rest) as (Hne' & Hhead & Hsub).
      destruct (IH (removelast (a :: b :: rest)) Hne')
        as (popped & Hrun & Hpopped & Hhead' & Hsub').
      exists popped. split; [exact Hrun|]. split; [exact Hpopped|].
      split; [rewrite Hhead', Hhead; reflexivity|].
      intros x Hx. apply Hsub, Hsub', Hx.
    + exists (a :: b :: rest). repeat split; [exact Hne|].
      intros x Hx. exact Hx.
Qed.

Lemma convex_windows_spec (poly : Polygon) :
  forall convexified,
    convexified <> [] ->
    exists result,
      convex_windows pointIsLeftOfLine poly convexified = Some result
      /\ result <> []
      /\ head result = head convexified
      /\ forall x, x ∈ result -> x ∈ convexified \/ x ∈ poly.
Proof.
  induction poly as [|current poly IH]; intros convexified Hne.
  - exists convexified. repeat split; [exact Hne|]. intros x Hx. left. exact Hx.
  - destruct poly as [|after rest].
    + exists convexified. repeat split; [exact Hne|].
      intros x Hx. left. exact Hx.
    + cbn [convex_windows].
      destruct (back_nonempty convexified Hne) as [convexified_back ->].
      cbn [mbind option_bind].
      assert (Hstep : exists convexified',
                (if pointIsLeftOfLine current convexified_back after <? 0
                 then popped ← convex_pop pointIsLeftOfLine current
                                 (length convexified) convexified;
                      Some (popped ++ [current])
                 else Some convexified) = Some convexified'
                /\ convexified' <> []
                /\ head convexified' = head convexified
                /\ forall x, x ∈ convexified' ->
                     x ∈ convexified \/ x = current).
      { destruct (pointIsLeftOfLine current convexified_back after <? 0).
        - destruct (convex_pop_spec current (length convexified) convexified
                      Hne) as (popped & -> & Hpopped & Hhead & Hsub).
          cbn [mbind option_bind]. exists (popped ++ [current]).
          split; [reflexivity|].
          split; [intros E; apply app_eq_nil in E; destruct E; discriminate|].
          split.
          + rewrite head_snoc, <- Hhead.
            destruct popped; [contradiction|reflexivity].
          + intros x Hx. apply elem_of_app in Hx. destruct Hx as [Hx|Hx].
            * left. apply Hsub, Hx.
            * right. apply list_elem_of_singleton in Hx. exact Hx.
        - exists convexified. repeat split; [exact Hne|].
          intros x Hx. left. exact Hx. }
      destruct Hstep as (convexified' & -> & Hne' & Hhead' & Hsub').
      cbn [mbind option_bind].
      destruct (IH convexified' Hne') as (result & Hrun & Hres & Hhead & Hsub).
      exists result. split; [exact Hrun|]. split; [exact Hres|].
      split; [rewrite Hhead; exact Hhead'|].
      intros x Hx. destruct (Hsub x Hx) as [Hc|Hp].
      * destruct (Hsub' x Hc) as [Hc'| ->]; [left; exact Hc'|].
        right. apply list_elem_of_here.
      * right. apply list_elem_of_further. exact Hp.
Qed.

Lemma make_sorted_poly_convex_spec (poly convexified : Polygon)
    (first : Point2LL) :
  head poly = Some first ->
  exists result,
    make_sorted_poly_convex pointIsLeftOfLine poly convexified = Some result
    /\ head result = head (convexified ++ [first])
    /\ forall x, x ∈ result -> x ∈ convexified \/ x ∈ poly.
Proof.
  intros Hfirst. unfold make_sorted_poly_convex. rewrite Hfirst.
  cbn [mbind option_bind].
  destruct (convex_windows_spec poly (convexified ++ [first]))
    as (result & Hrun & _ & Hhead & Hsub).
  { intros E. apply app_eq_nil in E. destruct E; discriminate. }
  exists result. split; [exact Hrun|]. split; [exact Hhead|].
  intros x Hx. destruct (Hsub x Hx) as [Hc|Hp]; [|right; exact Hp].
  apply elem_of_app in Hc. destruct Hc as [Hc|Hc]; [left; exact Hc|].
  apply list_elem_of_singleton in Hc. subst x. right.
  destruct poly; [discriminate Hfirst|].
  cbn in Hfirst. inversion Hfirst; subst. apply list_elem_of_here.
Qed.
End MakeConvex.

(** The hull computed from a set with at least one vertex. *)
Lemma makeConvex_convexified_spec
    (pointIsLeftOfLine : Point2LL -> Point2LL -> Point2LL -> Z)
    (polys : Polygons) :
  concat polys <> [] ->
  exists hull least,
    makeConvex_convexified pointIsLeftOfLine polys = Some hull
    /\ head hull = Some least
    /\ least ∈ concat polys
    /\ (forall q, q ∈ concat polys -> lex_le least q)
    /\ forall q, q ∈ hull -> q ∈ concat polys.
Proof.
  pose proof (sorting.merge_sort_Permutation lex_le (concat polys)) as Hperm.
  pose proof (sorting.StronglySorted_merge_sort lex_le (concat polys))
    as Hsorted.
  intros Hpoints. unfold makeConvex_convexified. cbv zeta.
  destruct (sorting.merge_sort lex_le (concat polys))
    as [|least points] eqn:Hsort.
  { exfalso. apply Hpoints. symmetry in Hperm.
    apply Permutation_nil_r in Hperm. exact Hperm. }
  apply Sorted.StronglySorted_inv in Hsorted. destruct Hsorted as [_ Hleast].
  destruct (make_sorted_poly_convex_spec pointIsLeftOfLine
              (least :: points) [] least eq_refl)
    as (convexified & -> & Hhead & Hsub).
  cbn [mbind option_bind].
  destruct (head (rev (least :: points))) as [greatest|] eqn:Hgreatest.
  2:{ exfalso. destruct (rev (least :: points)) eqn:Hrev;
        [|discriminate Hgreatest].
      apply (f_equal (@length Point2LL)) in Hrev.
      rewrite length_rev in Hrev. discriminate Hrev. }
  destruct (make_sorted_poly_convex_spec pointIsLeftOfLine
              (rev (least :: points)) convexified greatest Hgreatest)
    as (hull & -> & Hhead' & Hsub').
  exists hull, least. split; [reflexivity|].
  assert (Hfirst : head convexified = Some least) by exact Hhead.
  split.
  { rewrite Hhead', head_app, Hfirst. reflexivity. }
  split.
  { rewrite <- Hperm. apply list_elem_of_here. }
  split.
  { intros q Hq. rewrite <- Hperm in Hq. apply elem_of_cons in Hq.
    destruct Hq as [->|Hq].
    - right. split; [reflexivity|lia].
    - rewrite Forall_forall in Hleast. exact (Hleast q Hq). }
  intros q Hq. rewrite <- Hperm.
  destruct (Hsub' q Hq) as [Hc|Hr].
  + destruct (Hsub q Hc) as [Hnil|Hin]; [|exact Hin].
    apply elem_of_nil in Hnil. contradiction.
  + apply list_elem_of_In, in_rev, list_elem_of_In in Hr. exact Hr.
Qed.

(** X28.  [makeConvex]: an empty set is left as it is; a set that is not
    empty but has no vertex at all makes the routine read the first of no
    points; on any other set the hull computed is a single polygon that
    starts at the vertex least by [X], then [Y], and every vertex of it is
    a vertex of the set; the hull is then stored by the assignment of a
    temporary, from which the routine does not return, whatever the fuel. *)
Theorem makeConvex_hull_of_vertices
    (pointIsLeftOfLine : Point2LL -> Point2LL -> Point2LL -> Z)
    (polys : Polygons) :
  (polys = [] ->
   forall fuel, makeConvex fuel pointIsLeftOfLine polys = Finished [])
  /\ (polys <> [] -> concat polys = [] ->
      forall fuel,
        makeConvex fuel pointIsLeftOfLine polys = UndefinedBehaviour)
  /\ (concat polys <> [] ->
      exists hull least,
        makeConvex_convexified pointIsLeftOfLine polys = Some hull
        /\ head hull = Some least
        /\ least ∈ concat polys
        /\ (forall q, q ∈ concat polys -> lex_le least q)
        /\ (forall q, q ∈ hull -> q ∈ concat polys)
        /\ forall fuel,
             makeConvex fuel pointIsLeftOfLine polys
             = assign_temporary fuel polys [hull]
             /\ makeConvex fuel pointIsLeftOfLine polys = OutOfFuel).
Proof.
  split; [intros -> fuel; reflexivity|].
  split.
  - intros Hne Hempty fuel. unfold makeConvex, makeConvex_convexified.
    destruct polys; [contradiction|]. cbn [length Nat.eqb].
    pose proof (sorting.merge_sort_Permutation lex_le (concat (l :: polys)))
      as Hperm.
    rewrite Hempty in Hperm. apply Permutation_nil_r in Hperm.
    cbv zeta. rewrite Hempty, Hperm. reflexivity.
  - intros Hpoints.
    destruct (makeConvex_convexified_spec pointIsLeftOfLine polys Hpoints)
      as (hull & least & Hrun & Hhead & Hin & Hleast & Hsub).
    exists hull, least. repeat (split; [assumption|]).
    intros fuel. unfold makeConvex. rewrite Hrun.
    destruct polys as [|poly polys]; [contradiction Hpoints; reflexivity|].
    cbn [length Nat.eqb].
    split; [reflexivity|apply assign_temporary_runs_out].
Qed.

(** ** [PolygonsPart::inside] on the border of a hole *)

Lemma PolygonsPart_inside_holes_spec
    (poly_inside : Polygon -> Point2LL -> bool -> bool) (p : Point2LL)
    (border_result : bool) (holes : Polygons) :
  PolygonsPart_inside_holes poly_inside p border_result holes
  = negb (existsb (fun hole => poly_inside hole p border_result) holes).
Proof.
  induction holes as [|hole rest IH]; [reflexivity|].
  cbn [PolygonsPart_inside_holes existsb].
  destruct (poly_inside hole p border_result); [reflexivity|exact IH].
Qed.

(** X29.  [PolygonsPart::inside] hands [border_result] on to the holes
    as it is, so for a point inside the outline that lies on the border of
    a hole, where the test of a single polygon answers [border_result],
    and in no other hole, the part answers the opposite of
    [border_result]: outside when border points are to count as inside,
    inside when they are not. *)
Theorem PolygonsPart_inside_hole_border
    (poly_inside : Polygon -> Point2LL -> bool -> bool)
    (outline hole : Polygon) (before after : Polygons) (p : Point2LL)
    (border_result : bool) :
  poly_inside outline p border_result = true ->
  poly_inside hole p border_result = border_result ->
  Forall (fun other => poly_inside other p border_result = false)
    (before ++ after) ->
  PolygonsPart_inside poly_inside (outline :: before ++ hole :: after) p
    border_result
  = negb border_result.
Proof.
  intros Houtline Hhole Hothers. apply Forall_app in Hothers.
  destruct Hothers as [Hbefore Hafter].
  unfold PolygonsPart_inside. rewrite Houtline. cbn [negb].
  rewrite PolygonsPart_inside_holes_spec. f_equal.
  rewrite existsb_app. cbn [existsb]. rewrite Hhole.
  assert (Hnone : forall others,
            Forall (fun other => poly_inside other p border_result = false)
              others ->
            existsb (fun other => poly_inside other p border_result) others
            = false).
  { induction 1 as [|other others Hother _ IH]; [reflexivity|].
    cbn [existsb]. rewrite Hother. exact IH. }
  rewrite (Hnone before Hbefore), (Hnone after Hafter).
  destruct border_result; reflexivity.
Qed.

Lemma PolygonsPart_inside_hole_border_witness :
  PolygonsPart_inside
    (fun poly q border_result =>
       if bool_decide (q ∈ poly) then border_result
       else (4 <=? length poly)%nat)
    ([mkPoint 0 0; mkPoint 100 0; mkPoint 100 100; mkPoint 0 100]
     :: [] ++ [mkPoint 10 10; mkPoint 10 90; mkPoint 90 10] :: [])
    (mkPoint 10 10) true
  = negb true.
Proof.
  apply (PolygonsPart_inside_hole_border
           (fun poly q border_result =>
              if bool_decide (q ∈ poly) then border_result
              else (4 <=? length poly)%nat)).
  - vm_compute. reflexivity.
  - vm_compute. reflexivity.
  - constructor.
Defined.

(** ** Routines that store a temporary *)

(** X30.  [ensureManifold] on a set with a repeated location and [offset]
    of a filled shape by a distance that is not zero each ask the library
    once, for the difference and for the union, and then enter the move
    assignment with the answer as a temporary: neither returns, whatever
    the fuel and the answers of the library, and the offset itself is never
    requested. *)
Theorem temporaries_assigned_never_return (fuel : nat) (h : clipper)
    (polys : Polygons) (union_fill : PolyFillType) (paths : Polygons)
    (distance : Z) (joinType : JoinType) (miter_limit : Q) :
  duplicate_locations polys <> [] ->
  distance <> 0 ->
  run h (ensureManifold fuel polys) = OutOfFuel
  /\ run h (offset fuel Filled union_fill paths distance joinType miter_limit)
     = OutOfFuel
  /\ calls h
       (offset fuel Filled union_fill paths distance joinType miter_limit)
     = [Request (ClipperExecute ctUnion paths [] union_fill union_fill)].
Proof.
  intros Hdup Hd. split; [|split].
  - unfold ensureManifold.
    destruct (duplicate_locations polys) as [|p dups]; [contradiction|].
    cbn. apply assign_temporary_runs_out.
  - unfold offset. destruct (Z.eqb_spec distance 0) as [E|_]; [contradiction|].
    cbn. rewrite assign_temporary_runs_out. reflexivity.
  - unfold offset. destruct (Z.eqb_spec distance 0) as [E|_]; [contradiction|].
    cbn. rewrite assign_temporary_runs_out, app_nil_r. reflexivity.
Qed.

Lemma temporaries_assigned_never_return_witness :
  run stub_clipper (ensureManifold 8 pinched_contour) = OutOfFuel
  /\ run stub_clipper
       (offset 8 Filled pftNonZero
          [[mkPoint 0 0; mkPoint 10 0; mkPoint 10 10; mkPoint 0 10]] 5
          jtMiter 2)
     = OutOfFuel
  /\ calls stub_clipper
       (offset 8 Filled pftNonZero
          [[mkPoint 0 0; mkPoint 10 0; mkPoint 10 10; mkPoint 0 10]] 5
          jtMiter 2)
     = [Request
          (ClipperExecute ctUnion
             [[mkPoint 0 0; mkPoint 10 0; mkPoint 10 10; mkPoint 0 10]] []
             pftNonZero pftNonZero)].
Proof.
  apply (temporaries_assigned_never_return 8 stub_clipper pinched_contour
           pftNonZero
           [[mkPoint 0 0; mkPoint 10 0; mkPoint 10 10; mkPoint 0 10]] 5
           jtMiter 2).
  - vm_compute. discriminate.
  - lia.
Defined.
